(** * A load-aware Raft consensus module: model and verified properties

    This development embeds the consensus module of [src/server/cmodule.go]
    in Rocq and proves properties of its handlers.

    Conventions of the embedding.
    - Go's [int] (64 bits) is modelled by [Z].  Arithmetic on a term or on
      a value read from a map goes through [wrapInt], the two's-complement
      wrap-around.  The other expressions act on indexes and counters
      bounded by a slice length or guarded by a comparison against one,
      where no wrap-around can occur, and are written in [Z] directly.
    - A Go [map[int]int] is a [gmap Z Z]; reading a missing key yields 0.
    - A run-time panic (index out of range, failed type assertion, integer
      division by zero, explicit [panic]) is the result [None].
    - Calls on external collaborators (the durable store, channels,
      goroutine launches) are recorded, in program order, in a list of
      [Event]s returned next to the new state.
    - Each function models one critical section of the source executed
      without interleaving. *)

From Stdlib Require Import ZArith String Ascii List Lia Sorted Permutation.
From Stdlib Require Import Strings.Byte DecimalString HexadecimalString DecimalPos.
From stdpp Require Import base option list list_numbers gmap strings.

Local Open Scope Z_scope.

(** ** Go primitives *)

(** The value a 64-bit signed integer takes after an arithmetic operation
    whose exact result is [z]. *)
Definition wrapInt (z : Z) : Z := (z + 2 ^ 63) mod 2 ^ 64 - 2 ^ 63.

(** [len(s)] *)
Definition len {A} (s : list A) : Z := Z.of_nat (length s).

(** [s[i]]: panics outside [0 <= i < len(s)]. *)
Definition index {A} (s : list A) (i : Z) : option A :=
  if i <? 0 then None else s !! Z.to_nat i.

(** [s[a:b]]: panics unless [0 <= a <= b <= len(s)].  (Go allows [b] up to
    the capacity of the slice; the model knows lengths only and treats the
    region between length and capacity as out of range.) *)
Definition slice {A} (s : list A) (a b : Z) : option (list A) :=
  if (0 <=? a) && (a <=? b) && (b <=? len s)
  then Some (take (Z.to_nat (b - a)) (drop (Z.to_nat a) s))
  else None.

(** [m[k]] on a [map[int]int]: the zero value when [k] is absent. *)
Definition goGet (m : gmap Z Z) (k : Z) : Z := default 0 (m !! k).

(** ** Formatting and parsing ([fmt], [strconv]) *)

(** [strconv.Itoa] *)
Definition Itoa (z : Z) : string := DecimalString.NilEmpty.string_of_int (Z.to_int z).

(** [fmt.Sprintf("%x", n)] on an [int]: lowercase hexadecimal, with a
    leading minus sign for a negative number. *)
Definition hexInt (z : Z) : string :=
  let digits := HexadecimalString.NilEmpty.string_of_uint (N.to_hex_uint (Z.to_N (Z.abs z))) in
  if z <? 0 then String "-" digits else digits.

Definition digitVal (c : ascii) : option Z :=
  let n := Z.of_N (N_of_ascii c) in
  if (48 <=? n) && (n <=? 57) then Some (n - 48) else None.

Fixpoint parseDigits (s : string) (acc : Z) : option Z :=
  match s with
  | EmptyString => Some acc
  | String c s' => d ← digitVal c; parseDigits s' (acc * 10 + d)
  end.

Definition maxInt : Z := 2 ^ 63 - 1.
Definition minInt : Z := - 2 ^ 63.

(** The result of [strconv.Atoi] for digits denoting [v]: a value out of
    range is replaced by the nearest bound and reported as an error. *)
Definition clampInt (v : Z) : Z * bool :=
  if v >? maxInt then (maxInt, false)
  else if v <? minInt then (minInt, false)
  else (v, true).

(** [strconv.Atoi]: the value and whether the error is [nil].  A syntax
    error gives 0. *)
Definition Atoi (s : string) : Z * bool :=
  let '(neg, body) :=
    match s with
    | String "-" r => (true, r)
    | String "+" r => (false, r)
    | _ => (false, s)
    end in
  match body with
  | EmptyString => (0, false)
  | _ =>
      match parseDigits body 0 with
      | None => (0, false)
      | Some n => clampInt (if neg then - n else n)
      end
  end.

(** [[]byte(s)] *)
Definition bytesOf (s : string) : list Byte.byte := list_byte_of_string s.

Definition hexDigit (n : Z) : ascii :=
  ascii_of_N (Z.to_N (if n <? 10 then 48 + n else 87 + n)).

(** [fmt.Sprintf("%x", b)] on a byte array: two lowercase digits per byte. *)
Fixpoint hexBytes (bs : list Byte.byte) : string :=
  match bs with
  | [] => EmptyString
  | b :: bs' =>
      let n := Z.of_N (Byte.to_N b) in
      String (hexDigit (n / 16)) (String (hexDigit (n mod 16)) (hexBytes bs'))
  end.

(** ** SHA-512 ([crypto/sha512.Sum512]), after FIPS 180-4 *)

Module SHA512.

Definition M : Z := 2 ^ 64.
Definition add (a b : Z) : Z := (a + b) mod M.
Definition rotr (n x : Z) : Z := Z.lor (Z.shiftr x n) (Z.shiftl x (64 - n)) mod M.
Definition shr (n x : Z) : Z := Z.shiftr x n.
Definition not64 (x : Z) : Z := Z.lxor x (M - 1).

Definition Ch (x y z : Z) : Z := Z.lxor (Z.land x y) (Z.land (not64 x) z).
Definition Maj (x y z : Z) : Z :=
  Z.lxor (Z.lxor (Z.land x y) (Z.land x z)) (Z.land y z).
Definition Sigma0 (x : Z) : Z := Z.lxor (Z.lxor (rotr 28 x) (rotr 34 x)) (rotr 39 x).
Definition Sigma1 (x : Z) : Z := Z.lxor (Z.lxor (rotr 14 x) (rotr 18 x)) (rotr 41 x).
Definition sigma0 (x : Z) : Z := Z.lxor (Z.lxor (rotr 1 x) (rotr 8 x)) (shr 7 x).
Definition sigma1 (x : Z) : Z := Z.lxor (Z.lxor (rotr 19 x) (rotr 61 x)) (shr 6 x).

Definition K : list Z := [
  0x428a2f98d728ae22; 0x7137449123ef65cd; 0xb5c0fbcfec4d3b2f; 0xe9b5dba58189dbbc;
  0x3956c25bf348b538; 0x59f111f1b605d019; 0x923f82a4af194f9b; 0xab1c5ed5da6d8118;
  0xd807aa98a3030242; 0x12835b0145706fbe; 0x243185be4ee4b28c; 0x550c7dc3d5ffb4e2;
  0x72be5d74f27b896f; 0x80deb1fe3b1696b1; 0x9bdc06a725c71235; 0xc19bf174cf692694;
  0xe49b69c19ef14ad2; 0xefbe4786384f25e3; 0x0fc19dc68b8cd5b5; 0x240ca1cc77ac9c65;
  0x2de92c6f592b0275; 0x4a7484aa6ea6e483; 0x5cb0a9dcbd41fbd4; 0x76f988da831153b5;
  0x983e5152ee66dfab; 0xa831c66d2db43210; 0xb00327c898fb213f; 0xbf597fc7beef0ee4;
  0xc6e00bf33da88fc2; 0xd5a79147930aa725; 0x06ca6351e003826f; 0x142929670a0e6e70;
  0x27b70a8546d22ffc; 0x2e1b21385c26c926; 0x4d2c6dfc5ac42aed; 0x53380d139d95b3df;
  0x650a73548baf63de; 0x766a0abb3c77b2a8; 0x81c2c92e47edaee6; 0x92722c851482353b;
  0xa2bfe8a14cf10364; 0xa81a664bbc423001; 0xc24b8b70d0f89791; 0xc76c51a30654be30;
  0xd192e819d6ef5218; 0xd69906245565a910; 0xf40e35855771202a; 0x106aa07032bbd1b8;
  0x19a4c116b8d2d0c8; 0x1e376c085141ab53; 0x2748774cdf8eeb99; 0x34b0bcb5e19b48a8;
  0x391c0cb3c5c95a63; 0x4ed8aa4ae3418acb; 0x5b9cca4f7763e373; 0x682e6ff3d6b2b8a3;
  0x748f82ee5defb2fc; 0x78a5636f43172f60; 0x84c87814a1f0ab72; 0x8cc702081a6439ec;
  0x90befffa23631e28; 0xa4506cebde82bde9; 0xbef9a3f7b2c67915; 0xc67178f2e372532b;
  0xca273eceea26619c; 0xd186b8c721c0c207; 0xeada7dd6cde0eb1e; 0xf57d4f7fee6ed178;
  0x06f067aa72176fba; 0x0a637dc5a2c898a6; 0x113f9804bef90dae; 0x1b710b35131c471b;
  0x28db77f523047d84; 0x32caab7b40c72493; 0x3c9ebe0a15c9bebc; 0x431d67c49c100d4c;
  0x4cc5d4becb3e42b6; 0x597f299cfc657e2a; 0x5fcb6fab3ad6faec; 0x6c44198c4a475817 ].

Definition H0 : list Z := [
  0x6a09e667f3bcc908; 0xbb67ae8584caa73b; 0x3c6ef372fe94f82b; 0xa54ff53a5f1d36f1;
  0x510e527fade682d1; 0x9b05688c2b3e6c1f; 0x1f83d9abfb41bd6b; 0x5be0cd19137e2179 ].

(** The first 80 primes; [K] and [H0] are the fractional parts of their
    cube and square roots. *)
Definition primes : list Z := [ 2; 3; 5; 7; 11; 13; 17; 19; 23; 29; 31; 37; 41; 43; 47; 53; 59; 61; 67; 71; 73; 79; 83; 89; 97; 101; 103; 107; 109; 113; 127; 131; 137; 139; 149; 151; 157; 163; 167; 173; 179; 181; 191; 193; 197; 199; 211; 223; 227; 229; 233; 239; 241; 251; 257; 263; 269; 271; 277; 281; 283; 293; 307; 311; 313; 317; 331; 337; 347; 349; 353; 359; 367; 373; 379; 383; 389; 397; 401; 409 ].

(** Integer cube root by bisection on [bits] binary digits. *)
Fixpoint icbrt (bits : nat) (acc n : Z) : Z :=
  match bits with
  | O => acc
  | S b =>
      let c := acc + 2 ^ Z.of_nat b in
      icbrt b (if c * c * c <=? n then c else acc) n
  end.

Definition beWord (bs : list Z) : Z := fold_left (fun a b => a * 256 + b) bs 0.

(** [n] bytes of [v], most significant first. *)
Fixpoint beBytes (n : nat) (v : Z) : list Z :=
  match n with
  | O => []
  | S n' => (v / 256 ^ Z.of_nat n') mod 256 :: beBytes n' v
  end.

Definition pad (msg : list Z) : list Z :=
  let l := len msg in
  msg ++ [128] ++ repeat 0 (Z.to_nat ((128 - (l + 17) mod 128) mod 128))
      ++ beBytes 16 (8 * l).

(** Cut [bs] into [n] groups of [size] bytes. *)
Fixpoint chunks (size n : nat) (bs : list Z) : list (list Z) :=
  match n with
  | O => []
  | S n' => take size bs :: chunks size n' (drop size bs)
  end.

Definition nthw (w : list Z) (i : nat) : Z := nth i w 0.

(** One round.  [win] holds the sixteen schedule words W[t..t+15]. *)
Definition round (k : Z) (win : list Z) (s : list Z) : list Z :=
  let a := nthw s 0 in let b := nthw s 1 in let c := nthw s 2 in
  let d := nthw s 3 in let e := nthw s 4 in let f := nthw s 5 in
  let g := nthw s 6 in let h := nthw s 7 in
  let T1 := add (add (add (add h (Sigma1 e)) (Ch e f g)) k) (nthw win 0) in
  let T2 := add (Sigma0 a) (Maj a b c) in
  [add T1 T2; a; b; c; add d T1; e; f; g].

Definition nextWindow (win : list Z) : list Z :=
  tl win ++ [add (add (add (sigma1 (nthw win 14)) (nthw win 9))
                      (sigma0 (nthw win 1))) (nthw win 0)].

Fixpoint rounds (ks : list Z) (win : list Z) (s : list Z) : list Z :=
  match ks with
  | [] => s
  | k :: ks' => rounds ks' (nextWindow win) (round k win s)
  end.

Definition compress (h : list Z) (block : list Z) : list Z :=
  let win := map beWord (chunks 8 16 block) in
  zip_with add h (rounds K win h).

Definition digest (msg : list Z) : list Z :=
  let p := pad msg in
  let h := fold_left compress (chunks 128 (length p / 128) p) H0 in
  flat_map (beBytes 8) h.

(** [sha512.Sum512] *)
Definition Sum512 (data : list Byte.byte) : list Byte.byte :=
  map (fun z => default Byte.x00 (Byte.of_N (Z.to_N z)))
      (digest (map (fun b => Z.of_N (Byte.to_N b)) data)).

End SHA512.

(** ** Data model *)

Module Service.
(** Modelled from the spec: the type [Service] is declared outside
    [cmodule.go]; the spec describes the command as "an object with
    ServiceID and Type", and [restoreFromStorage] builds it from two
    strings in that order. *)
Record t := mk { ServiceID : string; SType : string }.
End Service.

Module LogEntry.
Record t := mk {
  Command : Service.t;
  Term : Z;
  LeaderId : Z;
  Index : Z;
  ChosenId : Z
}.
End LogEntry.

Module CommitEntry.
Record t := mk {
  Command : Service.t;
  Index : Z;
  Term : Z;
  ChosenId : Z
}.
End CommitEntry.

Inductive CMState := Follower | Candidate | Leader | Dead.

Definition CMState_eqb (a b : CMState) : bool :=
  match a, b with
  | Follower, Follower | Candidate, Candidate | Leader, Leader | Dead, Dead => true
  | _, _ => false
  end.

Module CM.
(** The fields of [ConsensusModule] that hold data.  The mutex, the server
    handle, the store handle and the channels are collaborators: what the
    code does with them appears as [Event]s. *)
Record t := mk {
  id : Z;
  peerIds : list Z;
  loadLevel : Z;
  loadLevelMap : gmap Z Z;
  currentTerm : Z;
  votedFor : Z;
  log : list LogEntry.t;
  commitIndex : Z;
  lastApplied : Z;
  state : CMState;
  electionResetEvent : Z;
  nextIndex : gmap Z Z;
  matchIndex : gmap Z Z
}.

Definition set_loadLevelMap (v : gmap Z Z) (c : t) : t :=
  mk (id c) (peerIds c) (loadLevel c) v (currentTerm c) (votedFor c) (log c)
     (commitIndex c) (lastApplied c) (state c) (electionResetEvent c)
     (nextIndex c) (matchIndex c).
Definition set_currentTerm (v : Z) (c : t) : t :=
  mk (id c) (peerIds c) (loadLevel c) (loadLevelMap c) v (votedFor c) (log c)
     (commitIndex c) (lastApplied c) (state c) (electionResetEvent c)
     (nextIndex c) (matchIndex c).
Definition set_votedFor (v : Z) (c : t) : t :=
  mk (id c) (peerIds c) (loadLevel c) (loadLevelMap c) (currentTerm c) v (log c)
     (commitIndex c) (lastApplied c) (state c) (electionResetEvent c)
     (nextIndex c) (matchIndex c).
Definition set_log (v : list LogEntry.t) (c : t) : t :=
  mk (id c) (peerIds c) (loadLevel c) (loadLevelMap c) (currentTerm c) (votedFor c) v
     (commitIndex c) (lastApplied c) (state c) (electionResetEvent c)
     (nextIndex c) (matchIndex c).
Definition set_commitIndex (v : Z) (c : t) : t :=
  mk (id c) (peerIds c) (loadLevel c) (loadLevelMap c) (currentTerm c) (votedFor c) (log c)
     v (lastApplied c) (state c) (electionResetEvent c)
     (nextIndex c) (matchIndex c).
Definition set_lastApplied (v : Z) (c : t) : t :=
  mk (id c) (peerIds c) (loadLevel c) (loadLevelMap c) (currentTerm c) (votedFor c) (log c)
     (commitIndex c) v (state c) (electionResetEvent c)
     (nextIndex c) (matchIndex c).
Definition set_state (v : CMState) (c : t) : t :=
  mk (id c) (peerIds c) (loadLevel c) (loadLevelMap c) (currentTerm c) (votedFor c) (log c)
     (commitIndex c) (lastApplied c) v (electionResetEvent c)
     (nextIndex c) (matchIndex c).
Definition set_electionResetEvent (v : Z) (c : t) : t :=
  mk (id c) (peerIds c) (loadLevel c) (loadLevelMap c) (currentTerm c) (votedFor c) (log c)
     (commitIndex c) (lastApplied c) (state c) v
     (nextIndex c) (matchIndex c).
Definition set_nextIndex (v : gmap Z Z) (c : t) : t :=
  mk (id c) (peerIds c) (loadLevel c) (loadLevelMap c) (currentTerm c) (votedFor c) (log c)
     (commitIndex c) (lastApplied c) (state c) (electionResetEvent c)
     v (matchIndex c).
Definition set_matchIndex (v : gmap Z Z) (c : t) : t :=
  mk (id c) (peerIds c) (loadLevel c) (loadLevelMap c) (currentTerm c) (votedFor c) (log c)
     (commitIndex c) (lastApplied c) (state c) (electionResetEvent c)
     (nextIndex c) v.
End CM.

(** ** RPC messages *)

Module RequestVoteArgs.
Record t := mk {
  Term : Z;
  CandidateId : Z;
  LastLogIndex : Z;
  LastLogTerm : Z;
  LoadLevel : Z
}.
End RequestVoteArgs.

Module RequestVoteReply.
Record t := mk { Term : Z; VoteGranted : bool; LoadLevel : Z }.
(** [var reply RequestVoteReply] *)
Definition zero : t := mk 0 false 0.
End RequestVoteReply.

Module AppendEntriesArgs.
Record t := mk {
  Term : Z;
  LeaderId : Z;
  PrevLogIndex : Z;
  PrevLogTerm : Z;
  Entries : list LogEntry.t;
  LeaderCommit : Z;
  ChosenId : Z
}.
End AppendEntriesArgs.

Module AppendEntriesReply.
Record t := mk {
  Term : Z;
  Success : bool;
  ConflictIndex : Z;
  ConflictTerm : Z
}.
(** [var reply AppendEntriesReply] *)
Definition zero : t := mk 0 false 0 0.
End AppendEntriesReply.

(** ** Values held by the durable store

    [termData] is a [map[string]interface{}].  The values the code puts in
    it or takes out of it are strings, a [Service] struct, and (on restore)
    a nested [map[string]interface{}] for the command. *)
#[warnings="-register-all"]
Inductive Value :=
| VStr (s : string)
| VService (c : Service.t)
| VObj (m : list (string * Value)).

(** ** Effects on collaborators, in program order *)
Inductive Event :=
| EvStorageSet (r : gmap string Value)        (* cm.storage.Set(termData) *)
| EvGoReceiveService (r : gmap string Value) (leader : Z)
                                              (* go cm.ReceiveService(termData, ip(leader)) *)
| EvGoSendService                             (* go cm.SendService() *)
| EvNewCommitReady                            (* cm.newCommitReadyChan <- struct{}{} *)
| EvTriggerAE                                 (* cm.triggerAEChan <- struct{}{} *)
| EvSubmitDone                                (* cm.SubmitChan <- struct{}{} *)
| EvResume                                    (* cm.ResumeChan <- struct{}{} *)
| EvGoHeartbeats                              (* go func(heartbeatTimeout) {...} *)
| EvSleep (ms : Z)                            (* time.Sleep(ms * time.Millisecond) *)
| EvCommit (c : CommitEntry.t).               (* cm.commitChan <- c *)

(** ** Role changes *)

(** [becomeFollower] *)
Definition becomeFollower (cm : CM.t) (term : Z) : CM.t :=
  CM.set_votedFor (-1) (CM.set_currentTerm term (CM.set_state Follower cm)).

(** [lastLogIndexAndTerm] *)
Definition lastLogIndexAndTerm (cm : CM.t) : option (Z * Z) :=
  if len (CM.log cm) >? 0 then
    let lastIndex := len (CM.log cm) - 1 in
    e ← index (CM.log cm) lastIndex;
    Some (lastIndex, LogEntry.Term e)
  else Some (-1, -1).

(** ** Replication engine: what the leader does with an AppendEntries reply *)

(** The inner loop of [leaderSendAEs]: [matchCount := 1], then one
    increment per element of [peerIds] whose [matchIndex] is at least [i]. *)
Definition matchCount (cm : CM.t) (i : Z) : Z :=
  fold_left (fun c p => if goGet (CM.matchIndex cm) p >=? i then c + 1 else c)
            (CM.peerIds cm) 1.

(** One iteration of [for i := cm.commitIndex + 1; i < len(cm.log); i++]. *)
Definition advanceStep (cm : CM.t) (i : Z) : option CM.t :=
  e ← index (CM.log cm) i;
  Some (if LogEntry.Term e =? CM.currentTerm cm then
          if matchCount cm i * 2 >? len (CM.peerIds cm) + 1
          then CM.set_commitIndex i cm
          else cm
        else cm).

(** The loop itself; [n] is the number of iterations left, that is
    [len(cm.log) - i] (no iteration when that is not positive). *)
Fixpoint advanceLoop (n : nat) (i : Z) (cm : CM.t) : option CM.t :=
  match n with
  | O => Some cm
  | S n' => cm' ← advanceStep cm i; advanceLoop n' (i + 1) cm'
  end.

Definition advanceCommitIndex (cm : CM.t) : option CM.t :=
  let i0 := CM.commitIndex cm + 1 in
  advanceLoop (Z.to_nat (len (CM.log cm) - i0)) i0 cm.

(** [for i := len(cm.log) - 1; i >= 0; i--] looking for [ConflictTerm];
    [n] is [i + 1]. *)
Fixpoint lastIndexOfTerm (l : list LogEntry.t) (n : nat) (t : Z) : option Z :=
  match n with
  | O => Some (-1)
  | S i =>
      e ← index l (Z.of_nat i);
      if LogEntry.Term e =? t then Some (Z.of_nat i) else lastIndexOfTerm l i t
  end.

(** The first critical section of the per-peer goroutine of
    [leaderSendAEs]: snapshot [ni] and build the request. *)
Definition leaderPrepareAE (cm : CM.t) (savedCurrentTerm peerId : Z)
  : option (Z * AppendEntriesArgs.t) :=
  let ni := goGet (CM.nextIndex cm) peerId in
  let prevLogIndex := wrapInt (ni - 1) in
  prevLogTerm ← (if prevLogIndex >=? 0
                 then e ← index (CM.log cm) prevLogIndex; Some (LogEntry.Term e)
                 else Some (-1));
  entries ← slice (CM.log cm) ni (len (CM.log cm));
  let chosenId := match entries with e :: _ => LogEntry.ChosenId e | [] => -1 end in
  Some (ni, AppendEntriesArgs.mk savedCurrentTerm (CM.id cm) prevLogIndex
              prevLogTerm entries (CM.commitIndex cm) chosenId).

(** The second critical section: the reply has arrived ([err == nil]). *)
Definition leaderOnAEReply (cm : CM.t) (savedCurrentTerm peerId ni : Z)
    (entries : list LogEntry.t) (reply : AppendEntriesReply.t)
  : option (CM.t * list Event) :=
  if AppendEntriesReply.Term reply >? CM.currentTerm cm then
    Some (becomeFollower cm (AppendEntriesReply.Term reply), [])
  else if CMState_eqb (CM.state cm) Leader
          && (savedCurrentTerm =? AppendEntriesReply.Term reply) then
    if AppendEntriesReply.Success reply then
      let cm1 := CM.set_nextIndex
                   (<[peerId := wrapInt (ni + len entries)]> (CM.nextIndex cm)) cm in
      let cm2 := CM.set_matchIndex
                   (<[peerId := wrapInt (goGet (CM.nextIndex cm1) peerId - 1)]>
                      (CM.matchIndex cm1)) cm1 in
      let savedCommitIndex := CM.commitIndex cm2 in
      cm3 ← advanceCommitIndex cm2;
      if negb (CM.commitIndex cm3 =? savedCommitIndex)
      then Some (cm3, [EvNewCommitReady; EvTriggerAE])
      else Some (cm3, [])
    else if AppendEntriesReply.ConflictTerm reply >=? 0 then
      lastIdx ← lastIndexOfTerm (CM.log cm) (length (CM.log cm))
                                (AppendEntriesReply.ConflictTerm reply);
      if lastIdx >=? 0
      then Some (CM.set_nextIndex (<[peerId := lastIdx + 1]> (CM.nextIndex cm)) cm, [])
      else Some (CM.set_nextIndex
                   (<[peerId := AppendEntriesReply.ConflictIndex reply]> (CM.nextIndex cm)) cm, [])
    else
      Some (CM.set_nextIndex
              (<[peerId := AppendEntriesReply.ConflictIndex reply]> (CM.nextIndex cm)) cm, [])
  else Some (cm, []).

(** ** Persistence *)

(** [fmt.Sprintf("%v", v)] for the values [persistToStorage] stores: a
    string prints as itself, a struct as its fields between braces,
    separated by a space.  (A decoded object is never stored by
    [persistToStorage]; its printed form is not modelled.) *)
Definition fmtV (v : Value) : string :=
  match v with
  | VStr s => s
  | VService c => "{" ++ Service.ServiceID c ++ " " ++ Service.SType c ++ "}"
  | VObj _ => "map[]"
  end.

(** [checkIfChosen] *)
Definition checkIfChosen (cm : CM.t) (peerId : Z) : bool := CM.id cm =? peerId.

(** The six entries of [termData] before the checksum is added. *)
Definition termDataOf (cm : CM.t) (last : Z) (e : LogEntry.t) : gmap string Value :=
  <["VotedFor" := VStr (Itoa (CM.votedFor cm))]>
  (<["Chosen" := VStr (Itoa (LogEntry.ChosenId e))]>
  (<["Leader" := VStr (Itoa (LogEntry.LeaderId e))]>
  (<["Command" := VService (LogEntry.Command e)]>
  (<["Term" := VStr (Itoa (CM.currentTerm cm))]>
  (<["Id" := VStr (hexInt last)]> ∅))))).

(** [for _, v := range termData { sum = append(sum, ...) }].  Go leaves the
    order in which [range] visits a map unspecified; [order] is the order
    of the keys in this execution of the loop. *)
Definition checksumInput (termData : gmap string Value) (order : list string)
  : list Byte.byte :=
  fold_left (fun sum k => match termData !! k with
                          | Some v => sum ++ bytesOf (fmtV v)
                          | None => sum
                          end) order [].

(** [persistToStorage].  The state of the module is not changed; the
    result is the list of effects, or a panic. *)
Definition persistToStorage (cm : CM.t) (order : list string) : option (list Event) :=
  let last := if len (CM.log cm) - 1 <? 0 then 0 else len (CM.log cm) - 1 in
  e ← index (CM.log cm) last;
  let termData := termDataOf cm last e in
  let sum := checksumInput termData order in
  let termData := <["checksum" := VStr (hexBytes (SHA512.Sum512 sum))]> termData in
  Some (EvStorageSet termData ::
        (if checkIfChosen cm (LogEntry.ChosenId e) then
           if negb (CMState_eqb (CM.state cm) Leader)
           then [EvGoReceiveService termData (LogEntry.LeaderId e)]
           else []
         else if CMState_eqb (CM.state cm) Leader then [EvGoSendService]
         else [])).

(** The part of the [storage.Storage] interface that the module reads. *)
Class Storage (S : Type) := {
  HasData : S -> bool;
  Get : S -> string -> option Value;
  GetLog : S -> list (gmap string Value)
}.

(** [x.(string)]: panics unless [x] holds a string. *)
Definition asString (v : option Value) : option string :=
  match v with Some (VStr s) => Some s | _ => None end.

(** [x.(map[string]interface{})] *)
Definition asObject (v : option Value) : option (list (string * Value)) :=
  match v with Some (VObj m) => Some m | _ => None end.

(** [m[k]] on the decoded command object. *)
Fixpoint objGet (m : list (string * Value)) (k : string) : option Value :=
  match m with
  | [] => None
  | (k', v) :: m' => if String.eqb k' k then Some v else objGet m' k
  end.

(** The body of [for i, log := range logs] in [restoreFromStorage];
    [n] is [len(logs)]. *)
Definition restoreEntry (n i : Z) (r : gmap string Value) : option LogEntry.t :=
  term ← asString (r !! "Term");
  leader ← asString (r !! "Leader");
  chosen ← asString (r !! "Chosen");
  cmd ← asObject (r !! "Command");
  sid ← asString (objGet cmd "ServiceID");
  ty ← asString (objGet cmd "Type");
  Some (LogEntry.mk (Service.mk sid ty) (Atoi term).1 (Atoi leader).1
                    (n - i - 1) (Atoi chosen).1).

Fixpoint restoreEntries (n i : Z) (logs : list (gmap string Value))
  : option (list LogEntry.t) :=
  match logs with
  | [] => Some []
  | r :: rest =>
      e ← restoreEntry n i r;
      es ← restoreEntries n (i + 1) rest;
      Some (e :: es)
  end.

(** [restoreFromStorage] *)
Definition restoreFromStorage {S : Type} `{!Storage S} (st : S) (cm : CM.t) : option CM.t :=
  term ← Get st "Term";
  term ← asString (Some term);
  let cm := CM.set_currentTerm (Atoi term).1 cm in
  voted ← Get st "VotedFor";
  voted ← asString (Some voted);
  let cm := CM.set_votedFor (Atoi voted).1 cm in
  let logs := GetLog st in
  es ← restoreEntries (len logs) 0 logs;
  Some (CM.set_log (CM.log cm ++ es) cm).

(** [NewConsensusModule] *)
Definition NewConsensusModule {S : Type} `{!Storage S} (id : Z) (st : S) : option CM.t :=
  let cm := CM.mk id [] 10 ∅ 0 (-1) [] (-1) (-1) Follower 0 ∅ ∅ in
  if HasData st then restoreFromStorage st cm else Some cm.

(** ** Placement selector *)

(** One iteration of the loop of [minLoadLevelMap]. *)
Definition minLoadStep (m : gmap Z Z) (acc : list Z * Z * Z) (kv : Z * Z)
  : list Z * Z * Z :=
  let '(lowestPeers, lastPeer, lowestLoad) := acc in
  let '(peerId, loadLevel) := kv in
  let ok := bool_decide (is_Some (m !! lastPeer)) in
  if negb ok || (loadLevel <? lowestLoad) then ([peerId], peerId, loadLevel)
  else if loadLevel =? lowestLoad then (lowestPeers ++ [peerId], peerId, lowestLoad)
  else (lowestPeers, peerId, lowestLoad).

(** [minLoadLevelMap].  [order] lists the entries of [loadLevelMap] in the
    order [range] visits them; [intn n] is the value [rand.Intn(n)]
    returns, which panics for [n <= 0]. *)
Definition minLoadLevelMap (cm : CM.t) (order : list (Z * Z)) (intn : Z -> Z)
  : option Z :=
  let '(lowestPeers, _, _) :=
    fold_left (minLoadStep (CM.loadLevelMap cm)) order ([], 0, 11) in
  if len lowestPeers <=? 0 then None
  else index lowestPeers (intn (len lowestPeers)).

(** ** Submit *)

Definition Submit (cm : CM.t) (command : Service.t)
    (loadOrder : list (Z * Z)) (intn : Z -> Z) (dataOrder : list string)
  : option (CM.t * list Event) :=
  if CMState_eqb (CM.state cm) Leader then
    chosenId ← minLoadLevelMap cm loadOrder intn;
    let cm := CM.set_log
                (CM.log cm ++ [LogEntry.mk command (CM.currentTerm cm) (CM.id cm)
                                           (len (CM.log cm)) chosenId]) cm in
    evs ← persistToStorage cm dataOrder;
    Some (cm, evs ++ [EvTriggerAE] ++ [EvSubmitDone])
  else Some (cm, [EvSubmitDone]).

(** [Stop] *)
Definition Stop (cm : CM.t) : CM.t := CM.set_state Dead cm.

(** ** RequestVote *)

(** [runVoteDelay]: [100/loadLevel] is an integer division, which panics
    for a zero divisor and truncates toward zero otherwise. *)
Definition runVoteDelay (loadLevel : Z) : option (list Event) :=
  if loadLevel =? 0 then None else Some [EvSleep (100 ÷ loadLevel)].

(** The first critical section of [RequestVote], up to the release of the
    mutex: the log position is read and a newer term adopted. *)
Definition RequestVote_enter (cm : CM.t) (args : RequestVoteArgs.t)
  : option (CM.t * (Z * Z)) :=
  last ← lastLogIndexAndTerm cm;
  Some (if RequestVoteArgs.Term args >? CM.currentTerm cm
        then becomeFollower cm (RequestVoteArgs.Term args)
        else cm, last).

(** The second critical section, after the delay: the decision.  The
    argument of the log message in the granting branch divides by the
    load level of the request. *)
Definition RequestVote_decide (cm : CM.t) (now : Z) (args : RequestVoteArgs.t)
    (last : Z * Z) (reply : RequestVoteReply.t)
  : option (CM.t * RequestVoteReply.t) :=
  let '(lastLogIndex, lastLogTerm) := last in
  if (CM.currentTerm cm =? RequestVoteArgs.Term args)
     && ((CM.votedFor cm =? -1) || (CM.votedFor cm =? RequestVoteArgs.CandidateId args))
     && ((RequestVoteArgs.LastLogTerm args >? lastLogTerm)
         || ((RequestVoteArgs.LastLogTerm args =? lastLogTerm)
             && (RequestVoteArgs.LastLogIndex args >=? lastLogIndex)))
  then
    if RequestVoteArgs.LoadLevel args =? 0 then None
    else
      let cm := CM.set_electionResetEvent now
                  (CM.set_votedFor (RequestVoteArgs.CandidateId args) cm) in
      Some (cm, RequestVoteReply.mk (CM.currentTerm cm) true (CM.loadLevel cm))
  else
    Some (cm, RequestVoteReply.mk (CM.currentTerm cm) false
                (RequestVoteReply.LoadLevel reply)).

(** [RequestVote] with no other goroutine running during the delay.
    [reply] is the reply object as the caller passes it in. *)
Definition RequestVote (cm : CM.t) (now : Z) (args : RequestVoteArgs.t)
    (reply : RequestVoteReply.t)
  : option (CM.t * RequestVoteReply.t * list Event) :=
  if CMState_eqb (CM.state cm) Dead then Some (cm, reply, [])
  else
    '(cm, last) ← RequestVote_enter cm args;
    evs ← (if negb (CMState_eqb (CM.state cm) Candidate)
           then runVoteDelay (RequestVoteArgs.LoadLevel args)
           else Some []);
    '(cm, reply) ← RequestVote_decide cm now args last reply;
    Some (cm, reply, evs).

(** ** AppendEntries *)

(** The test [PrevLogIndex == -1 || (PrevLogIndex < len(log) &&
    PrevLogTerm == log[PrevLogIndex].Term)], left to right. *)
Definition prevMatches (cm : CM.t) (args : AppendEntriesArgs.t) : option bool :=
  if AppendEntriesArgs.PrevLogIndex args =? -1 then Some true
  else if AppendEntriesArgs.PrevLogIndex args <? len (CM.log cm) then
    e ← index (CM.log cm) (AppendEntriesArgs.PrevLogIndex args);
    Some (AppendEntriesArgs.PrevLogTerm args =? LogEntry.Term e)
  else Some false.

(** The loop that looks for the insertion point.  [rest] is
    [args.Entries[newEntriesIndex:]]; the result is the final
    [(logInsertIndex, newEntriesIndex)]. *)
Fixpoint findInsertion (log : list LogEntry.t) (logInsertIndex : Z)
    (rest : list LogEntry.t) (newEntriesIndex : Z) : option (Z * Z) :=
  match rest with
  | [] => Some (logInsertIndex, newEntriesIndex)
  | e :: rest' =>
      if logInsertIndex >=? len log then Some (logInsertIndex, newEntriesIndex)
      else
        le ← index log logInsertIndex;
        if negb (LogEntry.Term le =? LogEntry.Term e)
        then Some (logInsertIndex, newEntriesIndex)
        else findInsertion log (logInsertIndex + 1) rest' (newEntriesIndex + 1)
  end.

(** [intMin] *)
Definition intMin (a b : Z) : Z := if a <? b then a else b.

(** [for i = PrevLogIndex - 1; i >= 0; i--] leaving at the first entry
    whose term is not [t]; [n] is [i + 1] and the result the final [i]. *)
Fixpoint scanBack (log : list LogEntry.t) (n : nat) (t : Z) : option Z :=
  match n with
  | O => Some (-1)
  | S i =>
      e ← index log (Z.of_nat i);
      if negb (LogEntry.Term e =? t) then Some (Z.of_nat i) else scanBack log i t
  end.

(** The branch taken when the previous entry matches. *)
Definition appendMatched (cm : CM.t) (dataOrder : list string)
    (args : AppendEntriesArgs.t) : option (CM.t * list Event) :=
  let entries := AppendEntriesArgs.Entries args in
  '(logInsertIndex, newEntriesIndex) ←
    findInsertion (CM.log cm) (AppendEntriesArgs.PrevLogIndex args + 1) entries 0;
  '(cm, evs) ←
    (if newEntriesIndex <? len entries then
       prefix ← slice (CM.log cm) 0 logInsertIndex;
       suffix ← slice entries newEntriesIndex (len entries);
       let cm := CM.set_log (prefix ++ suffix) cm in
       evs ← persistToStorage cm dataOrder;
       Some (cm, evs)
     else Some (cm, []));
  if AppendEntriesArgs.LeaderCommit args >? CM.commitIndex cm then
    Some (CM.set_commitIndex
            (intMin (AppendEntriesArgs.LeaderCommit args) (len (CM.log cm) - 1)) cm,
          evs ++ [EvNewCommitReady])
  else Some (cm, evs).

(** The branch taken when it does not: the conflict hints
    [(ConflictIndex, ConflictTerm)]. *)
Definition conflictHints (cm : CM.t) (args : AppendEntriesArgs.t) : option (Z * Z) :=
  if AppendEntriesArgs.PrevLogIndex args >=? len (CM.log cm) then
    Some (len (CM.log cm), -1)
  else
    e ← index (CM.log cm) (AppendEntriesArgs.PrevLogIndex args);
    let conflictTerm := LogEntry.Term e in
    i ← scanBack (CM.log cm) (Z.to_nat (AppendEntriesArgs.PrevLogIndex args)) conflictTerm;
    Some (i + 1, conflictTerm).

(** [AppendEntries] *)
Definition AppendEntries (cm : CM.t) (now : Z) (dataOrder : list string)
    (args : AppendEntriesArgs.t) (reply : AppendEntriesReply.t)
  : option (CM.t * AppendEntriesReply.t * list Event) :=
  if CMState_eqb (CM.state cm) Dead then Some (cm, reply, [])
  else
    let cm := if AppendEntriesArgs.Term args >? CM.currentTerm cm
              then becomeFollower cm (AppendEntriesArgs.Term args) else cm in
    if AppendEntriesArgs.Term args =? CM.currentTerm cm then
      let cm := if negb (CMState_eqb (CM.state cm) Follower)
                then becomeFollower cm (AppendEntriesArgs.Term args) else cm in
      let cm := CM.set_electionResetEvent now cm in
      ok ← prevMatches cm args;
      if ok : bool then
        '(cm, evs) ← appendMatched cm dataOrder args;
        Some (cm, AppendEntriesReply.mk (CM.currentTerm cm) true
                    (AppendEntriesReply.ConflictIndex reply)
                    (AppendEntriesReply.ConflictTerm reply), evs)
      else
        '(conflictIndex, conflictTerm) ← conflictHints cm args;
        Some (cm, AppendEntriesReply.mk (CM.currentTerm cm) false
                    conflictIndex conflictTerm, [])
    else
      Some (cm, AppendEntriesReply.mk (CM.currentTerm cm) false
                  (AppendEntriesReply.ConflictIndex reply)
                  (AppendEntriesReply.ConflictTerm reply), []).

(** ** Election *)

(** [for _, peerId := range cm.peerIds] in [startLeader]. *)
Definition initLeaderIndexes (cm : CM.t) : CM.t :=
  fold_left (fun c p =>
               CM.set_matchIndex (<[p := -1]> (CM.matchIndex c))
                 (CM.set_nextIndex (<[p := len (CM.log c)]> (CM.nextIndex c)) c))
            (CM.peerIds cm) cm.

(** [startLeader] *)
Definition startLeader (cm : CM.t) : CM.t * list Event :=
  (initLeaderIndexes (CM.set_state Leader cm), [EvResume; EvGoHeartbeats]).

(** The part of [StartElection] that runs before the requests are sent:
    the new state, [savedCurrentTerm] and the initial [votesReceived]. *)
Definition StartElection (cm : CM.t) (now : Z) : CM.t * Z * Z :=
  let cm := CM.set_state Candidate cm in
  let cm := CM.set_currentTerm (wrapInt (CM.currentTerm cm + 1)) cm in
  let savedCurrentTerm := CM.currentTerm cm in
  let cm := CM.set_electionResetEvent now cm in
  let cm := CM.set_votedFor (CM.id cm) cm in
  let votesReceived := 1 in
  let cm := CM.set_loadLevelMap (<[CM.id cm := CM.loadLevel cm]> (CM.loadLevelMap cm)) cm in
  (cm, savedCurrentTerm, votesReceived).

(** The critical section of the per-peer goroutine of [StartElection] that
    runs when the reply of [peerId] has arrived.  [votesReceived] is shared
    by the goroutines of one election and threaded through here. *)
Definition onVoteReply (cm : CM.t) (savedCurrentTerm votesReceived peerId : Z)
    (reply : RequestVoteReply.t) : CM.t * Z * list Event :=
  let cm := CM.set_loadLevelMap
              (<[peerId := RequestVoteReply.LoadLevel reply]> (CM.loadLevelMap cm)) cm in
  if negb (CMState_eqb (CM.state cm) Candidate) then (cm, votesReceived, [])
  else if RequestVoteReply.Term reply >? savedCurrentTerm then
    (becomeFollower cm (RequestVoteReply.Term reply), votesReceived, [])
  else if RequestVoteReply.Term reply =? savedCurrentTerm then
    if RequestVoteReply.VoteGranted reply then
      let votesReceived := votesReceived + 1 in
      if votesReceived * 2 >? len (CM.peerIds cm) then
        let '(cm, evs) := startLeader cm in (cm, votesReceived, evs)
      else (cm, votesReceived, [])
    else (cm, votesReceived, [])
  else (cm, votesReceived, []).

(** ** Commit dispatcher *)

(** [for i, entry := range entries { cm.commitChan <- CommitEntry{...} }] *)
Fixpoint emitEntries (savedTerm savedLastApplied i : Z) (entries : list LogEntry.t)
  : list CommitEntry.t :=
  match entries with
  | [] => []
  | entry :: rest =>
      CommitEntry.mk (LogEntry.Command entry) (savedLastApplied + i + 1) savedTerm
                     (LogEntry.ChosenId entry)
      :: emitEntries savedTerm savedLastApplied (i + 1) rest
  end.

(** One turn of the loop of [commitChanSender], after a notification.  The
    messages are sent after the mutex is released; [entries] is taken as
    read under the mutex (in Go it shares the array of the log, and a
    concurrent overwrite of that array is outside this model). *)
Definition commitChanSender (cm : CM.t) : option (CM.t * list CommitEntry.t) :=
  let savedTerm := CM.currentTerm cm in
  let savedLastApplied := CM.lastApplied cm in
  '(cm, entries) ←
    (if CM.commitIndex cm >? CM.lastApplied cm then
       entries ← slice (CM.log cm) (CM.lastApplied cm + 1) (CM.commitIndex cm + 1);
       Some (CM.set_lastApplied (CM.commitIndex cm) cm, entries)
     else Some (cm, []));
  Some (cm, emitEntries savedTerm savedLastApplied 0 entries).

(** ** A store given by its contents *)

(** Modelled from the spec: the durable store is outside [cmodule.go].
    The spec describes it as holding "a bounded set of named scalars and an
    append-only record sequence" and reporting "whether prior data exists";
    the command of a record comes back as "an object with ServiceID and
    Type".  This instance answers the reads from given contents. *)
Record StoreContents := {
  scalars : gmap string Value;
  records : list (gmap string Value)
}.

#[global] Instance StoreContents_Storage : Storage StoreContents := {
  HasData s := match records s with [] => false | _ => true end;
  Get s k := scalars s !! k;
  GetLog s := records s
}.

(** ** Peer directory *)

Definition set_peerIds (v : list Z) (c : CM.t) : CM.t :=
  CM.mk (CM.id c) v (CM.loadLevel c) (CM.loadLevelMap c) (CM.currentTerm c)
        (CM.votedFor c) (CM.log c) (CM.commitIndex c) (CM.lastApplied c)
        (CM.state c) (CM.electionResetEvent c) (CM.nextIndex c) (CM.matchIndex c).

(** [ConnectPeer] *)
Definition ConnectPeer (cm : CM.t) (peerId : Z) : CM.t :=
  set_peerIds (CM.peerIds cm ++ [peerId]) cm.

(** The search of [for i, peer := range cm.peerIds] in [DisconnectPeer]:
    the index of the first element equal to [peerId], counting from [i]. *)
Fixpoint findPeer (l : list Z) (i : Z) (peerId : Z) : option Z :=
  match l with
  | [] => None
  | peer :: rest => if peer =? peerId then Some i else findPeer rest (i + 1) peerId
  end.

(** [DisconnectPeer]: [append(cm.peerIds[:i], cm.peerIds[i+1:]...)] at the
    first match, then [break]. *)
Definition DisconnectPeer (cm : CM.t) (peerId : Z) : option CM.t :=
  match findPeer (CM.peerIds cm) 0 peerId with
  | Some i =>
      before ← slice (CM.peerIds cm) 0 i;
      after ← slice (CM.peerIds cm) (i + 1) (len (CM.peerIds cm));
      Some (set_peerIds (before ++ after) cm)
  | None => Some cm
  end.

(** ** Resume and the vote request *)

(** [Resume]: a Follower starts an election, any other node becomes
    leader.  The requests of the election are sent by goroutines; what
    each one sends is [voteRequestArgs]. *)
Definition Resume (cm : CM.t) (now : Z) : CM.t * list Event :=
  if CMState_eqb (CM.state cm) Follower
  then ((StartElection cm now).1.1, [])
  else startLeader cm.

(** The request built by the per-peer goroutine of [StartElection]. *)
Definition voteRequestArgs (cm : CM.t) (savedCurrentTerm : Z)
  : option RequestVoteArgs.t :=
  '(savedLastLogIndex, savedLastLogTerm) ← lastLogIndexAndTerm cm;
  Some (RequestVoteArgs.mk savedCurrentTerm (CM.id cm) savedLastLogIndex
                           savedLastLogTerm (CM.loadLevel cm)).

(** ** Framing of the artifact channel *)

(** [len(mess)] on a string. *)
Definition slen (s : string) : Z := Z.of_nat (String.length s).

(** [mess[a:b]] on a string: panics unless [0 <= a <= b <= len(mess)]. *)
Definition sslice (s : string) (a b : Z) : option string :=
  if (0 <=? a) && (a <=? b) && (b <=? slen s)
  then Some (String.substring (Z.to_nat a) (Z.to_nat (b - a)) s)
  else None.

(** The result of a function that returns an [error]: [None] for [nil]. *)
Definition GoError := option string.

(** The loop [for len(mess) > bufSize] of [Send].  The connection accepts
    [budget] more writes and fails the next one with [werr]; every turn of
    the loop writes once.  The result is the list of buffers written, and
    either the rest of the message with the writes the connection still
    accepts, or the error returned. *)
Fixpoint sendLoop (budget : nat) (werr : string) (bufSize : Z) (mess : string)
    (written : list string) : option (list string * (string * nat + string)) :=
  if slen mess >? bufSize then
    buf ← sslice mess 0 bufSize;
    match budget with
    | O => Some (written, inr werr)
    | S budget' =>
        mess' ← sslice mess bufSize (slen mess);
        sendLoop budget' werr bufSize mess' (written ++ [buf])
    end
  else Some (written, inl (mess, budget)).

(** One [conn.Write]. *)
Definition connWrite (budget : nat) (werr : string) (buf : string)
    (written : list string) : list string * (nat + string) :=
  match budget with
  | O => (written, inr werr)
  | S budget' => (written ++ [buf], inl budget')
  end.

(** [Send]: the buffers written to the connection, in order, and the
    error returned ([None] for [nil]).  The pause before the end marker is
    left out. *)
Definition Send (budget : nat) (werr : string) (mess : string) (bufSize : Z)
  : option (list string * GoError) :=
  r ← sendLoop budget werr bufSize mess [];
  match r with
  | (written, inr e) => Some (written, Some e)
  | (written, inl (mess, budget)) =>
      let '(written, r) :=
        if slen mess <? bufSize then connWrite budget werr mess written
        else (written, inl budget) in
      match r with
      | inr e => Some (written, Some e)
      | inl budget =>
          match connWrite budget werr "END" written with
          | (written, inr e) => Some (written, Some e)
          | (written, inl _) => Some (written, None)
          end
      end
  end.

(** The loop of [Receive].  [reads] lists what the successive calls of
    [conn.Read] deliver; the call after the last one fails with [rerr].
    Every call reads into a fresh buffer of [bufSize] bytes, so a
    connection never delivers more than [bufSize] bytes in one read: the
    lists that describe a connection are those that satisfy [readsFit].
    The loop itself does not look at the length of what it is handed. *)
Fixpoint receiveLoop (reads : list string) (rerr : string) (mess : string)
  : string * GoError :=
  match reads with
  | [] => (""%string, Some rerr)
  | r :: reads' =>
      if String.eqb r "END" then (mess, None)
      else receiveLoop reads' rerr (mess ++ r)%string
  end.

(** [Receive]: [make([]byte, bufSize)] panics for a negative size. *)
Definition Receive (reads : list string) (rerr : string) (bufSize : Z)
  : option (string * GoError) :=
  if bufSize <? 0 then None else Some (receiveLoop reads rerr ""%string).

(** ** The commit notification channel *)

(** [Stop] closes [newCommitReadyChan].  In Go a send on a closed channel
    panics, and so does a second [close].  The data fields of the module
    do not record whether the channel is closed, so the operations that
    touch the channel are given here once more with that state as a
    parameter: [closed] tells whether [Stop] has closed the channel
    before the call. *)

(** Whether a list of effects holds a send on [newCommitReadyChan]. *)
Definition sendsCommitReady (evs : list Event) : bool :=
  existsb (fun ev => match ev with EvNewCommitReady => true | _ => false end) evs.

(** [Stop] with the channel: the state becomes Dead and the channel is
    closed; [close] panics when it is closed already. *)
Definition StopChan (closed : bool) (cm : CM.t) : option (CM.t * bool) :=
  if closed then None else Some (Stop cm, true).

(** [AppendEntries] with the channel: the send that follows the update of
    [commitIndex] panics on a closed channel. *)
Definition AppendEntriesChan (closed : bool) (cm : CM.t) (now : Z)
    (dataOrder : list string) (args : AppendEntriesArgs.t) (reply : AppendEntriesReply.t)
  : option (CM.t * AppendEntriesReply.t * list Event) :=
  '(cm', reply', evs) ← AppendEntries cm now dataOrder args reply;
  if closed && sendsCommitReady evs then None else Some (cm', reply', evs).

(** The leader's handling of an AppendEntries reply with the channel: the
    send that follows a change of [commitIndex] panics on a closed
    channel. *)
Definition leaderOnAEReplyChan (closed : bool) (cm : CM.t)
    (savedCurrentTerm peerId ni : Z) (entries : list LogEntry.t)
    (reply : AppendEntriesReply.t) : option (CM.t * list Event) :=
  '(cm', evs) ← leaderOnAEReply cm savedCurrentTerm peerId ni entries reply;
  if closed && sendsCommitReady evs then None else Some (cm', evs).
(** * Specification predicates *)

(** An index qualifies for commit when its entry is of the current term
    and a majority (self plus matching peers) holds it. *)
Definition qualifies (cm : CM.t) (i : Z) : Prop :=
  (exists e, index (CM.log cm) i = Some e /\ LogEntry.Term e = CM.currentTerm cm) /\
  (1 + len (filter (fun p => i <= goGet (CM.matchIndex cm) p) (CM.peerIds cm))) * 2
    > len (CM.peerIds cm) + 1.

(** [j] is the smallest index of [log] whose entry has term [t]. *)
Definition smallestIndexOfTerm (log : list LogEntry.t) (t j : Z) : Prop :=
  (exists e, index log j = Some e /\ LogEntry.Term e = t) /\
  (forall k e, index log k = Some e -> LogEntry.Term e = t -> j <= k).

(** [j] is where the run of entries of term [t] that ends at index [p]
    begins: all of [j..p] have term [t], and [j] is 0 or the entry before
    it has another term. *)
Definition runStart (log : list LogEntry.t) (p t j : Z) : Prop :=
  0 <= j <= p /\
  (forall k, j <= k <= p -> exists e, index log k = Some e /\ LogEntry.Term e = t) /\
  (j = 0 \/ exists e, index log (j - 1) = Some e /\ LogEntry.Term e <> t).

(** Terms never decrease along the log (what Raft leaders produce). *)
Definition termsNonDecreasing (log : list LogEntry.t) : Prop :=
  forall i j a b, i <= j -> index log i = Some a -> index log j = Some b ->
                  LogEntry.Term a <= LogEntry.Term b.

(** * Concrete scenarios *)

Definition svc : Service.t := Service.mk "svc-1" "deploy".

(** An entry of term [t] at position [i], created by leader 1 for peer 2. *)
Definition entryAt (t i : Z) : LogEntry.t := LogEntry.mk svc t 1 i 2.

Definition anyOrder : list string :=
  ["Id"; "Term"; "Command"; "Leader"; "Chosen"; "VotedFor"]%string.

(** A follower (id 3) at term 3 whose log has terms 1, 2, 1. *)
Definition followerZigzag : CM.t :=
  CM.mk 3 [1; 2] 10 ∅ 3 (-1) [entryAt 1 0; entryAt 2 1; entryAt 1 2]
        (-1) (-1) Follower 0 ∅ ∅.

(** A request at term 3 whose previous entry (index 2, term 3) does not
    match the follower's entry there (term 1). *)
Definition aeMismatch : AppendEntriesArgs.t :=
  AppendEntriesArgs.mk 3 1 2 3 [] (-1) (-1).

(** A follower (id 3) at term 3 whose log has terms 1, 1, 2. *)
Definition followerSorted : CM.t :=
  CM.mk 3 [1; 2] 10 ∅ 3 (-1) [entryAt 1 0; entryAt 1 1; entryAt 2 2]
        (-1) (-1) Follower 0 ∅ ∅.

Definition aeMismatchSorted : AppendEntriesArgs.t :=
  AppendEntriesArgs.mk 3 1 1 3 [] (-1) (-1).

(** A leader (id 1) at term 2 with peers 2 and 3, one entry of term 2 in
    its log and nothing committed. *)
Definition leaderOneEntry : CM.t :=
  CM.mk 1 [2; 3] 10 {[1 := 10; 2 := 4; 3 := 4]} 2 1 [entryAt 2 0]
        (-1) (-1) Leader 0 {[2 := 0; 3 := 0]} {[2 := -1; 3 := -1]}.

Definition successReply : AppendEntriesReply.t := AppendEntriesReply.mk 2 true 0 0.

(** The condition under which a vote is granted, on the state [cm] read
    when the decision is taken and the log position [last] =
    (our last index, our last term) read on entry. *)
Definition grantCondition (cm : CM.t) (args : RequestVoteArgs.t) (last : Z * Z) : Prop :=
  RequestVoteArgs.Term args = CM.currentTerm cm /\
  (CM.votedFor cm = -1 \/ CM.votedFor cm = RequestVoteArgs.CandidateId args) /\
  (RequestVoteArgs.LastLogTerm args > last.2 \/
   (RequestVoteArgs.LastLogTerm args = last.2 /\
    RequestVoteArgs.LastLogIndex args >= last.1)).

(** A stopped node at term 1 that has not voted and has an empty log. *)
Definition deadNode : CM.t :=
  CM.mk 3 [1; 2] 10 ∅ 1 (-1) [] (-1) (-1) Dead 0 ∅ ∅.

(** The same node while it is a follower. *)
Definition idleFollower : CM.t :=
  CM.mk 3 [1; 2] 10 ∅ 1 (-1) [] (-1) (-1) Follower 0 ∅ ∅.

(** Candidate 2 asks for a vote at term 1 with an empty log and load 5. *)
Definition voteRequest : RequestVoteArgs.t := RequestVoteArgs.mk 1 2 (-1) (-1) 5.

(** A candidate (id 1) at term 4 with three peers. *)
Definition candidateThreePeers : CM.t :=
  CM.mk 1 [2; 3; 4] 10 {[1 := 10]} 4 1 [] (-1) (-1) Candidate 0 ∅ ∅.

Definition grantAtFour : RequestVoteReply.t := RequestVoteReply.mk 4 true 6.

(** The order in which [range] visits [loadLevelMap] of [leaderOneEntry]
    in the scenario, and a [rand.Intn] that answers 0. *)
Definition loadOrder123 : list (Z * Z) := [(1, 10); (2, 4); (3, 4)].
Definition intnZero (n : Z) : Z := 0.

(** [lastIndex cm] is the index [persistToStorage] reads: the last one, or
    0 for an empty log. *)
Definition lastIndex (cm : CM.t) : Z :=
  if len (CM.log cm) - 1 <? 0 then 0 else len (CM.log cm) - 1.

(** The checksum of the record handed to the store, if any. *)
Definition checksumOf (r : option (list Event)) : option Value :=
  match r with
  | Some (EvStorageSet termData :: _) => termData !! "checksum"
  | _ => None
  end.

(** The fields of a record that [restoreFromStorage] reads as strings,
    together with its position tag. *)
Definition storedFields (r : gmap string Value) : list (option Value) :=
  [r !! "Id"; r !! "Term"; r !! "Leader"; r !! "Chosen"; r !! "VotedFor"].

(** A leader (id 1) at term 5 that voted for 2 and has an empty log. *)
Definition leaderEmpty : CM.t :=
  CM.mk 1 [2; 3] 10 {[1 := 10; 2 := 4; 3 := 4]} 5 2 []
        (-1) (-1) Leader 0 {[2 := 0; 3 := 0]} {[2 := -1; 3 := -1]}.

(** Its log after two submissions. *)
Definition preCrashLog : list LogEntry.t :=
  [LogEntry.mk svc 5 1 0 2; LogEntry.mk svc 5 1 1 2].

(** The record of the entry at position [i] as the store returns it. *)
Definition storedRecord (i : Z) : gmap string Value :=
  <["VotedFor" := VStr "2"]>
  (<["Chosen" := VStr "2"]>
  (<["Leader" := VStr "1"]>
  (<["Command" := VObj [("ServiceID", VStr "svc-1"); ("Type", VStr "deploy")]]>
  (<["Term" := VStr "5"]>
  (<["Id" := VStr (hexInt i)]> ∅))))).

(** The store after the two submissions: the scalars and both records, in
    the order they were put. *)
Definition storeTwo : StoreContents :=
  {| scalars := <["VotedFor" := VStr "2"]> (<["Term" := VStr "5"]> ∅);
     records := [storedRecord 0; storedRecord 1] |}.

(** A follower at term 2 whose single entry, of term 1, has just been
    committed and not yet applied. *)
Definition committedOldTerm : CM.t :=
  CM.mk 3 [1; 2] 10 ∅ 2 (-1) [entryAt 1 0] 0 (-1) Follower 0 ∅ ∅.




(** An operation leaves [commitIndex] and [lastApplied] as they are. *)
Definition keepsCommit (cm cm' : CM.t) : Prop :=
  CM.commitIndex cm' = CM.commitIndex cm /\ CM.lastApplied cm' = CM.lastApplied cm.

(** The first request a follower at term 1 receives: one entry, already
    committed on the leader. *)
Definition aeFirst : AppendEntriesArgs.t :=
  AppendEntriesArgs.mk 1 1 (-1) (-1) [entryAt 1 0] 0 2.

(** A run of the dispatcher: turns of [commitChanSender] separated by
    arbitrary activity of the other goroutines, none of which writes
    [lastApplied].  The list collects the messages sent on the application
    channel. *)
Inductive dispatchRun : CM.t -> list CommitEntry.t -> CM.t -> Prop :=
| dispatchRun_done cm : dispatchRun cm [] cm
| dispatchRun_turn cm cm1 out cm2 outs cm3 :
    commitChanSender cm = Some (cm1, out) ->
    CM.lastApplied cm2 = CM.lastApplied cm1 ->
    dispatchRun cm2 outs cm3 ->
    dispatchRun cm (out ++ outs) cm3.

(** * Further scenarios and predicates *)

(** How many times [p] occurs in a peer list. *)
Definition occurrences (p : Z) (l : list Z) : Z :=
  len (filter (fun x => x = p) l).

(** Candidate 1 asks for the same vote at term 1. *)
Definition voteRequestOther : RequestVoteArgs.t := RequestVoteArgs.mk 1 1 (-1) (-1) 5.

(** What the loop of [minLoadLevelMap] has established after the entries
    [pre] of the load map [m]: either no peer is selected yet, every level
    seen exceeds 11 and key 0 is in the map; or the selected peers all have
    the level [low], which is the least level seen (and at most 11 when
    key 0 is in the map). *)
Definition minLoadInv (m : gmap Z Z) (pre : list (Z * Z)) (acc : list Z * Z * Z) : Prop :=
  let '(peers, last, low) := acc in
  (peers = [] /\ low = 11 /\ (forall kv, kv ∈ pre -> 11 < kv.2) /\
   ((pre = [] /\ last = 0) \/ (is_Some (m !! 0) /\ is_Some (m !! last)))) \/
  (peers <> [] /\ is_Some (m !! last) /\
   (forall p, p ∈ peers -> (p, low) ∈ pre) /\
   (forall kv, kv ∈ pre -> low <= kv.2) /\
   (is_Some (m !! 0) -> low <= 11)).

(** The concatenation of a list of buffers. *)
Definition sconcat (ws : list string) : string :=
  fold_right String.append ""%string ws.

(** The end marker does not occur anywhere in [mess]. *)
Definition noEndMarker (mess : string) : Prop :=
  String.index 0 "END" mess = None.

(** What an ideal connection delivers of [mess] when [Send] cuts it into
    buffers of [bufSize] bytes: all of it, except that a message whose
    length is a positive multiple of [bufSize] loses its last buffer. *)
Definition delivered (mess : string) (bufSize : Z) : string :=
  if (0 <? slen mess) && (slen mess mod bufSize =? 0)
  then String.substring 0 (Z.to_nat (slen mess - bufSize)) mess
  else mess.

(** A node whose load map holds key 0 and only levels above 11, with the
    order in which [range] visits it. *)
Definition overloaded : CM.t :=
  CM.mk 1 [0; 2] 10 {[0 := 12; 2 := 15]} 2 1 [] (-1) (-1) Leader 0 ∅ ∅.
Definition overloadedOrder : list (Z * Z) := [(0, 12); (2, 15)].

(** The state [AppendEntries] works on once it has dealt with the term
    and the role: a larger term is adopted, a node of the request's term
    that is not Follower becomes one, and the election timer is reset. *)
Definition aeEnter (cm : CM.t) (now : Z) (args : AppendEntriesArgs.t) : CM.t :=
  let cm := if AppendEntriesArgs.Term args >? CM.currentTerm cm
            then becomeFollower cm (AppendEntriesArgs.Term args) else cm in
  let cm := if negb (CMState_eqb (CM.state cm) Follower)
            then becomeFollower cm (AppendEntriesArgs.Term args) else cm in
  CM.set_electionResetEvent now cm.

(** The records handed to [cm.storage.Set] in a list of effects. *)
Definition storeWrites (evs : list Event) : list (gmap string Value) :=
  flat_map (fun ev => match ev with EvStorageSet r => [r] | _ => [] end) evs.

(** The command of a record as the decoder of the store hands it back: an
    object with the two fields [restoreFromStorage] reads. *)
Definition commandObject (c : Service.t) : Value :=
  VObj [("ServiceID"%string, VStr (Service.ServiceID c));
        ("Type"%string, VStr (Service.SType c))].

(** A first request that carries two entries of term 1. *)
Definition aeTwoEntries : AppendEntriesArgs.t :=
  AppendEntriesArgs.mk 1 1 (-1) (-1) [entryAt 1 0; entryAt 1 1] 0 2.

(** The log position [(index, term)] [a] is at least as up to date as
    [b], as [RequestVote] compares them. *)
Definition upToDate (a b : Z * Z) : Prop :=
  a.2 > b.2 \/ (a.2 = b.2 /\ a.1 >= b.1).

(** A follower (id 1) at term 1 with an empty log and load level 7. *)
Definition peerOne : CM.t :=
  CM.mk 1 [2; 3] 7 ∅ 1 (-1) [] (-1) (-1) Follower 0 ∅ ∅.

(** A leader (id 1) at term 2 with two entries, which believes that its
    peers hold both. *)
Definition leaderAhead : CM.t :=
  CM.mk 1 [2; 3] 10 ∅ 2 1 [entryAt 1 0; entryAt 2 1] (-1) (-1) Leader 0
        {[2 := 2; 3 := 2]} {[2 := -1; 3 := -1]}.

(** A record that the loop of [restoreFromStorage] can read: the three
    numbers are held as strings (of whatever content) and the command is
    an object with the two string fields. *)
Definition wellFormedRecord (r : gmap string Value) : Prop :=
  exists t l c cmd sid ty,
    r !! "Term" = Some (VStr t) /\ r !! "Leader" = Some (VStr l) /\
    r !! "Chosen" = Some (VStr c) /\ r !! "Command" = Some (VObj cmd) /\
    objGet cmd "ServiceID" = Some (VStr sid) /\ objGet cmd "Type" = Some (VStr ty).

(** A store [restoreFromStorage] can read: both scalars are there, as
    strings, and every record is well formed. *)
Definition wellFormedStore {S : Type} `{!Storage S} (st : S) : Prop :=
  (exists t, Get st "Term" = Some (VStr t)) /\
  (exists v, Get st "VotedFor" = Some (VStr v)) /\
  Forall wellFormedRecord (GetLog st).

(** A candidate (id 1) at term 4 whose peer list holds one peer, and the
    refusal of that peer at the same term. *)
Definition candidateOnePeer : CM.t :=
  CM.mk 1 [2] 10 {[1 := 10]} 4 1 [] (-1) (-1) Candidate 0 ∅ ∅.
Definition refusalAtFour : RequestVoteReply.t := RequestVoteReply.mk 4 false 0.

(** Every read fits the buffer [Receive] reads into. *)
Definition readsFit (reads : list string) (bufSize : Z) : Prop :=
  forall r, r ∈ reads -> slen r <= bufSize.

(** The node [idleFollower] after it has started an election: a Candidate
    at term 2 that has voted for itself. *)
Definition selfVoted : CM.t :=
  CM.mk 3 [1; 2] 10 {[3 := 10]} 2 3 [] (-1) (-1) Candidate 0 ∅ ∅.

(** A heartbeat of leader 1 at term 2, and the vote request of candidate 2
    at the same term. *)
Definition heartbeatTermTwo : AppendEntriesArgs.t :=
  AppendEntriesArgs.mk 2 1 (-1) (-1) [] (-1) (-1).
Definition voteRequestTermTwo : RequestVoteArgs.t := RequestVoteArgs.mk 2 2 (-1) (-1) 5.

(** A refusal at term 2 that was produced for a longer log: it hints at
    index 3 and names no conflicting term. *)
Definition staleRefusal : AppendEntriesReply.t := AppendEntriesReply.mk 2 false 3 (-1).

(** A request of term 2 with one entry that the leader holds as
    committed already. *)
Definition aeRaisesCommit : AppendEntriesArgs.t :=
  AppendEntriesArgs.mk 2 1 (-1) (-1) [entryAt 2 0] 0 2.
(** ** Properties of the Go primitives *)

Lemma CMState_eqb_eq a b : CMState_eqb a b = true <-> a = b.
Proof. destruct a, b; simpl; split; congruence. Qed.

Lemma index_Some {A} (s : list A) (i : Z) (x : A) :
  index s i = Some x <-> 0 <= i /\ s !! Z.to_nat i = Some x.
Proof.
  unfold index. destruct (Z.ltb_spec i 0); split.
  - discriminate.
  - intros [? _]. lia.
  - intros. split; [lia | assumption].
  - intros [_ ?]. assumption.
Qed.

Lemma index_in_range {A} (s : list A) (i : Z) :
  0 <= i < len s -> exists x, index s i = Some x.
Proof.
  intros [H0 H1]. unfold len in H1.
  destruct (lookup_lt_is_Some_2 s (Z.to_nat i)) as [x Hx]; [lia |].
  exists x. apply index_Some. split; [lia | assumption].
Qed.

Lemma index_is_Some_range {A} (s : list A) (i : Z) (x : A) :
  index s i = Some x -> 0 <= i < len s.
Proof.
  intros H. apply index_Some in H as [H0 H1].
  apply lookup_lt_Some in H1. unfold len. lia.
Qed.

(** ** Leader commit recomputation *)

(** The closed form of the counting loop. *)
Lemma count_fold (m : gmap Z Z) (i : Z) (ps : list Z) : forall c,
  fold_left (fun c p => if goGet m p >=? i then c + 1 else c) ps c =
  c + len (filter (fun p => i <= goGet m p) ps).
Proof.
  unfold len. induction ps as [|p ps IH]; intros c; simpl.
  - lia.
  - rewrite IH, filter_cons.
    destruct (Z.geb_spec (goGet m p) i); destruct (decide (i <= goGet m p));
      simpl; lia.
Qed.

Lemma matchCount_filter (cm : CM.t) (i : Z) :
  matchCount cm i =
  1 + len (filter (fun p => i <= goGet (CM.matchIndex cm) p) (CM.peerIds cm)).
Proof. apply count_fold. Qed.

Lemma set_commitIndex_twice a b cm :
  CM.set_commitIndex a (CM.set_commitIndex b cm) = CM.set_commitIndex a cm.
Proof. reflexivity. Qed.

Lemma set_commitIndex_same cm : CM.set_commitIndex (CM.commitIndex cm) cm = cm.
Proof. destruct cm; reflexivity. Qed.

Lemma qualifies_set_commitIndex c cm i :
  qualifies (CM.set_commitIndex c cm) i <-> qualifies cm i.
Proof. reflexivity. Qed.

Lemma advanceStep_spec (cm : CM.t) (i : Z) :
  0 <= i < len (CM.log cm) ->
  exists c, advanceStep cm i = Some (CM.set_commitIndex c cm) /\
            ((c = i /\ qualifies cm i) \/ (c = CM.commitIndex cm /\ ~ qualifies cm i)).
Proof.
  intros Hi. destruct (index_in_range _ _ Hi) as [e He].
  unfold advanceStep. rewrite He. simpl.
  destruct (Z.eqb_spec (LogEntry.Term e) (CM.currentTerm cm)) as [Ht|Ht].
  - destruct (Z.gtb_spec (matchCount cm i * 2) (len (CM.peerIds cm) + 1)) as [Hm|Hm].
    + exists i. split; [reflexivity | left]. split; [reflexivity |].
      split; [eauto |]. rewrite <- matchCount_filter. lia.
    + exists (CM.commitIndex cm). rewrite set_commitIndex_same.
      split; [reflexivity | right]. split; [reflexivity |].
      intros [_ Hq]. rewrite <- matchCount_filter in Hq. lia.
  - exists (CM.commitIndex cm). rewrite set_commitIndex_same.
    split; [reflexivity | right]. split; [reflexivity |].
    intros [[e' [He' Ht']] _]. congruence.
Qed.

Lemma advanceLoop_spec (n : nat) : forall (i : Z) (cm : CM.t),
  0 <= i -> i + Z.of_nat n = len (CM.log cm) ->
  exists c, advanceLoop n i cm = Some (CM.set_commitIndex c cm) /\
            (c = CM.commitIndex cm \/ (i <= c < len (CM.log cm) /\ qualifies cm c)) /\
            (forall j, i <= j < len (CM.log cm) -> qualifies cm j -> j <= c).
Proof.
  induction n as [|n IH]; intros i cm Hi Hn.
  - exists (CM.commitIndex cm). simpl. rewrite set_commitIndex_same.
    split; [reflexivity |]. split; [left; reflexivity | intros; lia].
  - destruct (advanceStep_spec cm i) as [c1 [Hs Hc1]]; [lia |].
    simpl. rewrite Hs. simpl.
    destruct (IH (i + 1) (CM.set_commitIndex c1 cm)) as [c [Hl [Hc Hmax]]];
      [lia | simpl; lia |].
    exists c. rewrite Hl, set_commitIndex_twice. split; [reflexivity |].
    simpl in Hc, Hmax. split.
    + destruct Hc as [-> | [Hr Hq]].
      * destruct Hc1 as [[-> Hq] | [-> _]]; [right | left; reflexivity].
        split; [lia | assumption].
      * right. split; [lia | assumption].
    + intros j Hj Hq. destruct (Z.eq_dec j i) as [-> | Hne].
      * destruct Hc1 as [[-> _] | [_ Hnq]]; [| contradiction].
        destruct Hc as [-> | [Hr _]]; lia.
      * apply Hmax; [lia | assumption].
Qed.

Lemma advanceCommitIndex_spec (cm : CM.t) :
  -1 <= CM.commitIndex cm ->
  exists c, advanceCommitIndex cm = Some (CM.set_commitIndex c cm) /\
            (c = CM.commitIndex cm \/
             (CM.commitIndex cm < c < len (CM.log cm) /\ qualifies cm c)) /\
            (forall j, CM.commitIndex cm < j < len (CM.log cm) -> qualifies cm j -> j <= c).
Proof.
  intros Hc. unfold advanceCommitIndex.
  destruct (Z.le_gt_cases (len (CM.log cm)) (CM.commitIndex cm + 1)) as [Hle|Hgt].
  - replace (Z.to_nat _) with O by lia. simpl.
    exists (CM.commitIndex cm). rewrite set_commitIndex_same.
    split; [reflexivity |]. split; [left; reflexivity | intros; lia].
  - destruct (advanceLoop_spec (Z.to_nat (len (CM.log cm) - (CM.commitIndex cm + 1)))
                (CM.commitIndex cm + 1) cm) as [c [Hl [H1 H2]]]; [lia | lia |].
    exists c. split; [exact Hl |]. split.
    + destruct H1 as [-> | [Hr Hq]]; [left; reflexivity | right].
      split; [lia | assumption].
    + intros j Hj. apply H2. lia.
Qed.

(** C1.  On a successful AppendEntries reply accepted by a leader, the
    per-peer progress is recorded and [commitIndex] is recomputed by the
    majority rule: among the indices strictly above the old [commitIndex]
    and below the log length whose entry is of [currentTerm] and for which
    twice (1 + the number of peers with [matchIndex] at least the index)
    exceeds [len(peerIds) + 1], the largest becomes [commitIndex]; with no
    such index [commitIndex] is unchanged.  In particular [commitIndex]
    only moves to an entry of [currentTerm]. *)
Theorem leader_commit_majority_rule
    (cm : CM.t) (savedCurrentTerm peerId ni : Z)
    (entries : list LogEntry.t) (reply : AppendEntriesReply.t) :
  CM.state cm = Leader ->
  AppendEntriesReply.Term reply <= CM.currentTerm cm ->
  savedCurrentTerm = AppendEntriesReply.Term reply ->
  AppendEntriesReply.Success reply = true ->
  -1 <= CM.commitIndex cm ->
  exists cm' evs,
    leaderOnAEReply cm savedCurrentTerm peerId ni entries reply = Some (cm', evs) /\
    CM.nextIndex cm' = <[peerId := wrapInt (ni + len entries)]> (CM.nextIndex cm) /\
    CM.matchIndex cm' =
      <[peerId := wrapInt (wrapInt (ni + len entries) - 1)]> (CM.matchIndex cm) /\
    CM.log cm' = CM.log cm /\
    CM.currentTerm cm' = CM.currentTerm cm /\
    CM.peerIds cm' = CM.peerIds cm /\
    (forall i, CM.commitIndex cm < i < len (CM.log cm) ->
               qualifies cm' i -> i <= CM.commitIndex cm') /\
    (CM.commitIndex cm' = CM.commitIndex cm \/
     (CM.commitIndex cm < CM.commitIndex cm' < len (CM.log cm) /\
      qualifies cm' (CM.commitIndex cm'))) /\
    (CM.commitIndex cm' <> CM.commitIndex cm ->
     exists e, index (CM.log cm) (CM.commitIndex cm') = Some e /\
               LogEntry.Term e = CM.currentTerm cm).
Proof.
  intros Hst Hterm Hsaved Hsucc Hci.
  unfold leaderOnAEReply.
  destruct (Z.gtb_spec (AppendEntriesReply.Term reply) (CM.currentTerm cm)); [lia |].
  rewrite Hst. simpl. rewrite (proj2 (Z.eqb_eq _ _) Hsaved), Hsucc.
  set (cm2 := CM.set_matchIndex _ _).
  destruct (advanceCommitIndex_spec cm2 Hci) as [c [Hadv [Hc Hmax]]].
  rewrite Hadv. simpl.
  assert (Hm : CM.matchIndex cm2 =
               <[peerId := wrapInt (wrapInt (ni + len entries) - 1)]> (CM.matchIndex cm)).
  { subst cm2. simpl. unfold goGet. rewrite lookup_insert_eq. reflexivity. }
  assert (Hres : exists evs,
             (if negb (c =? CM.commitIndex cm)
              then Some (CM.set_commitIndex c cm2, [EvNewCommitReady; EvTriggerAE])
              else Some (CM.set_commitIndex c cm2, []))
             = Some (CM.set_commitIndex c cm2, evs)).
  { destruct (negb (c =? CM.commitIndex cm)); eauto. }
  destruct Hres as [evs Hres].
  exists (CM.set_commitIndex c cm2), evs.
  split; [exact Hres |]. simpl.
  split; [reflexivity |]. split; [exact Hm |].
  split; [reflexivity |]. split; [reflexivity |]. split; [reflexivity |].
  split; [| split].
  - intros i Hi Hq. apply Hmax; [exact Hi |].
    apply (qualifies_set_commitIndex c cm2 i). exact Hq.
  - destruct Hc as [-> | [Hr Hq]]; [left; reflexivity | right].
    split; [exact Hr |]. apply (qualifies_set_commitIndex c cm2 c). exact Hq.
  - intros Hne. destruct Hc as [-> | [_ [He _]]]; [contradiction | exact He].
Qed.

Lemma leader_commit_majority_rule_witness :
  (CM.state leaderOneEntry = Leader /\
   AppendEntriesReply.Term successReply <= CM.currentTerm leaderOneEntry /\
   2 = AppendEntriesReply.Term successReply /\
   AppendEntriesReply.Success successReply = true /\
   -1 <= CM.commitIndex leaderOneEntry) /\
  exists cm' evs,
    leaderOnAEReply leaderOneEntry 2 2 0 [entryAt 2 0] successReply = Some (cm', evs) /\
    CM.commitIndex cm' = 0.
Proof.
  assert (H1 : CM.state leaderOneEntry = Leader) by reflexivity.
  assert (H2 : AppendEntriesReply.Term successReply <= CM.currentTerm leaderOneEntry)
    by (simpl; lia).
  assert (H3 : 2 = AppendEntriesReply.Term successReply) by reflexivity.
  assert (H4 : AppendEntriesReply.Success successReply = true) by reflexivity.
  assert (H5 : -1 <= CM.commitIndex leaderOneEntry) by (simpl; lia).
  split; [auto |].
  destruct (leader_commit_majority_rule leaderOneEntry 2 2 0 [entryAt 2 0]
              successReply H1 H2 H3 H4 H5) as [cm' [evs [Hr _]]].
  exists cm', evs. split; [exact Hr |].
  vm_compute in Hr. injection Hr as <- _. reflexivity.
Defined.

(** ** AppendEntries: conflict hints *)

Lemma scanBack_spec (log : list LogEntry.t) (t : Z) (n : nat) :
  (n <= length log)%nat ->
  exists i, scanBack log n t = Some i /\ -1 <= i < Z.of_nat n /\
            (forall k, i < k < Z.of_nat n ->
                       exists e, index log k = Some e /\ LogEntry.Term e = t) /\
            (i = -1 \/ exists e, index log i = Some e /\ LogEntry.Term e <> t).
Proof.
  induction n as [|n IH]; intros Hn.
  - exists (-1). simpl. split; [reflexivity |]. split; [lia |].
    split; [intros; lia | left; reflexivity].
  - destruct (index_in_range log (Z.of_nat n)) as [e He]; [unfold len; lia |].
    simpl. rewrite He. simpl.
    destruct (Z.eqb_spec (LogEntry.Term e) t) as [Ht|Ht]; simpl.
    + destruct IH as [i [Hs [Hr [Hrun Hstop]]]]; [lia |].
      exists i. split; [exact Hs |]. split; [lia |]. split; [| exact Hstop].
      intros k Hk. destruct (Z.eq_dec k (Z.of_nat n)) as [-> | Hne].
      * eauto.
      * apply Hrun. lia.
    + exists (Z.of_nat n). split; [reflexivity |]. split; [lia |].
      split; [intros; lia | right; eauto].
Qed.

Lemma prevMatches_log (cm cm' : CM.t) (args : AppendEntriesArgs.t) :
  CM.log cm' = CM.log cm -> prevMatches cm' args = prevMatches cm args.
Proof. intros H. unfold prevMatches. rewrite H. reflexivity. Qed.

Lemma prevMatches_false (cm : CM.t) (args : AppendEntriesArgs.t) :
  prevMatches cm args = Some false ->
  len (CM.log cm) <= AppendEntriesArgs.PrevLogIndex args \/
  (0 <= AppendEntriesArgs.PrevLogIndex args < len (CM.log cm) /\
   exists e, index (CM.log cm) (AppendEntriesArgs.PrevLogIndex args) = Some e /\
             LogEntry.Term e <> AppendEntriesArgs.PrevLogTerm args).
Proof.
  unfold prevMatches.
  destruct (Z.eqb_spec (AppendEntriesArgs.PrevLogIndex args) (-1)); [discriminate |].
  destruct (Z.ltb_spec (AppendEntriesArgs.PrevLogIndex args) (len (CM.log cm)));
    [| intros _; left; lia].
  destruct (index (CM.log cm) (AppendEntriesArgs.PrevLogIndex args)) as [e|] eqn:He;
    simpl; [| discriminate].
  intros Hres. right. pose proof (index_is_Some_range _ _ _ He).
  split; [lia |]. exists e. split; [reflexivity |].
  injection Hres as Hneq. apply Z.eqb_neq in Hneq. congruence.
Qed.

Lemma conflictHints_spec (cm : CM.t) (args : AppendEntriesArgs.t) :
  let p := AppendEntriesArgs.PrevLogIndex args in
  (len (CM.log cm) <= p -> conflictHints cm args = Some (len (CM.log cm), -1)) /\
  (0 <= p < len (CM.log cm) ->
   exists e j, index (CM.log cm) p = Some e /\
               conflictHints cm args = Some (j, LogEntry.Term e) /\
               runStart (CM.log cm) p (LogEntry.Term e) j).
Proof.
  intros p. unfold conflictHints. fold p. split.
  - intros H. destruct (Z.geb_spec p (len (CM.log cm))); [reflexivity | lia].
  - intros H. destruct (Z.geb_spec p (len (CM.log cm))); [lia |].
    destruct (index_in_range _ _ H) as [e He]. rewrite He. simpl.
    destruct (scanBack_spec (CM.log cm) (LogEntry.Term e) (Z.to_nat p))
      as [i [Hs [Hr [Hrun Hstop]]]]; [unfold len in H; lia |].
    rewrite Hs. simpl. exists e, (i + 1).
    split; [reflexivity |]. split; [reflexivity |].
    split; [lia |]. split.
    + intros k Hk. destruct (Z.eq_dec k p) as [-> | Hne]; [eauto |].
      apply Hrun. lia.
    + destruct Hstop as [-> | Hstop]; [left; reflexivity | right].
      replace (i + 1 - 1) with i by lia. exact Hstop.
Qed.

Lemma runStart_smallest (log : list LogEntry.t) (p t j : Z) :
  termsNonDecreasing log -> runStart log p t j -> smallestIndexOfTerm log t j.
Proof.
  intros Hmono [Hj [Hrun Hstop]]. split.
  - apply Hrun. lia.
  - intros k e He Ht.
    destruct (Z.le_gt_cases j k) as [|Hlt]; [assumption | exfalso].
    destruct Hstop as [-> | [e' [He' Hne]]].
    + apply index_is_Some_range in He. lia.
    + destruct (Hrun j) as [ej [Hej Htj]]; [lia |].
      pose proof (Hmono k (j - 1) e e' ltac:(lia) He He').
      pose proof (Hmono (j - 1) j e' ej ltac:(lia) He' Hej).
      lia.
Qed.

Lemma conflictHints_log (cm cm' : CM.t) (args : AppendEntriesArgs.t) :
  CM.log cm' = CM.log cm -> conflictHints cm' args = conflictHints cm args.
Proof. intros H. unfold conflictHints. rewrite H. reflexivity. Qed.

Lemma CMState_eqb_neq a b : CMState_eqb a b = false <-> a <> b.
Proof. destruct a, b; simpl; split; congruence. Qed.

(** C2 (amended).  On a node that is not Dead, when a request of the
    current term fails the previous-entry test, the reply is a failure and
    the log is untouched; if [PrevLogIndex] is at or beyond the log length
    the hints are [(len(log), -1)]; otherwise [ConflictTerm] is the term of
    the local entry at [PrevLogIndex] and [ConflictIndex] is the start of
    the run of entries of that term ending at [PrevLogIndex], which is the
    smallest index holding that term whenever the terms of the log never
    decrease. *)
Theorem conflict_hints_run_start
    (cm : CM.t) (now : Z) (order : list string)
    (args : AppendEntriesArgs.t) (reply0 : AppendEntriesReply.t) :
  CM.state cm <> Dead ->
  AppendEntriesArgs.Term args = CM.currentTerm cm ->
  prevMatches cm args = Some false ->
  exists cm' reply,
    AppendEntries cm now order args reply0 = Some (cm', reply, []) /\
    AppendEntriesReply.Success reply = false /\
    AppendEntriesReply.Term reply = CM.currentTerm cm /\
    CM.log cm' = CM.log cm /\
    (len (CM.log cm) <= AppendEntriesArgs.PrevLogIndex args ->
     AppendEntriesReply.ConflictIndex reply = len (CM.log cm) /\
     AppendEntriesReply.ConflictTerm reply = -1) /\
    (AppendEntriesArgs.PrevLogIndex args < len (CM.log cm) ->
     exists e,
       index (CM.log cm) (AppendEntriesArgs.PrevLogIndex args) = Some e /\
       AppendEntriesReply.ConflictTerm reply = LogEntry.Term e /\
       runStart (CM.log cm) (AppendEntriesArgs.PrevLogIndex args) (LogEntry.Term e)
                (AppendEntriesReply.ConflictIndex reply) /\
       (termsNonDecreasing (CM.log cm) ->
        smallestIndexOfTerm (CM.log cm) (LogEntry.Term e)
                            (AppendEntriesReply.ConflictIndex reply))).
Proof.
  intros Hst Hterm Hprev.
  unfold AppendEntries.
  rewrite (proj2 (CMState_eqb_neq _ _) Hst).
  destruct (Z.gtb_spec (AppendEntriesArgs.Term args) (CM.currentTerm cm)); [lia |].
  rewrite (proj2 (Z.eqb_eq _ _) Hterm).
  set (cm2 := if negb (CMState_eqb (CM.state cm) Follower)
              then becomeFollower cm (AppendEntriesArgs.Term args) else cm).
  set (cm3 := CM.set_electionResetEvent now cm2).
  assert (Hlog : CM.log cm3 = CM.log cm).
  { subst cm3 cm2. destruct (negb _); reflexivity. }
  assert (Hct : CM.currentTerm cm3 = CM.currentTerm cm).
  { subst cm3 cm2. destruct (negb _); simpl; congruence. }
  rewrite (prevMatches_log cm cm3 args Hlog), Hprev. simpl.
  rewrite (conflictHints_log cm cm3 args Hlog).
  destruct (conflictHints_spec cm args) as [Hbeyond Hwithin].
  destruct (prevMatches_false cm args Hprev) as [Hge | [Hin _]].
  - rewrite (Hbeyond Hge). simpl.
    eexists _, _. split; [reflexivity |]. simpl.
    split; [reflexivity |]. split; [exact Hct |]. split; [exact Hlog |].
    split; [intros _; split; reflexivity | intros; lia].
  - destruct (Hwithin Hin) as [e [j [He [Hh Hrun]]]]. rewrite Hh. simpl.
    eexists _, _. split; [reflexivity |]. simpl.
    split; [reflexivity |]. split; [exact Hct |]. split; [exact Hlog |].
    split; [intros; lia |]. intros _. exists e.
    split; [exact He |]. split; [reflexivity |]. split; [exact Hrun |].
    intros Hmono. exact (runStart_smallest _ _ _ _ Hmono Hrun).
Qed.

Lemma conflict_hints_run_start_witness :
  (CM.state followerSorted <> Dead /\
   AppendEntriesArgs.Term aeMismatchSorted = CM.currentTerm followerSorted /\
   prevMatches followerSorted aeMismatchSorted = Some false) /\
  exists cm' reply,
    AppendEntries followerSorted 0 anyOrder aeMismatchSorted AppendEntriesReply.zero
      = Some (cm', reply, []) /\
    AppendEntriesReply.Success reply = false.
Proof.
  assert (H1 : CM.state followerSorted <> Dead) by discriminate.
  assert (H2 : AppendEntriesArgs.Term aeMismatchSorted = CM.currentTerm followerSorted)
    by reflexivity.
  assert (H3 : prevMatches followerSorted aeMismatchSorted = Some false)
    by reflexivity.
  split; [auto |].
  destruct (conflict_hints_run_start followerSorted 0 anyOrder aeMismatchSorted
              AppendEntriesReply.zero H1 H2 H3) as [cm' [reply [Hr [Hs _]]]].
  exists cm', reply. split; assumption.
Defined.

(** C2, as stated, fails: the log of [followerZigzag] has terms 1, 2, 1; the
    request's previous entry is at index 2, so the handler answers
    [ConflictTerm = 1] and [ConflictIndex = 2], while index 0 also holds
    term 1. *)
Lemma conflict_index_not_smallest :
  exists cm' reply,
    AppendEntries followerZigzag 0 anyOrder aeMismatch AppendEntriesReply.zero
      = Some (cm', reply, []) /\
    AppendEntriesArgs.Term aeMismatch = CM.currentTerm followerZigzag /\
    prevMatches followerZigzag aeMismatch = Some false /\
    AppendEntriesReply.Success reply = false /\
    AppendEntriesReply.ConflictTerm reply = 1 /\
    AppendEntriesReply.ConflictIndex reply = 2 /\
    ~ smallestIndexOfTerm (CM.log followerZigzag) 1 2.
Proof.
  eexists _, _. split; [reflexivity |].
  repeat (split; [reflexivity |]).
  intros [_ Hmin].
  specialize (Hmin 0 (entryAt 1 0) eq_refl eq_refl). lia.
Qed.

(** ** RequestVote *)

Lemma lastLogIndexAndTerm_spec (cm : CM.t) :
  exists last, lastLogIndexAndTerm cm = Some last /\
    ((CM.log cm = [] /\ last = (-1, -1)) \/
     (exists e, index (CM.log cm) (len (CM.log cm) - 1) = Some e /\
                last = (len (CM.log cm) - 1, LogEntry.Term e))).
Proof.
  unfold lastLogIndexAndTerm.
  destruct (Z.gtb_spec (len (CM.log cm)) 0) as [Hpos|Hzero].
  - destruct (index_in_range (CM.log cm) (len (CM.log cm) - 1)) as [e He]; [lia |].
    rewrite He. simpl. eexists. split; [reflexivity | right; eauto].
  - eexists. split; [reflexivity | left]. split; [| reflexivity].
    unfold len in Hzero. destruct (CM.log cm); [reflexivity | simpl in Hzero; lia].
Qed.

Lemma RequestVote_decide_spec (cm : CM.t) (now : Z) (args : RequestVoteArgs.t)
    (last : Z * Z) (reply0 : RequestVoteReply.t) :
  RequestVoteArgs.LoadLevel args <> 0 ->
  exists cm' reply,
    RequestVote_decide cm now args last reply0 = Some (cm', reply) /\
    (RequestVoteReply.VoteGranted reply = true <-> grantCondition cm args last) /\
    RequestVoteReply.Term reply = CM.currentTerm cm /\
    (RequestVoteReply.VoteGranted reply = true ->
     cm' = CM.set_electionResetEvent now
             (CM.set_votedFor (RequestVoteArgs.CandidateId args) cm) /\
     RequestVoteReply.LoadLevel reply = CM.loadLevel cm) /\
    (RequestVoteReply.VoteGranted reply = false -> cm' = cm).
Proof.
  intros Hload. unfold RequestVote_decide. destruct last as [li lt].
  match goal with |- context [if ?b then _ else _] => set (cond := b) end.
  assert (Hcond : cond = true <-> grantCondition cm args (li, lt)).
  { subst cond. unfold grantCondition. simpl.
    rewrite !andb_true_iff, !orb_true_iff, !andb_true_iff, !Z.eqb_eq,
      Z.gtb_gt, Z.geb_ge.
    intuition lia. }
  destruct cond.
  - rewrite (proj2 (Z.eqb_neq _ _) Hload).
    eexists _, _. split; [reflexivity |]. simpl.
    split; [split; [intros _; apply Hcond; reflexivity | reflexivity] |].
    split; [reflexivity |]. split; [intros _; split; reflexivity | discriminate].
  - eexists _, _. split; [reflexivity |]. simpl.
    split; [split; [discriminate | intros Hg; apply Hcond in Hg; discriminate] |].
    split; [reflexivity |]. split; [discriminate | reflexivity].
Qed.

(** C3 (amended).  On a node that is not Dead, and for a request whose
    load level is not zero, the handler first adopts a newer term (which
    clears the vote), then grants exactly when the request's term equals
    the current term, no vote or a vote for this candidate is recorded, and
    the candidate's log is at least as up to date as the local one; a
    grant records the candidate in [votedFor] and carries the node's own
    load level; every reply carries the current term. *)
Theorem request_vote_grant_iff
    (cm : CM.t) (now : Z) (args : RequestVoteArgs.t) (reply0 : RequestVoteReply.t) :
  CM.state cm <> Dead ->
  RequestVoteArgs.LoadLevel args <> 0 ->
  exists cm1 last cm' reply evs,
    RequestVote cm now args reply0 = Some (cm', reply, evs) /\
    lastLogIndexAndTerm cm = Some last /\
    cm1 = (if RequestVoteArgs.Term args >? CM.currentTerm cm
           then becomeFollower cm (RequestVoteArgs.Term args) else cm) /\
    (RequestVoteReply.VoteGranted reply = true <-> grantCondition cm1 args last) /\
    RequestVoteReply.Term reply = CM.currentTerm cm1 /\
    (RequestVoteReply.VoteGranted reply = true ->
     CM.votedFor cm' = RequestVoteArgs.CandidateId args /\
     RequestVoteReply.LoadLevel reply = CM.loadLevel cm) /\
    (RequestVoteReply.VoteGranted reply = false -> cm' = cm1).
Proof.
  intros Hst Hload. unfold RequestVote, RequestVote_enter.
  rewrite (proj2 (CMState_eqb_neq _ _) Hst).
  destruct (lastLogIndexAndTerm_spec cm) as [last [Hlast _]].
  rewrite Hlast. simpl.
  set (cm1 := if RequestVoteArgs.Term args >? CM.currentTerm cm
              then becomeFollower cm (RequestVoteArgs.Term args) else cm).
  assert (Hdelay : exists evs,
            (if negb (CMState_eqb (CM.state cm1) Candidate)
             then runVoteDelay (RequestVoteArgs.LoadLevel args)
             else Some []) = Some evs).
  { unfold runVoteDelay. rewrite (proj2 (Z.eqb_neq _ _) Hload).
    destruct (negb _); eauto. }
  destruct Hdelay as [evs ->]. simpl.
  destruct (RequestVote_decide_spec cm1 now args last reply0 Hload)
    as [cm' [reply [Hd [Hiff [Hterm [Hgrant Hdeny]]]]]].
  rewrite Hd. simpl.
  exists cm1, last, cm', reply, evs.
  split; [reflexivity |]. split; [reflexivity |]. split; [reflexivity |].
  split; [exact Hiff |]. split; [exact Hterm |]. split; [| exact Hdeny].
  intros Hg. destruct (Hgrant Hg) as [-> Hl]. split; [reflexivity |].
  rewrite Hl. subst cm1. destruct (_ >? _); reflexivity.
Qed.

Lemma request_vote_grant_iff_witness :
  (CM.state idleFollower <> Dead /\ RequestVoteArgs.LoadLevel voteRequest <> 0) /\
  exists cm' reply evs,
    RequestVote idleFollower 7 voteRequest RequestVoteReply.zero
      = Some (cm', reply, evs) /\
    RequestVoteReply.VoteGranted reply = true.
Proof.
  assert (H1 : CM.state idleFollower <> Dead) by discriminate.
  assert (H2 : RequestVoteArgs.LoadLevel voteRequest <> 0) by (simpl; lia).
  split; [auto |].
  destruct (request_vote_grant_iff idleFollower 7 voteRequest RequestVoteReply.zero
              H1 H2) as [cm1 [last [cm' [reply [evs [Hr _]]]]]].
  exists cm', reply, evs. split; [exact Hr |].
  vm_compute in Hr. injection Hr as _ <- _. reflexivity.
Defined.

(** C3, as stated, fails on a stopped node: [deadNode] is at the term of
    the request, has not voted and has an empty log, so the three
    conditions hold, yet the handler returns at once and the reply keeps
    [VoteGranted = false]. *)
Lemma dead_node_never_grants :
  RequestVote deadNode 7 voteRequest RequestVoteReply.zero
    = Some (deadNode, RequestVoteReply.zero, []) /\
  RequestVoteReply.VoteGranted RequestVoteReply.zero = false /\
  lastLogIndexAndTerm deadNode = Some (-1, -1) /\
  grantCondition deadNode voteRequest (-1, -1).
Proof.
  split; [reflexivity |]. split; [reflexivity |]. split; [reflexivity |].
  unfold grantCondition. simpl. lia.
Qed.

(** ** Election tally *)

Lemma initLeaderIndexes_state (cm : CM.t) :
  CM.state (initLeaderIndexes cm) = CM.state cm.
Proof.
  unfold initLeaderIndexes.
  generalize (CM.peerIds cm). intros ps. revert cm.
  induction ps as [|p ps IH]; intros cm; simpl; [reflexivity |].
  rewrite IH. reflexivity.
Qed.

Lemma StartElection_votes (cm : CM.t) (now : Z) :
  exists cm', StartElection cm now = (cm', wrapInt (CM.currentTerm cm + 1), 1) /\
              CM.state cm' = Candidate /\
              CM.currentTerm cm' = wrapInt (CM.currentTerm cm + 1) /\
              CM.votedFor cm' = CM.id cm /\
              CM.peerIds cm' = CM.peerIds cm.
Proof. eexists. split; [reflexivity |]. repeat split. Qed.

(** C4 (amended).  An election starts with [votesReceived = 1], the
    candidate's own vote.  When a node that is still Candidate handles a reply carrying its
    saved term, a granted vote adds one to the tally and the node becomes
    Leader exactly when the vote is granted and twice the new tally exceeds
    [len(peerIds)], the length of the peer list (which does not hold the
    node itself); otherwise it stays Candidate with the tally unchanged by
    a refusal. *)
Theorem candidate_wins_on_majority_of_peers
    (cm : CM.t) (savedCurrentTerm votesReceived peerId : Z)
    (reply : RequestVoteReply.t) :
  CM.state cm = Candidate ->
  RequestVoteReply.Term reply = savedCurrentTerm ->
  exists cm' votes' evs,
    onVoteReply cm savedCurrentTerm votesReceived peerId reply = (cm', votes', evs) /\
    votes' = (if RequestVoteReply.VoteGranted reply
              then votesReceived + 1 else votesReceived) /\
    (CM.state cm' = Leader <->
     RequestVoteReply.VoteGranted reply = true /\
     votes' * 2 > len (CM.peerIds cm)) /\
    (CM.state cm' = Leader \/ CM.state cm' = Candidate) /\
    (forall cm0 now, (StartElection cm0 now).2 = 1).
Proof.
  intros Hst Hterm. unfold onVoteReply. simpl. rewrite Hst. simpl.
  destruct (Z.gtb_spec (RequestVoteReply.Term reply) savedCurrentTerm); [lia |].
  rewrite (proj2 (Z.eqb_eq _ _) Hterm).
  destruct (RequestVoteReply.VoteGranted reply).
  - destruct (Z.gtb_spec ((votesReceived + 1) * 2) (len (CM.peerIds cm))) as [Hm|Hm].
    + eexists _, _, _. split; [reflexivity |]. split; [reflexivity |].
      rewrite initLeaderIndexes_state. simpl.
      split; [split; [intros _; split; [reflexivity | lia] | reflexivity] |].
      split; [left; reflexivity | reflexivity].
    + eexists _, _, _. split; [reflexivity |]. split; [reflexivity |].
      simpl. rewrite Hst.
      split; [split; [discriminate | intros [_ ?]; lia] |].
      split; [right; reflexivity | reflexivity].
  - eexists _, _, _. split; [reflexivity |]. split; [reflexivity |].
    simpl. rewrite Hst.
    split; [split; [discriminate | intros [? _]; discriminate] |].
    split; [right; reflexivity | reflexivity].
Qed.

Lemma candidate_wins_on_majority_of_peers_witness :
  (CM.state candidateThreePeers = Candidate /\
   RequestVoteReply.Term grantAtFour = 4) /\
  exists cm' votes' evs,
    onVoteReply candidateThreePeers 4 1 2 grantAtFour = (cm', votes', evs) /\
    votes' = 2 /\ CM.state cm' = Leader.
Proof.
  assert (H1 : CM.state candidateThreePeers = Candidate) by reflexivity.
  assert (H2 : RequestVoteReply.Term grantAtFour = 4) by reflexivity.
  split; [auto |].
  destruct (candidate_wins_on_majority_of_peers candidateThreePeers 4 1 2
              grantAtFour H1 H2) as [cm' [votes' [evs [Hr [Hv [Hiff _]]]]]].
  exists cm', votes', evs. split; [exact Hr |]. split; [exact Hv |].
  apply Hiff. rewrite Hv. split; reflexivity.
Defined.

(** C4, as stated, fails: the comparison with the peer count is made only
    in the branch of a granted vote.  [candidateOnePeer] has one peer, so
    its own vote already satisfies [1 * 2 > 1]; the peer refuses, the tally
    stays 1 and still satisfies the inequality, and the node stays
    Candidate. *)
Lemma refusal_leaves_candidate_with_majority_tally :
  exists cm' votes' evs,
    onVoteReply candidateOnePeer 4 1 2 refusalAtFour = (cm', votes', evs) /\
    votes' = 1 /\
    votes' * 2 > len (CM.peerIds candidateOnePeer) /\
    CM.state cm' = Candidate /\
    (StartElection candidateOnePeer 0).2 * 2 > len (CM.peerIds candidateOnePeer).
Proof.
  eexists _, _, _. split; [reflexivity |].
  split; [reflexivity |]. split; [reflexivity |]. split; reflexivity.
Qed.

(** ** Persistence *)

Lemma persistToStorage_Some (cm : CM.t) (order : list string) (e : LogEntry.t) :
  index (CM.log cm) (lastIndex cm) = Some e ->
  persistToStorage cm order =
  Some (let termData :=
          <["checksum" := VStr (hexBytes (SHA512.Sum512
                            (checksumInput (termDataOf cm (lastIndex cm) e) order)))]>
          (termDataOf cm (lastIndex cm) e) in
        EvStorageSet termData ::
        (if checkIfChosen cm (LogEntry.ChosenId e) then
           if negb (CMState_eqb (CM.state cm) Leader)
           then [EvGoReceiveService termData (LogEntry.LeaderId e)]
           else []
         else if CMState_eqb (CM.state cm) Leader then [EvGoSendService]
         else [])).
Proof.
  intros He. unfold persistToStorage. fold (lastIndex cm). rewrite He. reflexivity.
Qed.

Lemma lastIndex_nonempty (cm : CM.t) :
  0 < len (CM.log cm) ->
  lastIndex cm = len (CM.log cm) - 1 /\
  exists e, index (CM.log cm) (lastIndex cm) = Some e.
Proof.
  intros H. unfold lastIndex.
  destruct (Z.ltb_spec (len (CM.log cm) - 1) 0); [lia |].
  split; [reflexivity |]. apply index_in_range. lia.
Qed.

Lemma len_zero_nil {A} (l : list A) : len l = 0 <-> l = [].
Proof.
  unfold len. destruct l; simpl; split; try reflexivity; try discriminate; lia.
Qed.

(** C10.  [persistToStorage] reads [log[last]] where [last] is
    [len(log) - 1] clamped to 0; the read is out of range, and the call
    panics, exactly when the log is empty; with a non-empty log the access
    is in bounds and the record is handed to the store. *)
Theorem persist_panics_iff_log_empty (cm : CM.t) (order : list string) :
  (persistToStorage cm order = None <-> CM.log cm = []) /\
  lastIndex cm = Z.max 0 (len (CM.log cm) - 1) /\
  (index (CM.log cm) (lastIndex cm) = None <-> CM.log cm = []) /\
  ((exists r evs, persistToStorage cm order = Some (EvStorageSet r :: evs))
   <-> 0 < len (CM.log cm)).
Proof.
  assert (Hmax : lastIndex cm = Z.max 0 (len (CM.log cm) - 1)).
  { unfold lastIndex. destruct (Z.ltb_spec (len (CM.log cm) - 1) 0); lia. }
  destruct (Z.le_gt_cases (len (CM.log cm)) 0) as [Hz|Hpos].
  - assert (Hnil : CM.log cm = []) by (apply len_zero_nil; unfold len in *; lia).
    assert (Hi : index (CM.log cm) (lastIndex cm) = None).
    { rewrite Hnil. unfold index. destruct (_ <? _); [reflexivity | apply lookup_nil]. }
    assert (Hp : persistToStorage cm order = None).
    { unfold persistToStorage. fold (lastIndex cm). rewrite Hi. reflexivity. }
    rewrite Hp, Hi. split; [tauto |]. split; [exact Hmax |]. split; [tauto |].
    split; [intros [r [evs H]]; discriminate | lia].
  - assert (Hne : CM.log cm <> []).
    { intros Hnil. apply len_zero_nil in Hnil. lia. }
    destruct (lastIndex_nonempty cm Hpos) as [_ [e He]].
    rewrite (persistToStorage_Some cm order e He), He.
    split; [split; [discriminate | contradiction] |]. split; [exact Hmax |].
    split; [split; [discriminate | contradiction] |].
    split; [intros _; exact Hpos | intros _; simpl; eauto].
Qed.

(** ** Submit *)

Lemma index_app_last {A} (l : list A) (x : A) : index (l ++ [x]) (len l) = Some x.
Proof.
  unfold index, len. destruct (Z.ltb_spec (Z.of_nat (length l)) 0); [lia |].
  rewrite Nat2Z.id. apply list_lookup_middle. reflexivity.
Qed.

Lemma len_app {A} (l1 l2 : list A) : len (l1 ++ l2) = len l1 + len l2.
Proof. unfold len. rewrite length_app. lia. Qed.

Lemma termDataOf_lookup (cm : CM.t) (last : Z) (e : LogEntry.t) (sum : string) :
  let r := <["checksum" := VStr sum]> (termDataOf cm last e) in
  r !! "Id" = Some (VStr (hexInt last)) /\
  r !! "Term" = Some (VStr (Itoa (CM.currentTerm cm))) /\
  r !! "Command" = Some (VService (LogEntry.Command e)) /\
  r !! "Leader" = Some (VStr (Itoa (LogEntry.LeaderId e))) /\
  r !! "Chosen" = Some (VStr (Itoa (LogEntry.ChosenId e))) /\
  r !! "VotedFor" = Some (VStr (Itoa (CM.votedFor cm))) /\
  r !! "checksum" = Some (VStr sum).
Proof.
  unfold termDataOf. repeat split; simplify_map_eq; reflexivity.
Qed.

(** C9.  [Submit] on a node that is not Leader leaves the whole state of
    the module as it is, hands nothing to the store, and signals the
    submit channel.  On a Leader, once the placement selector has returned
    [chosenId], it appends the single entry
    [{command, currentTerm, id, len(log), chosenId}], hands the record of
    that entry to the store and only then signals the replication trigger
    and the submit channel. *)
Theorem submit_leader_appends_else_noop
    (cm : CM.t) (command : Service.t)
    (loadOrder : list (Z * Z)) (intn : Z -> Z) (dataOrder : list string) :
  (CM.state cm <> Leader ->
   Submit cm command loadOrder intn dataOrder = Some (cm, [EvSubmitDone])) /\
  (CM.state cm = Leader ->
   forall chosenId, minLoadLevelMap cm loadOrder intn = Some chosenId ->
   exists r,
     Submit cm command loadOrder intn dataOrder =
     Some (CM.set_log
             (CM.log cm ++ [LogEntry.mk command (CM.currentTerm cm) (CM.id cm)
                                        (len (CM.log cm)) chosenId]) cm,
           [EvStorageSet r]
           ++ (if CM.id cm =? chosenId then [] else [EvGoSendService])
           ++ [EvTriggerAE; EvSubmitDone]) /\
     r !! "Id" = Some (VStr (hexInt (len (CM.log cm)))) /\
     r !! "Term" = Some (VStr (Itoa (CM.currentTerm cm))) /\
     r !! "Command" = Some (VService command) /\
     r !! "Leader" = Some (VStr (Itoa (CM.id cm))) /\
     r !! "Chosen" = Some (VStr (Itoa chosenId)) /\
     r !! "VotedFor" = Some (VStr (Itoa (CM.votedFor cm)))).
Proof.
  split.
  - intros Hst. unfold Submit.
    rewrite (proj2 (CMState_eqb_neq _ _) Hst). reflexivity.
  - intros Hst chosenId Hmin. unfold Submit. rewrite Hst, Hmin. simpl.
    set (entry := LogEntry.mk command (CM.currentTerm cm) (CM.id cm)
                              (len (CM.log cm)) chosenId).
    set (cm' := CM.set_log (CM.log cm ++ [entry]) cm).
    assert (Hlast : lastIndex cm' = len (CM.log cm)).
    { unfold lastIndex. subst cm'. simpl. rewrite len_app.
      change (len [entry]) with 1.
      destruct (Z.ltb_spec (len (CM.log cm) + 1 - 1) 0); unfold len in *; lia. }
    assert (He : index (CM.log cm') (lastIndex cm') = Some entry).
    { rewrite Hlast. apply index_app_last. }
    rewrite (persistToStorage_Some cm' dataOrder entry He). rewrite Hlast.
    set (sum := hexBytes _).
    destruct (termDataOf_lookup cm' (len (CM.log cm)) entry sum)
      as (H1 & H2 & H3 & H4 & H5 & H6 & _).
    exists (<["checksum" := VStr sum]> (termDataOf cm' (len (CM.log cm)) entry)).
    split; [| repeat split; assumption].
    simpl. unfold checkIfChosen. subst cm'. simpl. rewrite Hst. simpl.
    destruct (CM.id cm =? chosenId); reflexivity.
Qed.

Lemma submit_leader_appends_else_noop_witness :
  (CM.state leaderOneEntry = Leader /\
   minLoadLevelMap leaderOneEntry loadOrder123 intnZero = Some 2 /\
   CM.state idleFollower <> Leader) /\
  (exists r,
     Submit leaderOneEntry svc loadOrder123 intnZero anyOrder =
     Some (CM.set_log (CM.log leaderOneEntry ++ [LogEntry.mk svc 2 1 1 2]) leaderOneEntry,
           [EvStorageSet r; EvGoSendService; EvTriggerAE; EvSubmitDone])) /\
  Submit idleFollower svc [] intnZero anyOrder = Some (idleFollower, [EvSubmitDone]).
Proof.
  assert (H1 : CM.state leaderOneEntry = Leader) by reflexivity.
  assert (H2 : minLoadLevelMap leaderOneEntry loadOrder123 intnZero = Some 2)
    by reflexivity.
  assert (H3 : CM.state idleFollower <> Leader) by discriminate.
  split; [auto |]. split.
  - destruct (proj2 (submit_leader_appends_else_noop leaderOneEntry svc loadOrder123
                       intnZero anyOrder) H1 2 H2) as [r [Hr _]].
    exists r. exact Hr.
  - exact (proj1 (submit_leader_appends_else_noop idleFollower svc [] intnZero
                    anyOrder) H3).
Defined.

Lemma minLoadStep_nonempty (m : gmap Z Z) (order : list (Z * Z)) :
  forall acc, acc.1.1 <> [] -> (fold_left (minLoadStep m) order acc).1.1 <> [].
Proof.
  induction order as [|[p l] order IH]; intros [[peers lastPeer] low] Hne;
    simpl in *; [exact Hne |].
  apply IH. unfold minLoadStep.
  destruct (negb _ || (l <? low)); simpl; [discriminate |].
  destruct (l =? low); simpl; [| exact Hne].
  destruct peers; discriminate.
Qed.

(** The selector returns a peer whenever the load map is not empty, its
    levels are at most 10 and [rand.Intn] answers within its range. *)
Lemma minLoadLevelMap_returns (cm : CM.t) (order : list (Z * Z)) (intn : Z -> Z) :
  order <> [] ->
  (forall kv, kv ∈ order -> kv.2 <= 10) ->
  (forall n, 0 < n -> 0 <= intn n < n) ->
  exists chosenId, minLoadLevelMap cm order intn = Some chosenId.
Proof.
  intros Hne Hload Hintn. unfold minLoadLevelMap.
  destruct order as [|[p l] order]; [contradiction |]. simpl.
  assert (Hl : l <= 10) by (apply (Hload (p, l)); left).
  pose proof (minLoadStep_nonempty (CM.loadLevelMap cm) order
                (minLoadStep (CM.loadLevelMap cm) ([], 0, 11) (p, l))) as Hfold.
  assert (Hfirst : (minLoadStep (CM.loadLevelMap cm) ([], 0, 11) (p, l)).1.1 <> []).
  { unfold minLoadStep. destruct (Z.ltb_spec l 11); [| lia].
    rewrite orb_true_r. simpl. discriminate. }
  specialize (Hfold Hfirst).
  destruct (fold_left _ order _) as [[peers lastPeer] low]. simpl in Hfold.
  assert (Hpos : 0 < len peers).
  { unfold len. destruct peers; [contradiction | simpl; lia]. }
  destruct (Z.leb_spec (len peers) 0); [lia |].
  apply index_in_range. apply Hintn. exact Hpos.
Qed.

(** ** SHA-512 against its published values *)

Lemma K_from_primes :
  map (fun p => SHA512.icbrt 70 0 (p * 2 ^ 192) mod 2 ^ 64) SHA512.primes = SHA512.K.
Proof. vm_compute. reflexivity. Qed.

Lemma H0_from_primes :
  map (fun p => Z.sqrt (p * 2 ^ 128) mod 2 ^ 64) (take 8 SHA512.primes) = SHA512.H0.
Proof. vm_compute. reflexivity. Qed.

Lemma Sum512_empty :
  hexBytes (SHA512.Sum512 (bytesOf "")) =
  "cf83e1357eefb8bdf1542850d66d8007d620e4050b5715dc83f4a921d36ce9ce47d0d13c5d85f2b0ff8318d2877eec2f63b931bd47417a81a538327af927da3e"%string.
Proof. vm_compute. reflexivity. Qed.

Lemma Sum512_abc :
  hexBytes (SHA512.Sum512 (bytesOf "abc")) =
  "ddaf35a193617abacc417349ae20413112e6fa4e89a97ea20a9eeee64b55d39a2192992a274fc1a836ba3c23a3feebbd454d4423643ce80e2a9ac94fa54ca49f"%string.
Proof. vm_compute. reflexivity. Qed.

(** A message of 112 bytes, which pads to two blocks. *)
Lemma Sum512_two_blocks :
  hexBytes (SHA512.Sum512 (bytesOf
    "abcdefghbcdefghicdefghijdefghijkefghijklfghijklmghijklmnhijklmnoijklmnopjklmnopqklmnopqrlmnopqrsmnopqrstnopqrstu")) =
  "8e959b75dae313da8cf4f72814fc143f8f7779c6eb9f7fa17299aeadb6889018501d289e4900f7e4331b99dec4b5433ac7d329eeb6dd26545e96e55b874be909"%string.
Proof. vm_compute. reflexivity. Qed.

Lemma Sum512_length (data : list Byte.byte) : length (SHA512.Sum512 data) = 64%nat.
Proof.
  unfold SHA512.Sum512, SHA512.digest. rewrite length_map.
  set (h := fold_left _ _ _).
  assert (Hh : length h = 8%nat).
  { subst h. generalize (SHA512.chunks 128 (length (SHA512.pad (map (fun b => Z.of_N (Byte.to_N b)) data)) / 128) (SHA512.pad (map (fun b => Z.of_N (Byte.to_N b)) data))).
    intros blocks.
    assert (Hgen : forall h0, length h0 = 8%nat ->
                              length (fold_left SHA512.compress blocks h0) = 8%nat).
    { induction blocks as [|b blocks IH]; intros h0 Hh0; simpl; [exact Hh0 |].
      apply IH. unfold SHA512.compress. rewrite length_zip_with.
      assert (Hr : forall ks win s, length s = 8%nat ->
                                    length (SHA512.rounds ks win s) = 8%nat).
      { induction ks as [|k ks IHk]; intros win s Hs; simpl; [exact Hs |].
        apply IHk. reflexivity. }
      rewrite Hr by exact Hh0. rewrite Hh0. reflexivity. }
    apply Hgen. reflexivity. }
  destruct h as [|a [|b [|c [|d [|e [|f [|g [|i [|j h]]]]]]]]]; simpl in Hh;
    try discriminate. reflexivity.
Qed.

(** ** The checksum *)

(** Whatever the order, the checksum input is the concatenation, in that
    order, of the printed values. *)
Lemma checksumInput_concat (termData : gmap string Value) (order : list string) :
  checksumInput termData order =
  concat (map (fun k => match termData !! k with
                        | Some v => bytesOf (fmtV v)
                        | None => []
                        end) order).
Proof.
  unfold checksumInput.
  assert (H : forall acc,
             fold_left (fun sum k => match termData !! k with
                                     | Some v => sum ++ bytesOf (fmtV v)
                                     | None => sum
                                     end) order acc =
             acc ++ concat (map (fun k => match termData !! k with
                                          | Some v => bytesOf (fmtV v)
                                          | None => []
                                          end) order)).
  { induction order as [|k order IH]; intros acc; simpl.
    - rewrite app_nil_r. reflexivity.
    - rewrite IH. destruct (termData !! k); [rewrite <- app_assoc |]; reflexivity. }
  apply (H []).
Qed.

(** When [range] happens to visit the keys in the order Id, Term, Command,
    Leader, Chosen, VotedFor, the checksum is the SHA-512 of the six values
    in that order, in lowercase hexadecimal. *)
Lemma checksum_in_field_order (cm : CM.t) (e : LogEntry.t) :
  index (CM.log cm) (lastIndex cm) = Some e ->
  checksumOf (persistToStorage cm anyOrder) =
  Some (VStr (hexBytes (SHA512.Sum512
    (bytesOf (hexInt (lastIndex cm)) ++ bytesOf (Itoa (CM.currentTerm cm)) ++
     bytesOf (fmtV (VService (LogEntry.Command e))) ++
     bytesOf (Itoa (LogEntry.LeaderId e)) ++ bytesOf (Itoa (LogEntry.ChosenId e)) ++
     bytesOf (Itoa (CM.votedFor cm)))))).
Proof.
  intros He. rewrite (persistToStorage_Some cm anyOrder e He).
  cbv zeta. unfold checksumOf. rewrite lookup_insert_eq.
  rewrite checksumInput_concat. unfold anyOrder, termDataOf. simpl map.
  simplify_map_eq. simpl. rewrite app_nil_r. reflexivity.
Qed.

(** C8 at a failing input.  [leaderOneEntry] is persisted twice without
    any change of state; [range] visits the six keys once in the order Id,
    Term, Command, Leader, Chosen, VotedFor and once in the reverse order.
    The two records carry different checksums. *)
Theorem checksum_depends_on_iteration_order :
  Permutation anyOrder (rev anyOrder) /\
  checksumOf (persistToStorage leaderOneEntry anyOrder) =
    Some (VStr "d1cc47e4b7167d0e0946b1bef132539590ce8472bf4aa1963b57771a2c701182e8ff01293d113bd361627cd4a80751e26adf3f76f3a322881f3d5d3f6483b722") /\
  checksumOf (persistToStorage leaderOneEntry (rev anyOrder)) =
    Some (VStr "6f95c8df4dfda98b20938ef452cda555081876827859dfb341d913c3fb8ece277c6af04a434376b4f92a4f018889513802985f5d4f1b15a51c55f72f97dd7252") /\
  checksumOf (persistToStorage leaderOneEntry anyOrder) <>
  checksumOf (persistToStorage leaderOneEntry (rev anyOrder)).
Proof.
  assert (H1 : checksumOf (persistToStorage leaderOneEntry anyOrder) =
    Some (VStr "d1cc47e4b7167d0e0946b1bef132539590ce8472bf4aa1963b57771a2c701182e8ff01293d113bd361627cd4a80751e26adf3f76f3a322881f3d5d3f6483b722"))
    by (vm_compute; reflexivity).
  assert (H2 : checksumOf (persistToStorage leaderOneEntry (rev anyOrder)) =
    Some (VStr "6f95c8df4dfda98b20938ef452cda555081876827859dfb341d913c3fb8ece277c6af04a434376b4f92a4f018889513802985f5d4f1b15a51c55f72f97dd7252"))
    by (vm_compute; reflexivity).
  split; [apply Permutation_rev |]. split; [exact H1 |]. split; [exact H2 |].
  rewrite H1, H2. discriminate.
Qed.

(** ** Parsing what was printed *)

Lemma parseDigits_uint (d : Decimal.uint) : forall a : Decimal.uint,
  parseDigits (DecimalString.NilEmpty.string_of_uint d) (Z.of_N (Unsigned.of_lu a)) =
  Some (Z.of_N (Unsigned.of_lu (Decimal.revapp d a))).
Proof.
  induction d as [|d IH|d IH|d IH|d IH|d IH|d IH|d IH|d IH|d IH|d IH]; intros a;
    [reflexivity | ..];
    cbn [DecimalString.NilEmpty.string_of_uint parseDigits Decimal.revapp];
    match goal with
    | |- context [digitVal ?c] =>
        let v := eval vm_compute in (digitVal c) in
        change (digitVal c) with v
    end;
    cbn [mbind option_bind]; rewrite <- IH; f_equal;
    cbn [Unsigned.of_lu]; lia.
Qed.

Lemma parseDigits_to_uint (p : positive) :
  parseDigits (DecimalString.NilEmpty.string_of_uint (Pos.to_uint p)) 0 = Some (Z.pos p).
Proof.
  change 0 with (Z.of_N (Unsigned.of_lu Decimal.Nil)).
  rewrite parseDigits_uint.
  change (Decimal.revapp (Pos.to_uint p) Decimal.Nil) with (Decimal.rev (Pos.to_uint p)).
  rewrite <- Unsigned.of_uint_alt, Unsigned.of_to. reflexivity.
Qed.

Lemma Atoi_digits (d : Decimal.uint) :
  d <> Decimal.Nil ->
  Atoi (DecimalString.NilEmpty.string_of_uint d) =
    match parseDigits (DecimalString.NilEmpty.string_of_uint d) 0 with
    | Some n => clampInt n
    | None => (0, false)
    end /\
  Atoi (String "-" (DecimalString.NilEmpty.string_of_uint d)) =
    match parseDigits (DecimalString.NilEmpty.string_of_uint d) 0 with
    | Some n => clampInt (- n)
    | None => (0, false)
    end.
Proof.
  intros Hd. destruct d; [contradiction | ..]; split; reflexivity.
Qed.

(** [strconv.Atoi] reads back what [strconv.Itoa] printed. *)
Lemma Atoi_Itoa (z : Z) : minInt <= z <= maxInt -> Atoi (Itoa z) = (z, true).
Proof.
  intros Hz. unfold Itoa.
  assert (Hclamp : clampInt z = (z, true)).
  { unfold clampInt. destruct (Z.gtb_spec z maxInt); [lia |].
    destruct (Z.ltb_spec z minInt); [lia | reflexivity]. }
  destruct z as [|p|p]; [reflexivity | |]; simpl Z.to_int;
    cbn [DecimalString.NilEmpty.string_of_int].
  - rewrite (proj1 (Atoi_digits _ (Unsigned.to_uint_nonnil p))).
    rewrite parseDigits_to_uint. exact Hclamp.
  - rewrite (proj2 (Atoi_digits _ (Unsigned.to_uint_nonnil p))).
    rewrite parseDigits_to_uint. exact Hclamp.
Qed.

(** ** Restore *)

Lemma restoreEntries_Index (n : Z) (logs : list (gmap string Value)) :
  forall (i : Z) (es : list LogEntry.t),
  restoreEntries n i logs = Some es ->
  length es = length logs /\
  forall (k : nat) (e : LogEntry.t),
    es !! k = Some e -> LogEntry.Index e = n - (i + Z.of_nat k) - 1.
Proof.
  induction logs as [|r rest IH]; intros i es H; simpl in H.
  - injection H as <-. split; [reflexivity |]. intros k e Hk.
    rewrite lookup_nil in Hk. discriminate.
  - destruct (restoreEntry n i r) as [e0|] eqn:He0; simpl in H; [| discriminate].
    destruct (restoreEntries n (i + 1) rest) as [es'|] eqn:Hes; simpl in H;
      [| discriminate].
    injection H as <-. destruct (IH _ _ Hes) as [Hlen Hidx].
    split; [simpl; congruence |].
    intros [|k] e Hk; simpl in Hk.
    + injection Hk as <-. unfold restoreEntry in He0.
      repeat match type of He0 with
             | context [asString ?x] => destruct (asString x); simpl in He0;
                                        [| discriminate]
             | context [asObject ?x] => destruct (asObject x); simpl in He0;
                                        [| discriminate]
             end.
      injection He0 as <-. simpl. lia.
    + rewrite (Hidx k e Hk). lia.
Qed.

(** Whatever the store returns, a restored log of two or more entries does
    not number its entries by position: the first one carries the index of
    the last position. *)
Lemma restore_first_entry_index {S : Type} `{!Storage S} (st : S) (cm cm' : CM.t) :
  CM.log cm = [] ->
  restoreFromStorage st cm = Some cm' ->
  len (CM.log cm') = len (GetLog st) /\
  forall e, CM.log cm' !! 0%nat = Some e ->
            LogEntry.Index e = len (CM.log cm') - 1.
Proof.
  intros Hnil H. unfold restoreFromStorage in H.
  destruct (Get st "Term") as [t|]; simpl in H; [| discriminate].
  destruct t as [ts| |]; simpl in H; try discriminate.
  destruct (Get st "VotedFor") as [v|]; simpl in H; [| discriminate].
  destruct v as [vs| |]; simpl in H; try discriminate.
  destruct (restoreEntries _ 0 (GetLog st)) as [es|] eqn:Hes; simpl in H;
    [| discriminate].
  injection H as <-. simpl. rewrite Hnil. simpl.
  destruct (restoreEntries_Index _ _ _ _ Hes) as [Hlen Hidx].
  unfold len. rewrite Hlen. split; [reflexivity |].
  intros e He. rewrite (Hidx 0%nat e He). unfold len. lia.
Qed.

(** What does come back: a record holding the printed term, leader and
    chosen id of an entry and its command as an object is read back as that
    entry, except for the index, which is [n - i - 1]. *)
Lemma restoreEntry_persisted (n i : Z) (r : gmap string Value) (e : LogEntry.t) :
  minInt <= LogEntry.Term e <= maxInt ->
  minInt <= LogEntry.LeaderId e <= maxInt ->
  minInt <= LogEntry.ChosenId e <= maxInt ->
  r !! "Term" = Some (VStr (Itoa (LogEntry.Term e))) ->
  r !! "Leader" = Some (VStr (Itoa (LogEntry.LeaderId e))) ->
  r !! "Chosen" = Some (VStr (Itoa (LogEntry.ChosenId e))) ->
  r !! "Command" =
    Some (VObj [("ServiceID", VStr (Service.ServiceID (LogEntry.Command e)));
                ("Type", VStr (Service.SType (LogEntry.Command e)))]) ->
  restoreEntry n i r =
  Some (LogEntry.mk (LogEntry.Command e) (LogEntry.Term e) (LogEntry.LeaderId e)
                    (n - i - 1) (LogEntry.ChosenId e)).
Proof.
  intros Ht Hl Hc Hrt Hrl Hrc Hrcmd. unfold restoreEntry.
  rewrite Hrt, Hrl, Hrc, Hrcmd. simpl.
  rewrite !Atoi_Itoa by assumption. simpl.
  destruct (LogEntry.Command e). reflexivity.
Qed.

(** The term and the vote come back as they were printed. *)
Lemma restore_scalars {S : Type} `{!Storage S} (st : S) (cm cm' : CM.t) (t v : Z) :
  minInt <= t <= maxInt ->
  minInt <= v <= maxInt ->
  Get st "Term" = Some (VStr (Itoa t)) ->
  Get st "VotedFor" = Some (VStr (Itoa v)) ->
  restoreFromStorage st cm = Some cm' ->
  CM.currentTerm cm' = t /\ CM.votedFor cm' = v.
Proof.
  intros Ht Hv Hgt Hgv H. unfold restoreFromStorage in H.
  rewrite Hgt, Hgv in H. simpl in H.
  destruct (restoreEntries _ 0 (GetLog st)); simpl in H; [| discriminate].
  injection H as <-. simpl. rewrite !Atoi_Itoa by assumption. split; reflexivity.
Qed.

(** C5 at a failing input.  A leader at term 5 that voted for 2 accepts two
    submissions; its log is then [preCrashLog], whose entries carry the
    indexes 0 and 1, and the two records handed to the store have the
    fields of [storedRecord 0] and [storedRecord 1].  Restarting on a store
    that returns these records in that order restores the term and the vote
    but numbers the entries 1 and 0: the log differs from the one before
    the crash. *)
Theorem restore_reverses_index :
  (exists l1 r0 ev0 l2 r1 ev1,
     Submit leaderEmpty svc loadOrder123 intnZero anyOrder
       = Some (l1, EvStorageSet r0 :: ev0) /\
     Submit l1 svc loadOrder123 intnZero anyOrder
       = Some (l2, EvStorageSet r1 :: ev1) /\
     CM.log l2 = preCrashLog /\ CM.currentTerm l2 = 5 /\ CM.votedFor l2 = 2 /\
     storedFields r0 = storedFields (storedRecord 0) /\
     storedFields r1 = storedFields (storedRecord 1)) /\
  exists cm',
    NewConsensusModule 1 storeTwo = Some cm' /\
    CM.currentTerm cm' = 5 /\
    CM.votedFor cm' = 2 /\
    CM.log cm' = [LogEntry.mk svc 5 1 1 2; LogEntry.mk svc 5 1 0 2] /\
    map LogEntry.Index (CM.log cm') = [1; 0] /\
    map LogEntry.Index preCrashLog = [0; 1] /\
    CM.log cm' <> preCrashLog.
Proof.
  split.
  - eexists _, _, _, _, _, _.
    split; [vm_compute; reflexivity |].
    split; [vm_compute; reflexivity |].
    repeat split; vm_compute; reflexivity.
  - eexists. split; [vm_compute; reflexivity |].
    repeat split. discriminate.
Qed.

(** ** Commit dispatcher *)

Lemma slice_spec {A} (s : list A) (a b : Z) :
  0 <= a <= b -> b <= len s ->
  exists r, slice s a b = Some r /\ len r = b - a /\
            forall k, 0 <= k < b - a -> index r k = index s (a + k).
Proof.
  intros Hab Hb. unfold slice.
  destruct (Z.leb_spec 0 a); [| lia]. destruct (Z.leb_spec a b); [| lia].
  destruct (Z.leb_spec b (len s)); [| lia]. simpl.
  eexists. split; [reflexivity |]. unfold len in *. split.
  - rewrite length_take, length_drop. lia.
  - intros k Hk. unfold index.
    destruct (Z.ltb_spec k 0); [lia |]. destruct (Z.ltb_spec (a + k) 0); [lia |].
    rewrite lookup_take_lt by lia. rewrite lookup_drop. f_equal. lia.
Qed.

Lemma emitEntries_spec (savedTerm savedLastApplied : Z) (entries : list LogEntry.t) :
  forall i,
  len (emitEntries savedTerm savedLastApplied i entries) = len entries /\
  forall k e, index entries k = Some e ->
    index (emitEntries savedTerm savedLastApplied i entries) k =
    Some (CommitEntry.mk (LogEntry.Command e) (savedLastApplied + (i + k) + 1)
                         savedTerm (LogEntry.ChosenId e)).
Proof.
  unfold len. induction entries as [|x xs IH]; intros i; simpl.
  - split; [reflexivity |]. intros k e H. apply index_is_Some_range in H.
    unfold len in H. simpl in H. lia.
  - destruct (IH (i + 1)) as [Hlen Hidx]. split; [lia |].
    intros k e H. apply index_Some in H as [Hk H].
    destruct (Z.eq_dec k 0) as [-> | Hne].
    + simpl in H. injection H as <-. replace (i + 0) with i by lia. reflexivity.
    + assert (Hk' : index xs (k - 1) = Some e).
      { apply index_Some. split; [lia |].
        replace (Z.to_nat k) with (S (Z.to_nat (k - 1))) in H by lia. exact H. }
      specialize (Hidx _ _ Hk'). apply index_Some in Hidx as [_ Hidx].
      apply index_Some. split; [lia |].
      replace (Z.to_nat k) with (S (Z.to_nat (k - 1))) by lia. simpl.
      rewrite Hidx. do 2 f_equal. lia.
Qed.

Lemma set_lastApplied_same (cm : CM.t) : CM.set_lastApplied (CM.lastApplied cm) cm = cm.
Proof. destruct cm; reflexivity. Qed.

(** C6 (amended).  One turn of the dispatcher, on a state with
    [-1 <= lastApplied] and [commitIndex < len(log)], returns; it moves
    [lastApplied] up to [commitIndex] and emits, in ascending order and
    once each, the entries at the indexes [lastApplied+1 .. commitIndex]:
    the k-th message carries the command and the chosen id of the entry at
    index [lastApplied+1+k], that index, and the node's [currentTerm] at the
    time of the turn (not the entry's term).  A further turn with
    [commitIndex] unchanged emits nothing. *)
Theorem dispatcher_emits_each_committed_entry_once (cm : CM.t) :
  -1 <= CM.lastApplied cm ->
  CM.commitIndex cm < len (CM.log cm) ->
  exists out,
    let cm' := CM.set_lastApplied (Z.max (CM.lastApplied cm) (CM.commitIndex cm)) cm in
    commitChanSender cm = Some (cm', out) /\
    len out = Z.max 0 (CM.commitIndex cm - CM.lastApplied cm) /\
    (forall k, 0 <= k < len out ->
       exists e,
         index (CM.log cm) (CM.lastApplied cm + 1 + k) = Some e /\
         index out k =
         Some (CommitEntry.mk (LogEntry.Command e) (CM.lastApplied cm + 1 + k)
                              (CM.currentTerm cm) (LogEntry.ChosenId e))) /\
    commitChanSender cm' = Some (cm', []).
Proof.
  intros Hla Hci.
  assert (Hidle : forall c, CM.commitIndex c <= CM.lastApplied c ->
                            commitChanSender c = Some (c, [])).
  { intros c Hc. unfold commitChanSender.
    destruct (Z.gtb_spec (CM.commitIndex c) (CM.lastApplied c)); [lia | reflexivity]. }
  destruct (Z.le_gt_cases (CM.commitIndex cm) (CM.lastApplied cm)) as [Hle|Hgt].
  - exists []. cbv zeta. rewrite Z.max_l by lia. rewrite set_lastApplied_same.
    rewrite (Hidle cm Hle). split; [reflexivity |].
    split; [unfold len; simpl; lia |].
    split; [unfold len; simpl; intros; lia | reflexivity].
  - destruct (slice_spec (CM.log cm) (CM.lastApplied cm + 1) (CM.commitIndex cm + 1))
      as [entries [Hs [Hlen Hidx]]]; [lia | lia |].
    destruct (emitEntries_spec (CM.currentTerm cm) (CM.lastApplied cm) entries 0)
      as [Holen Hout].
    exists (emitEntries (CM.currentTerm cm) (CM.lastApplied cm) 0 entries).
    cbv zeta. rewrite Z.max_r by lia. split; [| split; [| split]].
    + unfold commitChanSender.
      destruct (Z.gtb_spec (CM.commitIndex cm) (CM.lastApplied cm)); [| lia].
      rewrite Hs. reflexivity.
    + rewrite Holen, Hlen. lia.
    + rewrite Holen, Hlen. intros k Hk.
      destruct (index_in_range (CM.log cm) (CM.lastApplied cm + 1 + k)) as [e He];
        [lia |].
      exists e. split; [exact He |].
      rewrite (Hout k e) by (rewrite Hidx by lia; exact He).
      do 2 f_equal. lia.
    + apply Hidle. simpl. lia.
Qed.

Lemma dispatcher_emits_each_committed_entry_once_witness :
  (-1 <= CM.lastApplied committedOldTerm /\
   CM.commitIndex committedOldTerm < len (CM.log committedOldTerm)) /\
  exists cm' out, commitChanSender committedOldTerm = Some (cm', out) /\ len out = 1.
Proof.
  assert (H1 : -1 <= CM.lastApplied committedOldTerm) by (simpl; lia).
  assert (H2 : CM.commitIndex committedOldTerm < len (CM.log committedOldTerm))
    by reflexivity.
  split; [auto |].
  destruct (dispatcher_emits_each_committed_entry_once committedOldTerm H1 H2)
    as [out [Hr [Hlen _]]].
  eexists _, out. split; [exact Hr | exact Hlen].
Defined.

(** C6, as stated, fails: the entry committed on [committedOldTerm] has
    term 1, the node is at term 2, and the message emitted for it carries
    term 2. *)
Lemma commit_entry_carries_current_term :
  exists cm',
    commitChanSender committedOldTerm = Some (cm', [CommitEntry.mk svc 0 2 2]) /\
    index (CM.log committedOldTerm) 0 = Some (entryAt 1 0) /\
    LogEntry.Term (entryAt 1 0) = 1 /\
    CommitEntry.Term (CommitEntry.mk svc 0 2 2) <> LogEntry.Term (entryAt 1 0).
Proof.
  eexists. split; [reflexivity |]. split; [reflexivity |]. split; [reflexivity |].
  simpl. lia.
Qed.

Lemma slice_Some_len {A} (s r : list A) (a b : Z) :
  slice s a b = Some r -> 0 <= a <= b /\ b <= len s /\ len r = b - a.
Proof.
  intros H. destruct (Z.le_gt_cases 0 a) as [Ha|Ha];
    [destruct (Z.le_gt_cases a b) as [Hab|Hab];
     [destruct (Z.le_gt_cases b (len s)) as [Hb|Hb] |] |].
  - destruct (slice_spec s a b) as [r' [Hr [Hlen _]]]; [lia | lia |].
    rewrite Hr in H. injection H as <-. lia.
  - unfold slice in H. destruct (Z.leb_spec b (len s)); [lia |].
    rewrite andb_false_r in H. discriminate.
  - unfold slice in H. destruct (Z.leb_spec a b); [lia |].
    rewrite andb_false_r in H. discriminate.
  - unfold slice in H. destruct (Z.leb_spec 0 a); [lia | discriminate].
Qed.

Lemma emitEntries_indexes (savedTerm savedLastApplied : Z) (entries : list LogEntry.t) :
  forall i,
  map CommitEntry.Index (emitEntries savedTerm savedLastApplied i entries) =
  seqZ (savedLastApplied + i + 1) (len entries).
Proof.
  induction entries as [|e entries IH]; intros i; simpl.
  - reflexivity.
  - rewrite IH. rewrite (seqZ_cons _ (len (e :: entries)))
      by (unfold len; simpl; lia).
    f_equal. f_equal; unfold len; simpl; lia.
Qed.

(** Over any run of the dispatcher the indexes sent on the application
    channel are the consecutive integers from the first [lastApplied + 1]
    to the last [lastApplied]: ascending, without gap or repetition. *)
Lemma dispatchRun_indexes (cm cm' : CM.t) (outs : list CommitEntry.t) :
  dispatchRun cm outs cm' ->
  CM.lastApplied cm <= CM.lastApplied cm' /\
  map CommitEntry.Index outs =
  seqZ (CM.lastApplied cm + 1) (CM.lastApplied cm' - CM.lastApplied cm).
Proof.
  induction 1 as [cm | cm cm1 out cm2 outs cm3 Hturn Henv _ [IHle IH]].
  - split; [lia |]. rewrite Z.sub_diag. reflexivity.
  - assert (Hout : CM.lastApplied cm <= CM.lastApplied cm1 /\
                   map CommitEntry.Index out =
                   seqZ (CM.lastApplied cm + 1) (CM.lastApplied cm1 - CM.lastApplied cm)).
    { unfold commitChanSender in Hturn.
      destruct (Z.gtb_spec (CM.commitIndex cm) (CM.lastApplied cm)).
      - destruct (slice _ _ _) as [entries|] eqn:Hs; simpl in Hturn; [| discriminate].
        injection Hturn as <- <-. simpl.
        destruct (slice_Some_len _ _ _ _ Hs) as [_ [_ Hlen]].
        split; [lia |]. rewrite emitEntries_indexes, Hlen. f_equal; lia.
      - injection Hturn as <- <-. split; [lia |].
        rewrite Z.sub_diag. reflexivity. }
    destruct Hout as [Hle Hout]. rewrite Henv in IH, IHle.
    split; [lia |].
    rewrite map_app, Hout, IH.
    replace (CM.lastApplied cm3 - CM.lastApplied cm)
      with ((CM.lastApplied cm1 - CM.lastApplied cm)
            + (CM.lastApplied cm3 - CM.lastApplied cm1)) by lia.
    rewrite seqZ_app by lia. do 2 f_equal. lia.
Qed.

(** ** Commit monotonicity *)

Lemma keepsCommit_refl cm : keepsCommit cm cm.
Proof. split; reflexivity. Qed.




Lemma appendMatched_commit cm order args cm' evs :
  appendMatched cm order args = Some (cm', evs) ->
  CM.lastApplied cm' = CM.lastApplied cm /\
  (CM.commitIndex cm' = CM.commitIndex cm \/
   (CM.commitIndex cm < AppendEntriesArgs.LeaderCommit args /\
    CM.commitIndex cm' =
    intMin (AppendEntriesArgs.LeaderCommit args) (len (CM.log cm') - 1))).
Proof.
  unfold appendMatched. intros H.
  destruct (findInsertion _ _ _ _) as [[li ni]|]; simpl in H; [| discriminate].
  match type of H with
  | (?m ≫= _) = _ => destruct m as [[cm1 evs1]|] eqn:Hm; simpl in H; [| discriminate]
  end.
  assert (Hk : keepsCommit cm cm1).
  { destruct (ni <? _).
    - destruct (slice (CM.log cm) _ _); simpl in Hm; [| discriminate].
      destruct (slice (AppendEntriesArgs.Entries args) _ _); simpl in Hm;
        [| discriminate].
      destruct (persistToStorage _ _); simpl in Hm; [| discriminate].
      injection Hm as <- _. split; reflexivity.
    - injection Hm as <- _. apply keepsCommit_refl. }
  destruct Hk as [Hci Hla]. rewrite <- Hci, <- Hla.
  destruct (Z.gtb_spec (AppendEntriesArgs.LeaderCommit args) (CM.commitIndex cm1));
    injection H as <- _; simpl.
  - split; [reflexivity | right]. split; [lia | reflexivity].
  - split; [reflexivity | left; reflexivity].
Qed.

Lemma AppendEntries_commit cm now order args reply0 cm' reply evs :
  AppendEntries cm now order args reply0 = Some (cm', reply, evs) ->
  CM.lastApplied cm' = CM.lastApplied cm /\
  (CM.commitIndex cm' = CM.commitIndex cm \/
   (CM.commitIndex cm < AppendEntriesArgs.LeaderCommit args /\
    CM.commitIndex cm' =
    intMin (AppendEntriesArgs.LeaderCommit args) (len (CM.log cm') - 1))).
Proof.
  unfold AppendEntries. intros H.
  destruct (CMState_eqb _ Dead);
    [injection H as <- _ _; split; [reflexivity | left; reflexivity] |].
  set (cm1 := if _ >? _ then _ else cm) in H.
  assert (H1 : keepsCommit cm cm1).
  { subst cm1. destruct (_ >? _); split; reflexivity. }
  destruct (_ =? _);
    [| injection H as <- _ _; destruct H1 as [-> ->];
       split; [reflexivity | left; reflexivity]].
  set (cm2 := if negb _ then _ else cm1) in H.
  assert (H2 : keepsCommit cm cm2).
  { subst cm2. destruct H1. destruct (negb _); split; simpl; assumption. }
  set (cm3 := CM.set_electionResetEvent now cm2) in H.
  assert (H3 : keepsCommit cm cm3) by exact H2.
  destruct H3 as [Hci Hla].
  destruct (prevMatches cm3 args) as [[|]|]; simpl in H; [| | discriminate].
  - destruct (appendMatched cm3 order args) as [[cm4 evs4]|] eqn:Ha; simpl in H;
      [| discriminate].
    injection H as <- _ _. rewrite <- Hci, <- Hla.
    exact (appendMatched_commit _ _ _ _ _ Ha).
  - destruct (conflictHints cm3 args) as [[ci ct]|]; simpl in H; [| discriminate].
    injection H as <- _ _. rewrite Hci, Hla. split; [reflexivity | left; reflexivity].
Qed.






Lemma findInsertion_spec (log rest : list LogEntry.t) : forall li ni,
  0 <= li <= len log ->
  exists li' ni', findInsertion log li rest ni = Some (li', ni') /\
                  li <= li' <= len log /\ ni <= ni' <= ni + len rest.
Proof.
  induction rest as [|e rest IH]; intros li ni Hli; simpl.
  - eexists _, _. split; [reflexivity | unfold len in *; simpl; lia].
  - assert (Hlen : len (e :: rest) = len rest + 1) by (unfold len; simpl; lia).
    destruct (Z.geb_spec li (len log)).
    + eexists _, _. split; [reflexivity | unfold len in *; lia].
    + destruct (index_in_range log li) as [le Hle]; [lia |].
      rewrite Hle. simpl. destruct (negb _).
      * eexists _, _. split; [reflexivity | unfold len in *; lia].
      * destruct (IH (li + 1) (ni + 1)) as [li' [ni' [Hf [H1 H2]]]]; [lia |].
        exists li', ni'. split; [exact Hf | lia].
Qed.

Lemma persistToStorage_returns (cm : CM.t) (order : list string) :
  0 < len (CM.log cm) -> exists evs, persistToStorage cm order = Some evs.
Proof.
  intros H. destruct (lastIndex_nonempty cm H) as [_ [e He]].
  rewrite (persistToStorage_Some cm order e He). eauto.
Qed.

Lemma appendMatched_returns (cm : CM.t) (order : list string)
    (args : AppendEntriesArgs.t) :
  -1 <= AppendEntriesArgs.PrevLogIndex args < len (CM.log cm) ->
  exists cm' evs, appendMatched cm order args = Some (cm', evs).
Proof.
  intros Hp. unfold appendMatched.
  destruct (findInsertion_spec (CM.log cm) (AppendEntriesArgs.Entries args)
              (AppendEntriesArgs.PrevLogIndex args + 1) 0)
    as [li [ni [Hf [Hli Hni]]]]; [lia |].
  rewrite Hf. cbn [mbind option_bind].
  destruct (Z.ltb_spec ni (len (AppendEntriesArgs.Entries args))).
  - destruct (slice_spec (CM.log cm) 0 li) as [pre [Hpre [Hlp _]]]; [lia | lia |].
    destruct (slice_spec (AppendEntriesArgs.Entries args) ni
                (len (AppendEntriesArgs.Entries args)))
      as [suf [Hsuf [Hls _]]]; [lia | lia |].
    rewrite Hpre, Hsuf. cbn [mbind option_bind].
    destruct (persistToStorage_returns (CM.set_log (pre ++ suf) cm) order)
      as [evs Hevs].
    { simpl. rewrite len_app. lia. }
    rewrite Hevs. cbn [mbind option_bind].
    destruct (_ >? _); eauto.
  - cbn [mbind option_bind]. destruct (_ >? _); eauto.
Qed.

(** [AppendEntries] returns for every request whose [PrevLogIndex] is at
    least -1. *)
Lemma AppendEntries_returns (cm : CM.t) (now : Z) (order : list string)
    (args : AppendEntriesArgs.t) (reply0 : AppendEntriesReply.t) :
  -1 <= AppendEntriesArgs.PrevLogIndex args ->
  exists cm' reply evs, AppendEntries cm now order args reply0 = Some (cm', reply, evs).
Proof.
  intros Hp. unfold AppendEntries.
  destruct (CMState_eqb _ Dead); [eauto |].
  set (cm1 := if _ >? _ then _ else cm).
  destruct (_ =? _); [| eauto].
  set (cm2 := if negb _ then _ else cm1).
  set (cm3 := CM.set_electionResetEvent now cm2).
  unfold prevMatches.
  destruct (Z.eqb_spec (AppendEntriesArgs.PrevLogIndex args) (-1)) as [Heq|Hne].
  - simpl. destruct (appendMatched_returns cm3 order args) as [cm4 [evs Ha]].
    { rewrite Heq. unfold len. lia. }
    rewrite Ha. simpl. eauto.
  - destruct (Z.ltb_spec (AppendEntriesArgs.PrevLogIndex args) (len (CM.log cm3)))
      as [Hlt|Hge].
    + destruct (index_in_range (CM.log cm3) (AppendEntriesArgs.PrevLogIndex args))
        as [e He]; [lia |].
      rewrite He. simpl. destruct (_ =? _).
      * destruct (appendMatched_returns cm3 order args) as [cm4 [evs Ha]]; [lia |].
        rewrite Ha. simpl. eauto.
      * destruct (proj2 (conflictHints_spec cm3 args)) as [e' [j [_ [Hh _]]]]; [lia |].
        rewrite Hh. simpl. eauto.
    + simpl. rewrite (proj1 (conflictHints_spec cm3 args) Hge). simpl. eauto.
Qed.




(** [commitIndex] stays at or above -1, the value it is created with, also
    across an [AppendEntries] that cuts the log. *)
Lemma AppendEntries_commit_lower_bound cm now order args reply0 cm' reply evs :
  AppendEntries cm now order args reply0 = Some (cm', reply, evs) ->
  -1 <= CM.commitIndex cm -> -1 <= CM.commitIndex cm'.
Proof.
  intros H Hci.
  destruct (AppendEntries_commit _ _ _ _ _ _ _ _ H) as [_ [-> | [Hlt ->]]];
    [exact Hci |].
  unfold intMin, len. destruct (_ <? _); lia.
Qed.

(** ** Wrap-around *)

Lemma wrapInt_id (z : Z) : minInt <= z <= maxInt -> wrapInt z = z.
Proof.
  unfold minInt, maxInt, wrapInt. intros H.
  rewrite Z.mod_small by lia. lia.
Qed.

Lemma wrapInt_range (z : Z) : minInt <= wrapInt z <= maxInt.
Proof.
  unfold minInt, maxInt, wrapInt.
  pose proof (Z.mod_pos_bound (z + 2 ^ 63) (2 ^ 64) ltac:(lia)). lia.
Qed.

(** A new module starts with nothing committed and nothing applied,
    whether or not it restores from the store. *)
Lemma NewConsensusModule_commit {S : Type} `{!Storage S} (id : Z) (st : S) (cm : CM.t) :
  NewConsensusModule id st = Some cm ->
  CM.commitIndex cm = -1 /\ CM.lastApplied cm = -1.
Proof.
  unfold NewConsensusModule, restoreFromStorage. intros H.
  destruct (HasData st); [| injection H as <-; split; reflexivity].
  destruct (Get st "Term") as [t|]; simpl in H; [| discriminate].
  destruct t as [ts| |]; simpl in H; try discriminate.
  destruct (Get st "VotedFor") as [v|]; simpl in H; [| discriminate].
  destruct v as [vs| |]; simpl in H; try discriminate.
  destruct (restoreEntries _ 0 (GetLog st)); simpl in H; [| discriminate].
  injection H as <-. split; reflexivity.
Qed.

(** * Further properties of the module *)

(** ** Peer directory *)

Lemma slice_take_drop {A} (s : list A) (a b : Z) :
  0 <= a <= b -> b <= len s ->
  slice s a b = Some (take (Z.to_nat (b - a)) (drop (Z.to_nat a) s)).
Proof.
  intros Hab Hb. unfold slice.
  destruct (Z.leb_spec 0 a); [| lia]. destruct (Z.leb_spec a b); [| lia].
  destruct (Z.leb_spec b (len s)); [| lia]. reflexivity.
Qed.

Lemma findPeer_None (l : list Z) (p : Z) : forall i,
  p ∉ l -> findPeer l i p = None.
Proof.
  induction l as [|x l IH]; intros i Hp; simpl; [reflexivity |].
  apply not_elem_of_cons in Hp as [Hne Hp].
  destruct (Z.eqb_spec x p); [congruence |]. apply IH, Hp.
Qed.

Lemma findPeer_first (l1 l2 : list Z) (p : Z) : forall i,
  p ∉ l1 -> findPeer (l1 ++ p :: l2) i p = Some (i + len l1).
Proof.
  induction l1 as [|x l1 IH]; intros i Hp; simpl.
  - rewrite Z.eqb_refl. unfold len. simpl. f_equal. lia.
  - apply not_elem_of_cons in Hp as [Hne Hp].
    destruct (Z.eqb_spec x p); [congruence |].
    rewrite IH by exact Hp. unfold len. simpl. f_equal. lia.
Qed.

Lemma set_peerIds_same (cm : CM.t) : set_peerIds (CM.peerIds cm) cm = cm.
Proof. destruct cm; reflexivity. Qed.

Lemma DisconnectPeer_first (cm : CM.t) (p : Z) (l1 l2 : list Z) :
  CM.peerIds cm = l1 ++ p :: l2 -> p ∉ l1 ->
  DisconnectPeer cm p = Some (set_peerIds (l1 ++ l2) cm).
Proof.
  intros Hl Hp. unfold DisconnectPeer. rewrite Hl, findPeer_first by exact Hp.
  assert (Hlen : len (l1 ++ p :: l2) = len l1 + 1 + len l2).
  { unfold len. rewrite length_app. simpl. lia. }
  rewrite slice_take_drop by (unfold len in *; lia).
  rewrite slice_take_drop by (unfold len in *; lia).
  cbn [mbind option_bind]. do 2 f_equal.
  replace (Z.to_nat (0 + len l1 - 0)) with (length l1) by (unfold len; lia).
  replace (Z.to_nat 0) with O by lia. rewrite drop_0.
  replace (Z.to_nat (0 + len l1 + 1)) with (S (length l1)) by (unfold len; lia).
  replace (Z.to_nat (len (l1 ++ p :: l2) - (0 + len l1 + 1))) with (length l2)
    by (unfold len in *; lia).
  rewrite take_app_length. f_equal.
  rewrite (cons_middle p l1 l2), app_assoc.
  rewrite drop_app_length' by (rewrite length_app; simpl; lia).
  apply take_ge. lia.
Qed.

(** X1.  [DisconnectPeer] removes the first occurrence of the peer and
    nothing else: a list that does not hold the peer is left as it is, and
    in a list [l1 ++ p :: l2] with [p] not in [l1] exactly that [p] goes;
    later occurrences stay. *)
Theorem disconnect_removes_first_occurrence (cm : CM.t) (p : Z) :
  (p ∉ CM.peerIds cm -> DisconnectPeer cm p = Some cm) /\
  (forall l1 l2, CM.peerIds cm = l1 ++ p :: l2 -> p ∉ l1 ->
                 DisconnectPeer cm p = Some (set_peerIds (l1 ++ l2) cm)).
Proof.
  split.
  - intros Hp. unfold DisconnectPeer. rewrite findPeer_None by exact Hp. reflexivity.
  - intros l1 l2. apply DisconnectPeer_first.
Qed.

Lemma occurrences_app (p : Z) (l1 l2 : list Z) :
  occurrences p (l1 ++ l2) = occurrences p l1 + occurrences p l2.
Proof. unfold occurrences. rewrite filter_app. apply len_app. Qed.

Lemma occurrences_absent (p : Z) (l : list Z) : p ∉ l <-> occurrences p l = 0.
Proof.
  unfold occurrences, len. induction l as [|x l IH]; simpl.
  - split; [reflexivity | intros _; apply not_elem_of_nil].
  - rewrite filter_cons, not_elem_of_cons. destruct (decide (x = p)); simpl.
    + split; [intros [? _]; congruence | lia].
    + rewrite IH. split; [intros [_ ?]; assumption | intros ?; split; congruence].
Qed.

(** X2.  [ConnectPeer] does not look for the peer in the list: every call
    adds one occurrence.  A [DisconnectPeer] that follows takes one
    occurrence away again, so it restores the state when the peer was new
    and leaves a peer connected before still in the list. *)
Theorem connect_then_disconnect (cm : CM.t) (p : Z) :
  occurrences p (CM.peerIds (ConnectPeer cm p)) = occurrences p (CM.peerIds cm) + 1 /\
  exists cm',
    DisconnectPeer (ConnectPeer cm p) p = Some cm' /\
    occurrences p (CM.peerIds cm') = occurrences p (CM.peerIds cm) /\
    len (CM.peerIds cm') = len (CM.peerIds cm) /\
    (p ∉ CM.peerIds cm -> cm' = cm) /\
    (p ∈ CM.peerIds cm -> p ∈ CM.peerIds cm').
Proof.
  assert (Hone : occurrences p [p] = 1).
  { unfold occurrences, len. rewrite filter_cons. destruct (decide (p = p)); [| congruence].
    reflexivity. }
  split.
  { unfold ConnectPeer. simpl. rewrite occurrences_app, Hone. reflexivity. }
  destruct (decide (p ∈ CM.peerIds cm)) as [Hin | Hnin].
  - apply list_elem_of_split_l in Hin as [l1 [l2 [Hl Hp]]].
    exists (set_peerIds (l1 ++ l2 ++ [p]) (ConnectPeer cm p)).
    split.
    { apply DisconnectPeer_first; [| exact Hp].
      unfold ConnectPeer. simpl. rewrite Hl, <- app_assoc. reflexivity. }
    simpl. rewrite Hl.
    assert (Hone' : occurrences p (p :: l2) = 1 + occurrences p l2).
    { change (p :: l2) with ([p] ++ l2). rewrite occurrences_app, Hone. reflexivity. }
    split; [rewrite !occurrences_app, Hone, Hone'; lia |].
    split; [rewrite !len_app; unfold len; simpl; lia |].
    split; [intros Hn; exfalso; apply Hn; rewrite elem_of_app; right; left |].
    intros _. rewrite !elem_of_app. right. right. left.
  - exists cm. split.
    { rewrite (DisconnectPeer_first (ConnectPeer cm p) p (CM.peerIds cm) []
                 eq_refl Hnin).
      rewrite app_nil_r.
      change (set_peerIds (CM.peerIds cm) (ConnectPeer cm p))
        with (set_peerIds (CM.peerIds cm) cm).
      rewrite set_peerIds_same. reflexivity. }
    split; [reflexivity |]. split; [reflexivity |]. split; [reflexivity | contradiction].
Qed.

(** ** Becoming leader *)

Lemma initLeaderIndexes_spec (ps : list Z) : forall cm : CM.t,
  let r := fold_left (fun c p =>
               CM.set_matchIndex (<[p := -1]> (CM.matchIndex c))
                 (CM.set_nextIndex (<[p := len (CM.log c)]> (CM.nextIndex c)) c))
             ps cm in
  r = CM.set_matchIndex (CM.matchIndex r) (CM.set_nextIndex (CM.nextIndex r) cm) /\
  forall p,
    (p ∈ ps -> CM.nextIndex r !! p = Some (len (CM.log cm)) /\
               CM.matchIndex r !! p = Some (-1)) /\
    (p ∉ ps -> CM.nextIndex r !! p = CM.nextIndex cm !! p /\
               CM.matchIndex r !! p = CM.matchIndex cm !! p).
Proof.
  induction ps as [|a ps IH]; intros cm; cbn zeta.
  - simpl. split; [destruct cm; reflexivity |]. intros p. split.
    + intros H. apply elem_of_nil in H. contradiction.
    + intros _. split; reflexivity.
  - simpl.
    set (cm1 := CM.set_matchIndex (<[a := -1]> (CM.matchIndex cm))
                  (CM.set_nextIndex (<[a := len (CM.log cm)]> (CM.nextIndex cm)) cm)).
    destruct (IH cm1) as [Hshape Hidx]. cbn zeta in Hshape, Hidx.
    split; [rewrite Hshape at 1; reflexivity |].
    intros p. destruct (Hidx p) as [Hin Hnin]. split.
    + intros Hp. destruct (decide (p ∈ ps)) as [Hps | Hps]; [exact (Hin Hps) |].
      apply elem_of_cons in Hp as [-> | Hp]; [| contradiction].
      destruct (Hnin Hps) as [-> ->]. subst cm1. simpl.
      rewrite !lookup_insert_eq. split; reflexivity.
    + intros Hp. apply not_elem_of_cons in Hp as [Hne Hp].
      destruct (Hnin Hp) as [-> ->]. subst cm1. simpl.
      rewrite !lookup_insert_ne by congruence. split; reflexivity.
Qed.

(** X3.  [startLeader] makes the node Leader and, for every peer of
    [peerIds], sets [nextIndex] to the log length and [matchIndex] to -1.
    It changes nothing else: term, vote, log and commit index stay, and the
    entries of the two maps for ids outside [peerIds] are kept as they
    were. *)
Theorem startLeader_initialises_indexes (cm : CM.t) :
  exists cm',
    startLeader cm = (cm', [EvResume; EvGoHeartbeats]) /\
    cm' = CM.set_matchIndex (CM.matchIndex cm')
            (CM.set_nextIndex (CM.nextIndex cm') (CM.set_state Leader cm)) /\
    forall p,
      (p ∈ CM.peerIds cm ->
       goGet (CM.nextIndex cm') p = len (CM.log cm) /\
       goGet (CM.matchIndex cm') p = -1) /\
      (p ∉ CM.peerIds cm ->
       CM.nextIndex cm' !! p = CM.nextIndex cm !! p /\
       CM.matchIndex cm' !! p = CM.matchIndex cm !! p).
Proof.
  exists (initLeaderIndexes (CM.set_state Leader cm)).
  split; [reflexivity |]. unfold initLeaderIndexes.
  destruct (initLeaderIndexes_spec (CM.peerIds (CM.set_state Leader cm))
              (CM.set_state Leader cm)) as [Hshape Hidx].
  cbn zeta in Hshape, Hidx. split; [exact Hshape |].
  intros p. destruct (Hidx p) as [Hin Hnin]. split.
  - intros Hp. destruct (Hin Hp) as [Hn Hm]. unfold goGet.
    rewrite Hn, Hm. split; reflexivity.
  - exact Hnin.
Qed.

Lemma startLeader_keeps (cm : CM.t) :
  CM.state (startLeader cm).1 = Leader /\
  CM.currentTerm (startLeader cm).1 = CM.currentTerm cm /\
  CM.votedFor (startLeader cm).1 = CM.votedFor cm /\
  CM.log (startLeader cm).1 = CM.log cm /\
  CM.peerIds (startLeader cm).1 = CM.peerIds cm.
Proof.
  unfold startLeader, initLeaderIndexes. simpl.
  destruct (initLeaderIndexes_spec (CM.peerIds cm) (CM.set_state Leader cm))
    as [Hshape _]. cbn zeta in Hshape. simpl in Hshape.
  rewrite Hshape. repeat split.
Qed.

(** X4.  [Resume] starts an election only on a Follower: the node becomes
    Candidate for the next term with a vote for itself.  On every other
    node, a Candidate, a Leader and also a Dead one, it makes the node
    Leader for its current term without any vote, and keeps term, vote and
    log. *)
Theorem resume_makes_non_follower_leader (cm : CM.t) (now : Z) :
  (CM.state cm = Follower ->
   (Resume cm now).2 = [] /\
   CM.state (Resume cm now).1 = Candidate /\
   CM.currentTerm (Resume cm now).1 = wrapInt (CM.currentTerm cm + 1) /\
   CM.votedFor (Resume cm now).1 = CM.id cm /\
   CM.log (Resume cm now).1 = CM.log cm) /\
  (CM.state cm <> Follower ->
   (Resume cm now).2 = [EvResume; EvGoHeartbeats] /\
   CM.state (Resume cm now).1 = Leader /\
   CM.currentTerm (Resume cm now).1 = CM.currentTerm cm /\
   CM.votedFor (Resume cm now).1 = CM.votedFor cm /\
   CM.log (Resume cm now).1 = CM.log cm).
Proof.
  unfold Resume. split; intros Hst.
  - rewrite Hst. simpl. repeat split.
  - rewrite (proj2 (CMState_eqb_neq _ _) Hst).
    split; [reflexivity |].
    destruct (startLeader_keeps cm) as (H1 & H2 & H3 & H4 & _). auto.
Qed.

(** ** Peers that join a leader *)

(** X5.  The majority count reads [matchIndex] with Go's zero default: a
    peer added by [ConnectPeer] that has no entry in [matchIndex] (it joined
    after the election) is counted as holding every index up to 0, and as
    holding no index above 0. *)
Theorem joined_peer_counts_for_index_zero (cm : CM.t) (q i : Z) :
  CM.matchIndex cm !! q = None ->
  matchCount (ConnectPeer cm q) i = matchCount cm i + (if i <=? 0 then 1 else 0).
Proof.
  intros Hq.
  assert (Hg : goGet (CM.matchIndex cm) q = 0) by (unfold goGet; rewrite Hq; reflexivity).
  rewrite !matchCount_filter.
  change (CM.matchIndex (ConnectPeer cm q)) with (CM.matchIndex cm).
  change (CM.peerIds (ConnectPeer cm q)) with (CM.peerIds cm ++ [q]).
  rewrite filter_app, len_app, filter_cons, filter_nil, Hg.
  destruct (decide (i <= 0)); destruct (Z.leb_spec i 0); try lia;
    unfold len; simpl; lia.
Qed.

Lemma joined_peer_counts_for_index_zero_witness :
  CM.matchIndex leaderOneEntry !! 4 = None /\
  matchCount (ConnectPeer leaderOneEntry 4) 0 = matchCount leaderOneEntry 0 + 1.
Proof.
  assert (H : CM.matchIndex leaderOneEntry !! 4 = None) by reflexivity.
  split; [exact H |].
  exact (joined_peer_counts_for_index_zero leaderOneEntry 4 0 H).
Defined.

(** ** Terms *)

Lemma initLeaderIndexes_currentTerm (cm : CM.t) :
  CM.currentTerm (initLeaderIndexes cm) = CM.currentTerm cm.
Proof.
  unfold initLeaderIndexes.
  destruct (initLeaderIndexes_spec (CM.peerIds cm) cm) as [Hshape _].
  cbn zeta in Hshape. rewrite Hshape. reflexivity.
Qed.

Lemma advanceLoop_currentTerm (n : nat) : forall (i : Z) (cm cm' : CM.t),
  advanceLoop n i cm = Some cm' -> CM.currentTerm cm' = CM.currentTerm cm.
Proof.
  induction n as [|n IH]; intros i cm cm' H; simpl in H.
  - injection H as <-. reflexivity.
  - destruct (advanceStep cm i) as [cm1|] eqn:Hs; simpl in H; [| discriminate].
    rewrite (IH _ _ _ H). unfold advanceStep in Hs.
    destruct (index (CM.log cm) i) as [e|]; simpl in Hs; [| discriminate].
    injection Hs as <-.
    destruct (_ =? _); [destruct (_ >? _) |]; reflexivity.
Qed.

(** [appendMatched] writes the log and the commit index only. *)
Lemma appendMatched_frame cm order args cm' evs :
  appendMatched cm order args = Some (cm', evs) ->
  cm' = CM.set_commitIndex (CM.commitIndex cm') (CM.set_log (CM.log cm') cm).
Proof.
  unfold appendMatched. intros H.
  destruct (findInsertion _ _ _ _) as [[li ni]|]; simpl in H; [| discriminate].
  match type of H with
  | (?m ≫= _) = _ => destruct m as [[cm1 evs1]|] eqn:Hm; simpl in H; [| discriminate]
  end.
  assert (H1 : exists l, cm1 = CM.set_log l cm).
  { destruct (ni <? _).
    - destruct (slice (CM.log cm) _ _); simpl in Hm; [| discriminate].
      destruct (slice (AppendEntriesArgs.Entries args) _ _); simpl in Hm;
        [| discriminate].
      destruct (persistToStorage _ _); simpl in Hm; [| discriminate].
      injection Hm as <- _. eauto.
    - injection Hm as <- _. exists (CM.log cm). destruct cm; reflexivity. }
  destruct H1 as [l ->].
  destruct (_ >? _); injection H as <- _; simpl; [reflexivity |].
  destruct cm; reflexivity.
Qed.

(** X6.  The three handlers that see a term from another node adopt it
    when it is larger and never lower their own: after [RequestVote] and
    [AppendEntries] on a node that is not Dead, and after the leader's
    handling of an AppendEntries reply, [currentTerm] is the maximum of its
    old value and the term received.  A Dead node keeps its term. *)
Theorem handlers_adopt_larger_term :
  (forall cm now args reply0 cm' reply evs,
     RequestVote cm now args reply0 = Some (cm', reply, evs) ->
     CM.currentTerm cm' =
       if CMState_eqb (CM.state cm) Dead then CM.currentTerm cm
       else Z.max (CM.currentTerm cm) (RequestVoteArgs.Term args)) /\
  (forall cm now order args reply0 cm' reply evs,
     AppendEntries cm now order args reply0 = Some (cm', reply, evs) ->
     CM.currentTerm cm' =
       if CMState_eqb (CM.state cm) Dead then CM.currentTerm cm
       else Z.max (CM.currentTerm cm) (AppendEntriesArgs.Term args)) /\
  (forall cm savedCurrentTerm peerId ni entries reply cm' evs,
     leaderOnAEReply cm savedCurrentTerm peerId ni entries reply = Some (cm', evs) ->
     CM.currentTerm cm' = Z.max (CM.currentTerm cm) (AppendEntriesReply.Term reply)).
Proof.
  split; [| split].
  - intros cm now args reply0 cm' reply evs H.
    unfold RequestVote, RequestVote_enter, RequestVote_decide in H.
    destruct (CMState_eqb _ Dead); [injection H as <- _ _; reflexivity |].
    destruct (lastLogIndexAndTerm cm) as [[li lt]|]; simpl in H; [| discriminate].
    set (cm1 := if _ >? _ then _ else cm) in H.
    assert (H1 : CM.currentTerm cm1 =
                 Z.max (CM.currentTerm cm) (RequestVoteArgs.Term args)).
    { subst cm1. destruct (Z.gtb_spec (RequestVoteArgs.Term args) (CM.currentTerm cm));
        simpl; lia. }
    destruct (if negb _ then _ else _); simpl in H; [| discriminate].
    destruct (_ && _ && _).
    + destruct (_ =? 0); simpl in H; [discriminate |].
      injection H as <- _ _. exact H1.
    + simpl in H. injection H as <- _ _. exact H1.
  - intros cm now order args reply0 cm' reply evs H.
    unfold AppendEntries in H.
    destruct (CMState_eqb _ Dead); [injection H as <- _ _; reflexivity |].
    set (cm1 := if _ >? _ then _ else cm) in H.
    assert (H1 : CM.currentTerm cm1 =
                 Z.max (CM.currentTerm cm) (AppendEntriesArgs.Term args)).
    { subst cm1. destruct (Z.gtb_spec (AppendEntriesArgs.Term args) (CM.currentTerm cm));
        simpl; lia. }
    destruct (Z.eqb_spec (AppendEntriesArgs.Term args) (CM.currentTerm cm1)) as [Heq|Hne];
      [| injection H as <- _ _; exact H1].
    set (cm2 := if negb _ then _ else cm1) in H.
    assert (H2 : CM.currentTerm cm2 = CM.currentTerm cm1).
    { subst cm2. destruct (negb _); simpl; congruence. }
    set (cm3 := CM.set_electionResetEvent now cm2) in H.
    destruct (prevMatches cm3 args) as [[|]|]; simpl in H; [| | discriminate].
    + destruct (appendMatched cm3 order args) as [[cm4 evs4]|] eqn:Ha; simpl in H;
        [| discriminate].
      injection H as <- _ _. rewrite <- H1, <- H2.
      rewrite (appendMatched_frame _ _ _ _ _ Ha). reflexivity.
    + destruct (conflictHints cm3 args) as [[ci ct]|]; simpl in H; [| discriminate].
      injection H as <- _ _. simpl. congruence.
  - intros cm s p ni entries reply cm' evs H. unfold leaderOnAEReply in H.
    destruct (Z.gtb_spec (AppendEntriesReply.Term reply) (CM.currentTerm cm)).
    { injection H as <- _. simpl. lia. }
    rewrite Z.max_l by lia.
    destruct (_ && _); [| injection H as <- _; reflexivity].
    destruct (AppendEntriesReply.Success reply).
    + destruct (advanceCommitIndex _) as [cm3|] eqn:Hadv; simpl in H; [| discriminate].
      assert (cm' = cm3) by (destruct (negb _); congruence). subst cm3.
      unfold advanceCommitIndex in Hadv.
      rewrite (advanceLoop_currentTerm _ _ _ _ Hadv). reflexivity.
    + destruct (_ >=? _).
      * destruct (lastIndexOfTerm _ _ _) as [li|]; simpl in H; [| discriminate].
        destruct (li >=? 0); injection H as <- _; reflexivity.
      * injection H as <- _; reflexivity.
Qed.

Lemma onVoteReply_result (cm : CM.t) (savedCurrentTerm votesReceived peerId : Z)
    (reply : RequestVoteReply.t) :
  let cm' := (onVoteReply cm savedCurrentTerm votesReceived peerId reply).1.1 in
  (CM.state cm = Candidate /\ savedCurrentTerm < RequestVoteReply.Term reply /\
   CM.currentTerm cm' = RequestVoteReply.Term reply /\
   CM.state cm' = Follower /\ CM.votedFor cm' = -1) \/
  ((CM.state cm <> Candidate \/ RequestVoteReply.Term reply <= savedCurrentTerm) /\
   CM.currentTerm cm' = CM.currentTerm cm /\ CM.votedFor cm' = CM.votedFor cm).
Proof.
  cbn zeta. unfold onVoteReply.
  change (CM.state (CM.set_loadLevelMap _ cm)) with (CM.state cm).
  destruct (CMState_eqb (CM.state cm) Candidate) eqn:Hst; simpl.
  - apply CMState_eqb_eq in Hst.
    destruct (Z.gtb_spec (RequestVoteReply.Term reply) savedCurrentTerm) as [Hgt|Hle].
    + left. simpl. repeat split; [exact Hst | lia].
    + right. split; [right; exact Hle |].
      destruct (_ =? _); [| split; reflexivity].
      destruct (RequestVoteReply.VoteGranted reply); [| split; reflexivity].
      destruct (_ >? _); [| split; reflexivity].
      destruct (startLeader_keeps
                  (CM.set_loadLevelMap
                     (<[peerId := RequestVoteReply.LoadLevel reply]> (CM.loadLevelMap cm))
                     cm)) as (_ & H2 & H3 & _).
      unfold startLeader in *. simpl in *. split; assumption.
  - apply CMState_eqb_neq in Hst. right. split; [left; exact Hst | split; reflexivity].
Qed.

(** X7.  The tally of an election compares the term of a reply with the
    term saved when that election started, not with the current term.  So
    [onVoteReply] lowers [currentTerm] exactly when the node is Candidate
    again at a later term and the reply of an earlier election carries a
    term strictly between the saved one and the current one; in every other
    case the term stays or rises. *)
Theorem late_vote_reply_can_lower_term
    (cm : CM.t) (savedCurrentTerm votesReceived peerId : Z)
    (reply : RequestVoteReply.t) :
  let cm' := (onVoteReply cm savedCurrentTerm votesReceived peerId reply).1.1 in
  (CM.currentTerm cm' < CM.currentTerm cm <->
   CM.state cm = Candidate /\
   savedCurrentTerm < RequestVoteReply.Term reply < CM.currentTerm cm) /\
  (CM.currentTerm cm' <> CM.currentTerm cm ->
   CM.currentTerm cm' = RequestVoteReply.Term reply /\
   CM.state cm' = Follower /\ CM.votedFor cm' = -1).
Proof.
  cbn zeta.
  destruct (onVoteReply_result cm savedCurrentTerm votesReceived peerId reply)
    as [(Hst & Hgt & Ht & Hs & Hv) | (Hcase & Ht & Hv)]; cbn zeta in *.
  - rewrite Ht. split.
    + split; [intros; split; [exact Hst | lia] | intros [_ ?]; lia].
    + intros _. repeat split; assumption.
  - rewrite Ht. split.
    + split; [lia |]. intros [Hst Hr]. destruct Hcase; [contradiction | lia].
    + intros H. contradiction.
Qed.

(** ** Votes *)

Lemma RequestVote_granted_state cm now args reply0 cm' reply evs :
  RequestVote cm now args reply0 = Some (cm', reply, evs) ->
  CM.state cm <> Dead ->
  RequestVoteReply.VoteGranted reply = true ->
  CM.state cm' <> Dead /\
  CM.currentTerm cm' = RequestVoteArgs.Term args /\
  CM.votedFor cm' = RequestVoteArgs.CandidateId args.
Proof.
  intros H Hst Hg. unfold RequestVote, RequestVote_enter, RequestVote_decide in H.
  rewrite (proj2 (CMState_eqb_neq _ _) Hst) in H.
  destruct (lastLogIndexAndTerm cm) as [[li lt]|]; simpl in H; [| discriminate].
  set (cm1 := if _ >? _ then _ else cm) in H.
  assert (H1 : CM.state cm1 <> Dead).
  { subst cm1. destruct (_ >? _); [discriminate | exact Hst]. }
  destruct (if negb _ then _ else _); simpl in H; [| discriminate].
  destruct (Z.eqb_spec (CM.currentTerm cm1) (RequestVoteArgs.Term args)) as [Ht|Ht];
    simpl in H.
  - destruct (_ && _).
    + destruct (_ =? 0); simpl in H; [discriminate |].
      injection H as <- <- _. simpl. auto.
    + simpl in H. injection H as _ <- _. discriminate.
  - injection H as _ <- _. discriminate.
Qed.

Lemma RequestVote_refused cm now args reply0 :
  CM.state cm <> Dead ->
  RequestVoteArgs.Term args <= CM.currentTerm cm ->
  CM.votedFor cm <> -1 ->
  CM.votedFor cm <> RequestVoteArgs.CandidateId args ->
  RequestVoteArgs.LoadLevel args <> 0 ->
  exists evs,
    RequestVote cm now args reply0 =
    Some (cm, RequestVoteReply.mk (CM.currentTerm cm) false
                (RequestVoteReply.LoadLevel reply0), evs).
Proof.
  intros Hst Ht Hv1 Hv2 Hl. unfold RequestVote, RequestVote_enter.
  rewrite (proj2 (CMState_eqb_neq _ _) Hst).
  destruct (lastLogIndexAndTerm_spec cm) as [[li lt] [-> _]]. simpl.
  destruct (Z.gtb_spec (RequestVoteArgs.Term args) (CM.currentTerm cm)); [lia |].
  assert (Hd : exists evs,
            (if negb (CMState_eqb (CM.state cm) Candidate)
             then runVoteDelay (RequestVoteArgs.LoadLevel args)
             else Some []) = Some evs).
  { unfold runVoteDelay. rewrite (proj2 (Z.eqb_neq _ _) Hl).
    destruct (negb _); eauto. }
  destruct Hd as [evs ->]. simpl. unfold RequestVote_decide.
  rewrite (proj2 (Z.eqb_neq _ _) Hv1), (proj2 (Z.eqb_neq _ _) Hv2).
  rewrite andb_false_r. simpl. eauto.
Qed.

(** A second request handled right after a grant, on the state the grant
    left: the same term, another candidate. *)
Lemma RequestVote_second_refused
    (cm cm1 : CM.t) (now now2 : Z) (a1 a2 : RequestVoteArgs.t)
    (r0 r2 rep1 : RequestVoteReply.t) (evs1 : list Event) :
  CM.state cm <> Dead ->
  RequestVote cm now a1 r0 = Some (cm1, rep1, evs1) ->
  RequestVoteReply.VoteGranted rep1 = true ->
  RequestVoteArgs.CandidateId a1 <> -1 ->
  RequestVoteArgs.Term a2 = RequestVoteArgs.Term a1 ->
  RequestVoteArgs.CandidateId a2 <> RequestVoteArgs.CandidateId a1 ->
  RequestVoteArgs.LoadLevel a2 <> 0 ->
  exists rep2 evs2,
    RequestVote cm1 now2 a2 r2 = Some (cm1, rep2, evs2) /\
    RequestVoteReply.VoteGranted rep2 = false /\
    CM.votedFor cm1 = RequestVoteArgs.CandidateId a1.
Proof.
  intros Hst H1 Hg Hc1 Ht Hc2 Hl.
  destruct (RequestVote_granted_state _ _ _ _ _ _ _ H1 Hst Hg) as (Hst1 & Ht1 & Hv1).
  destruct (RequestVote_refused cm1 now2 a2 r2) as [evs2 H2];
    [exact Hst1 | lia | congruence | congruence | exact Hl |].
  eexists _, evs2. split; [exact H2 |]. split; [reflexivity | exact Hv1].
Qed.

(** ** Placement selector *)

Lemma minLoadStep_inv (m : gmap Z Z) (pre : list (Z * Z)) (acc : list Z * Z * Z)
    (kv : Z * Z) :
  is_Some (m !! kv.1) ->
  minLoadInv m pre acc -> minLoadInv m (pre ++ [kv]) (minLoadStep m acc kv).
Proof.
  intros Hkey Hinv. destruct acc as [[peers last] low]. destruct kv as [p l].
  simpl in Hkey. unfold minLoadStep.
  assert (Hnew : forall kv', kv' ∈ pre ++ [(p, l)] <-> kv' ∈ pre \/ kv' = (p, l)).
  { intros kv'. rewrite elem_of_app, list_elem_of_singleton. reflexivity. }
  assert (HB : (forall kv', kv' ∈ pre -> l <= kv'.2) ->
               (is_Some (m !! 0) -> l <= 11) ->
               minLoadInv m (pre ++ [(p, l)]) ([p], p, l)).
  { intros Hmin H0. right. split; [discriminate |]. split; [exact Hkey |].
    split; [| split; [| exact H0]].
    - intros q Hq. apply list_elem_of_singleton in Hq as ->. apply Hnew. right. reflexivity.
    - intros kv' Hkv. apply Hnew in Hkv as [Hkv | ->]; [apply Hmin, Hkv | simpl; lia]. }
  destruct Hinv as [(Hp & Hlow & Hall & Hlast) | (Hp & Hlast & Hmem & Hmin & H0)].
  - subst peers low.
    destruct (bool_decide (is_Some (m !! last))) eqn:Hok; simpl.
    + destruct (Z.ltb_spec l 11) as [Hlt | Hge].
      * apply HB; [| lia]. intros kv' Hkv. specialize (Hall _ Hkv). lia.
      * apply bool_decide_eq_true in Hok.
        destruct (Z.eqb_spec l 11) as [-> | Hne].
        -- simpl. apply HB; [| lia]. intros kv' Hkv. specialize (Hall _ Hkv). lia.
        -- left. split; [reflexivity |]. split; [reflexivity |]. split.
           ++ intros kv' Hkv. apply Hnew in Hkv as [Hkv | ->];
                [apply Hall, Hkv | simpl; lia].
           ++ right. split; [| exact Hkey].
              destruct Hlast as [[_ ->] | [H0 _]]; assumption.
    + apply bool_decide_eq_false in Hok.
      destruct Hlast as [[-> ->] | [_ Hl]]; [| contradiction].
      apply HB; [| contradiction].
      intros kv' Hkv. apply elem_of_nil in Hkv. contradiction.
  - rewrite (bool_decide_eq_true_2 _ Hlast). simpl.
    destruct (Z.ltb_spec l low) as [Hlt | Hge].
    + apply HB; [| intros H; specialize (H0 H); lia].
      intros kv' Hkv. specialize (Hmin _ Hkv). lia.
    + destruct (Z.eqb_spec l low) as [-> | Hne].
      * right. split; [destruct peers; discriminate |]. split; [exact Hkey |].
        split; [| split; [| exact H0]].
        -- intros q Hq. apply Hnew. apply elem_of_app in Hq as [Hq | Hq].
           ++ left. apply Hmem, Hq.
           ++ apply list_elem_of_singleton in Hq as ->. right. reflexivity.
        -- intros kv' Hkv. apply Hnew in Hkv as [Hkv | ->];
             [apply Hmin, Hkv | simpl; lia].
      * right. split; [exact Hp |]. split; [exact Hkey |].
        split; [| split; [| exact H0]].
        -- intros q Hq. apply Hnew. left. apply Hmem, Hq.
        -- intros kv' Hkv. apply Hnew in Hkv as [Hkv | ->];
             [apply Hmin, Hkv | simpl; lia].
Qed.

Lemma minLoadFold_inv (m : gmap Z Z) (rest : list (Z * Z)) :
  forall pre acc,
  (forall kv, kv ∈ rest -> is_Some (m !! kv.1)) ->
  minLoadInv m pre acc ->
  minLoadInv m (pre ++ rest) (fold_left (minLoadStep m) rest acc).
Proof.
  induction rest as [|kv rest IH]; intros pre acc Hkeys Hinv; simpl.
  - rewrite app_nil_r. exact Hinv.
  - rewrite (cons_middle kv pre rest), app_assoc. apply IH.
    + intros kv' Hkv. apply Hkeys. right. exact Hkv.
    + apply minLoadStep_inv; [apply Hkeys; left | exact Hinv].
Qed.

Lemma minLoadLevelMap_inv (cm : CM.t) (order : list (Z * Z)) :
  (forall kv, kv ∈ order -> is_Some (CM.loadLevelMap cm !! kv.1)) ->
  minLoadInv (CM.loadLevelMap cm) order
    (fold_left (minLoadStep (CM.loadLevelMap cm)) order ([], 0, 11)).
Proof.
  intros Hkeys.
  apply (minLoadFold_inv (CM.loadLevelMap cm) order [] ([], 0, 11) Hkeys).
  left. split; [reflexivity |]. split; [reflexivity |]. split.
  - intros kv Hkv. apply elem_of_nil in Hkv. contradiction.
  - left. split; reflexivity.
Qed.

(** X9.  Placement among the least loaded.  [order] lists the entries of
    the load map as [range] visits them and [rand.Intn] answers within its
    range.  Unless key 0 is in the map and every level exceeds 11,
    [minLoadLevelMap] on a non-empty map returns a peer of the map whose
    level is the least of all levels. *)
Theorem selector_returns_least_loaded
    (cm : CM.t) (order : list (Z * Z)) (intn : Z -> Z) :
  order <> [] ->
  (forall p l, (p, l) ∈ order -> CM.loadLevelMap cm !! p = Some l) ->
  (is_Some (CM.loadLevelMap cm !! 0) -> exists kv, kv ∈ order /\ kv.2 <= 11) ->
  (forall n, 0 < n -> 0 <= intn n < n) ->
  exists chosenId l,
    minLoadLevelMap cm order intn = Some chosenId /\
    CM.loadLevelMap cm !! chosenId = Some l /\
    (chosenId, l) ∈ order /\
    forall p l', (p, l') ∈ order -> l <= l'.
Proof.
  intros Hne Hmap Hlow Hintn.
  assert (Hkeys : forall kv, kv ∈ order -> is_Some (CM.loadLevelMap cm !! kv.1)).
  { intros [p l] Hkv. simpl. rewrite (Hmap _ _ Hkv). eauto. }
  pose proof (minLoadLevelMap_inv cm order Hkeys) as Hinv.
  unfold minLoadLevelMap.
  destruct (fold_left _ order _) as [[peers last] low].
  destruct Hinv as [(_ & _ & Hall & Hlast) | (Hp & _ & Hmem & Hmin & _)].
  - exfalso. destruct Hlast as [[Hnil _] | [H0 _]]; [contradiction |].
    destruct (Hlow H0) as [kv [Hkv Hle]]. specialize (Hall _ Hkv). lia.
  - assert (Hpos : 0 < len peers).
    { unfold len. destruct peers; [contradiction | simpl; lia]. }
    destruct (Z.leb_spec (len peers) 0); [lia |].
    destruct (index_in_range peers (intn (len peers)) (Hintn _ Hpos)) as [c Hc].
    exists c, low. split; [exact Hc |].
    assert (Hin : c ∈ peers).
    { apply index_Some in Hc as [_ Hc]. apply list_elem_of_lookup. eauto. }
    specialize (Hmem _ Hin).
    split; [exact (Hmap _ _ Hmem) |]. split; [exact Hmem |].
    intros p l' Hpl. exact (Hmin _ Hpl).
Qed.

Lemma selector_returns_least_loaded_witness :
  (loadOrder123 <> [] /\
   (forall n, 0 < n -> 0 <= intnZero n < n)) /\
  exists chosenId l,
    minLoadLevelMap leaderOneEntry loadOrder123 intnZero = Some chosenId /\
    CM.loadLevelMap leaderOneEntry !! chosenId = Some l /\
    forall p l', (p, l') ∈ loadOrder123 -> l <= l'.
Proof.
  assert (H1 : loadOrder123 <> []) by discriminate.
  assert (H2 : forall p l, (p, l) ∈ loadOrder123 ->
                           CM.loadLevelMap leaderOneEntry !! p = Some l).
  { intros p l H. unfold loadOrder123 in H.
    repeat (apply elem_of_cons in H as [H | H]; [injection H as -> ->; reflexivity |]).
    apply elem_of_nil in H. contradiction. }
  assert (H3 : is_Some (CM.loadLevelMap leaderOneEntry !! 0) ->
               exists kv, kv ∈ loadOrder123 /\ kv.2 <= 11).
  { intros _. exists (1, 10). split; [left | simpl; lia]. }
  assert (H4 : forall n, 0 < n -> 0 <= intnZero n < n).
  { intros n Hn. unfold intnZero. lia. }
  split; [auto |].
  destruct (selector_returns_least_loaded leaderOneEntry loadOrder123 intnZero
              H1 H2 H3 H4) as [c [l [Hc [Hl [_ Hmin]]]]].
  exists c, l. auto.
Defined.

(** X10.  When the placement selector panics.  With [order] listing the
    entries of the load map and [rand.Intn] answering within its range,
    [minLoadLevelMap] panics (in [rand.Intn(0)]) exactly when the map is
    empty, or key 0 is in the map and every level exceeds 11. *)
Theorem selector_panics_iff
    (cm : CM.t) (order : list (Z * Z)) (intn : Z -> Z) :
  (forall p l, (p, l) ∈ order -> CM.loadLevelMap cm !! p = Some l) ->
  (forall n, 0 < n -> 0 <= intn n < n) ->
  (minLoadLevelMap cm order intn = None <->
   order = [] \/
   (is_Some (CM.loadLevelMap cm !! 0) /\ forall kv, kv ∈ order -> 11 < kv.2)).
Proof.
  intros Hmap Hintn.
  assert (Hkeys : forall kv, kv ∈ order -> is_Some (CM.loadLevelMap cm !! kv.1)).
  { intros [p l] Hkv. simpl. rewrite (Hmap _ _ Hkv). eauto. }
  pose proof (minLoadLevelMap_inv cm order Hkeys) as Hinv.
  unfold minLoadLevelMap.
  destruct (fold_left _ order _) as [[peers last] low].
  destruct Hinv as [(-> & _ & Hall & Hlast) | (Hp & _ & Hmem & Hmin & H0)].
  - split; [| reflexivity]. intros _.
    destruct Hlast as [[-> _] | [H0 _]]; [left; reflexivity | right].
    split; assumption.
  - assert (Hpos : 0 < len peers).
    { unfold len. destruct peers; [contradiction | simpl; lia]. }
    destruct (Z.leb_spec (len peers) 0); [lia |].
    destruct (index_in_range peers (intn (len peers)) (Hintn _ Hpos)) as [c Hc].
    rewrite Hc. split; [discriminate |].
    assert (Hex : exists q, (q, low) ∈ order).
    { destruct peers as [|q peers]; [contradiction |]. exists q. apply Hmem. left. }
    destruct Hex as [q Hq].
    intros [-> | [Hz Hall]].
    + apply elem_of_nil in Hq. contradiction.
    + specialize (Hall _ Hq). specialize (H0 Hz). simpl in Hall. lia.
Qed.

Lemma selector_panics_iff_witness :
  (forall n, 0 < n -> 0 <= intnZero n < n) /\
  minLoadLevelMap overloaded overloadedOrder intnZero = None.
Proof.
  assert (H1 : forall p l, (p, l) ∈ overloadedOrder ->
                           CM.loadLevelMap overloaded !! p = Some l).
  { intros p l H. unfold overloadedOrder in H.
    repeat (apply elem_of_cons in H as [H | H]; [injection H as -> ->; reflexivity |]).
    apply elem_of_nil in H. contradiction. }
  assert (H2 : forall n, 0 < n -> 0 <= intnZero n < n).
  { intros n Hn. unfold intnZero. lia. }
  split; [exact H2 |].
  apply (proj2 (selector_panics_iff overloaded overloadedOrder intnZero H1 H2)).
  right. split; [exists 12; reflexivity |].
  intros kv H. unfold overloadedOrder in H.
  repeat (apply elem_of_cons in H as [H | H]; [subst kv; simpl; lia |]).
  apply elem_of_nil in H. contradiction.
Defined.

(** ** Strings *)

Lemma sappend_cons (c : ascii) (s t : string) :
  (String c s ++ t)%string = String c (s ++ t)%string.
Proof. reflexivity. Qed.

Lemma sappend_nil_l (t : string) : ("" ++ t)%string = t.
Proof. reflexivity. Qed.

Lemma length_sappend (s1 s2 : string) :
  String.length (s1 ++ s2) = (String.length s1 + String.length s2)%nat.
Proof.
  induction s1 as [|c s1 IH]; [reflexivity |].
  rewrite sappend_cons. simpl. rewrite IH. reflexivity.
Qed.

Lemma sappend_nil_r (s : string) : (s ++ "")%string = s.
Proof.
  induction s as [|c s IH]; [reflexivity |].
  rewrite sappend_cons, IH. reflexivity.
Qed.

Lemma sappend_assoc (s1 s2 s3 : string) :
  ((s1 ++ s2) ++ s3)%string = (s1 ++ s2 ++ s3)%string.
Proof.
  induction s1 as [|c s1 IH]; [reflexivity |].
  rewrite !sappend_cons, IH. reflexivity.
Qed.

Lemma substring_all (s : string) : String.substring 0 (String.length s) s = s.
Proof. induction s as [|c s IH]; simpl; [reflexivity | rewrite IH; reflexivity]. Qed.

Lemma substring_split (s : string) : forall n : nat,
  (n <= String.length s)%nat ->
  (String.substring 0 n s ++ String.substring n (String.length s - n) s)%string = s.
Proof.
  induction s as [|c s IH]; intros [|n] Hn; simpl in *; try reflexivity; try lia.
  - rewrite sappend_nil_l, substring_all. reflexivity.
  - rewrite sappend_cons, IH by lia. reflexivity.
Qed.

Lemma length_substring (s : string) : forall n m : nat,
  (n + m <= String.length s)%nat -> String.length (String.substring n m s) = m.
Proof.
  induction s as [|c s IH]; intros [|n] [|m] H; simpl in *; try reflexivity; try lia.
  - rewrite IH by lia. reflexivity.
  - apply IH. lia.
  - apply IH. lia.
Qed.

Lemma substring_middle (a w c : string) :
  String.substring (String.length a) (String.length w) (a ++ w ++ c) = w.
Proof.
  induction a as [|x a IH]; [| rewrite sappend_cons; simpl; exact IH].
  rewrite sappend_nil_l. simpl String.length.
  revert c. induction w as [|y w IHw]; intros c.
  - rewrite sappend_nil_l. destruct c; reflexivity.
  - rewrite sappend_cons. simpl. rewrite IHw. reflexivity.
Qed.

Lemma sconcat_app (l1 l2 : list string) :
  sconcat (l1 ++ l2) = (sconcat l1 ++ sconcat l2)%string.
Proof.
  induction l1 as [|w l1 IH]; simpl; [reflexivity |].
  rewrite IH, sappend_assoc. reflexivity.
Qed.

Lemma sconcat_elem (ws : list string) (w : string) :
  w ∈ ws -> exists a c, sconcat ws = (a ++ w ++ c)%string.
Proof.
  induction ws as [|x ws IH]; intros H.
  - apply elem_of_nil in H. contradiction.
  - apply elem_of_cons in H as [-> | H].
    + exists ""%string, (sconcat ws). reflexivity.
    + destruct (IH H) as [a [c Hc]]. exists (x ++ a)%string, c.
      simpl. rewrite Hc, sappend_assoc. reflexivity.
Qed.

Lemma noEndMarker_chunk (mess a c : string) :
  noEndMarker mess -> mess <> (a ++ "END" ++ c)%string.
Proof.
  intros Hno Heq.
  apply (String.index_correct3 0 (String.length a) "END" mess Hno);
    [discriminate | lia |].
  rewrite Heq. apply (substring_middle a "END" c).
Qed.

Lemma sslice_prefix (s : string) (b : Z) :
  0 <= b <= slen s ->
  sslice s 0 b = Some (String.substring 0 (Z.to_nat b) s).
Proof.
  intros H. unfold sslice. destruct (Z.leb_spec 0 b); [| lia].
  destruct (Z.leb_spec b (slen s)); [| lia]. simpl.
  replace (Z.to_nat (b - 0)) with (Z.to_nat b) by lia. reflexivity.
Qed.

Lemma sslice_suffix (s : string) (b : Z) :
  0 <= b <= slen s ->
  sslice s b (slen s) =
  Some (String.substring (Z.to_nat b) (String.length s - Z.to_nat b) s).
Proof.
  intros H. unfold sslice. destruct (Z.leb_spec 0 b); [| lia].
  destruct (Z.leb_spec b (slen s)); [| lia].
  destruct (Z.leb_spec (slen s) (slen s)); [| lia]. simpl.
  replace (Z.to_nat (slen s - b)) with (String.length s - Z.to_nat b)%nat
    by (unfold slen; lia).
  reflexivity.
Qed.

(** ** Framing of the artifact channel *)

Lemma sendLoop_spec (werr : string) (bufSize : Z) :
  0 < bufSize ->
  forall (budget : nat) (mess : string) (written : list string),
  slen mess <= Z.of_nat budget * bufSize ->
  exists ws rest,
    sendLoop budget werr bufSize mess written =
      Some (written ++ ws, inl (rest, (budget - length ws)%nat)) /\
    (sconcat ws ++ rest)%string = mess /\
    (forall w, w ∈ ws -> slen w = bufSize) /\
    slen rest <= bufSize /\
    (0 < slen mess -> 0 < slen rest) /\
    Z.of_nat (length ws) * bufSize + slen rest = slen mess.
Proof.
  intros Hb. induction budget as [|budget IH]; intros mess written Hlen.
  - exists [], mess. simpl.
    destruct (Z.gtb_spec (slen mess) bufSize); [lia |].
    rewrite app_nil_r. split; [reflexivity |]. split; [reflexivity |].
    split; [intros w Hw; apply elem_of_nil in Hw; contradiction |]. lia.
  - cbn [sendLoop].
    destruct (Z.gtb_spec (slen mess) bufSize) as [Hgt | Hle].
    + rewrite sslice_prefix by lia. rewrite sslice_suffix by lia.
      cbn [mbind option_bind].
      set (buf := String.substring 0 (Z.to_nat bufSize) mess).
      set (mess' := String.substring (Z.to_nat bufSize)
                      (String.length mess - Z.to_nat bufSize) mess).
      assert (Hsplit : (buf ++ mess')%string = mess).
      { apply substring_split. unfold slen in *. lia. }
      assert (Hbuf : slen buf = bufSize).
      { unfold slen, buf. rewrite length_substring by (unfold slen in *; lia). lia. }
      assert (Hm' : slen mess' = slen mess - bufSize).
      { unfold slen, mess'. rewrite length_substring by (unfold slen in *; lia).
        unfold slen in *. lia. }
      destruct (IH mess' (written ++ [buf])) as (ws & rest & Hs & Hc & Hall & Hr & Hpos & Hn);
        [lia |].
      exists (buf :: ws), rest. rewrite Hs. split.
      { rewrite <- app_assoc. simpl. reflexivity. }
      split; [simpl; rewrite sappend_assoc, Hc; exact Hsplit |].
      split.
      { intros w Hw. apply elem_of_cons in Hw as [-> | Hw]; [exact Hbuf | apply Hall, Hw]. }
      split; [exact Hr |]. split; [intros _; apply Hpos; lia |].
      simpl length. lia.
    + exists [], mess. rewrite app_nil_r. simpl length.
      rewrite Nat.sub_0_r. split; [reflexivity |]. split; [reflexivity |].
      split; [intros w Hw; apply elem_of_nil in Hw; contradiction |]. lia.
Qed.

Lemma delivered_spec (mess : string) (bufSize : Z) (ws : list string) (rest : string) :
  0 < bufSize ->
  (sconcat ws ++ rest)%string = mess ->
  slen rest <= bufSize ->
  (0 < slen mess -> 0 < slen rest) ->
  Z.of_nat (length ws) * bufSize + slen rest = slen mess ->
  (slen rest <? bufSize) = negb ((0 <? slen mess) && (slen mess mod bufSize =? 0)) /\
  (slen rest = bufSize -> delivered mess bufSize = sconcat ws) /\
  (slen rest < bufSize -> delivered mess bufSize = mess).
Proof.
  intros Hb Hc Hr Hpos Hn.
  assert (Hmod : slen mess mod bufSize = slen rest mod bufSize).
  { rewrite <- Hn, Z.add_comm, Z.mod_add by lia. reflexivity. }
  assert (H0 : 0 <= slen rest) by (unfold slen; lia).
  assert (Hcase : slen rest = bufSize \/ slen rest < bufSize) by lia.
  unfold delivered. destruct Hcase as [Heq | Hlt].
  - assert (Hm : 0 < slen mess) by nia.
    rewrite Hmod, Heq, Z.mod_same by lia.
    destruct (Z.ltb_spec bufSize bufSize); [lia |].
    destruct (Z.ltb_spec 0 (slen mess)); [| lia]. simpl.
    split; [reflexivity |]. split; [| lia]. intros _.
    rewrite <- Hc at 2.
    replace (Z.to_nat (slen mess - bufSize)) with (String.length (sconcat ws)).
    + clear. generalize (sconcat ws). intros s. induction s as [|c s IH].
      * rewrite sappend_nil_l. destruct rest; reflexivity.
      * rewrite sappend_cons. simpl. rewrite IH. reflexivity.
    + assert (Hl : slen mess = slen (sconcat ws) + slen rest).
      { rewrite <- Hc. unfold slen. rewrite length_sappend. lia. }
      unfold slen in *. lia.
  - rewrite Hmod, Z.mod_small by lia.
    destruct (Z.ltb_spec (slen rest) bufSize); [| lia].
    split; [| split; [lia | intros _]].
    + destruct (Z.ltb_spec 0 (slen mess)); simpl; [| reflexivity].
      destruct (Z.eqb_spec (slen rest) 0); [specialize (Hpos ltac:(lia)); lia | reflexivity].
    + destruct (Z.ltb_spec 0 (slen mess)); simpl; [| reflexivity].
      destruct (Z.eqb_spec (slen rest) 0); [specialize (Hpos ltac:(lia)); lia | reflexivity].
Qed.

Lemma Send_result
    (budget : nat) (werr mess : string) (bufSize : Z) :
  0 < bufSize ->
  slen mess / bufSize + 2 <= Z.of_nat budget ->
  exists ws,
    Send budget werr mess bufSize = Some (ws ++ ["END"%string], None) /\
    (forall w, w ∈ ws -> slen w <= bufSize) /\
    sconcat ws = delivered mess bufSize /\
    (delivered mess bufSize = mess <->
     ~ (0 < slen mess /\ slen mess mod bufSize = 0)).
Proof.
  intros Hb Hbudget.
  assert (Hm0 : 0 <= slen mess) by (unfold slen; lia).
  assert (Hdiv : slen mess < (slen mess / bufSize + 1) * bufSize).
  { pose proof (Z.mod_pos_bound (slen mess) bufSize Hb).
    pose proof (Z.div_mod (slen mess) bufSize ltac:(lia)). nia. }
  destruct (sendLoop_spec werr bufSize Hb budget mess [])
    as (ws & rest & Hs & Hc & Hall & Hr & Hpos & Hn); [nia |].
  assert (Hws : Z.of_nat (length ws) <= slen mess / bufSize).
  { apply Z.div_le_lower_bound; [lia |].
    assert (0 <= slen rest) by (unfold slen; lia). nia. }
  destruct (delivered_spec mess bufSize ws rest Hb Hc Hr Hpos Hn)
    as (Hcond & Hfull & Hshort).
  assert (Hiff : delivered mess bufSize = mess <->
                 ~ (0 < slen mess /\ slen mess mod bufSize = 0)).
  { unfold delivered.
    destruct (Z.ltb_spec 0 (slen mess)); destruct (Z.eqb_spec (slen mess mod bufSize) 0);
      simpl; try (split; [intros _; lia | reflexivity]).
    split; [| intros Hn'; exfalso; apply Hn'; split; assumption].
    intros Heq. exfalso.
    assert (Hl : String.length
                   (String.substring 0 (Z.to_nat (slen mess - bufSize)) mess)
                 = Z.to_nat (slen mess - bufSize)).
    { apply length_substring. unfold slen in *. lia. }
    rewrite Heq in Hl. unfold slen in *. lia. }
  unfold Send. rewrite Hs. cbn [mbind option_bind app].
  remember (budget - length ws)%nat as left eqn:Hleft.
  destruct left as [|[|left]]; try lia.
  destruct (Z.ltb_spec (slen rest) bufSize) as [Hlt | Hge].
  - exists (ws ++ [rest]). cbn [connWrite]. split; [reflexivity |].
    split.
    { intros w Hw. apply elem_of_app in Hw as [Hw | Hw].
      - rewrite (Hall _ Hw). lia.
      - apply list_elem_of_singleton in Hw as ->. lia. }
    split; [| exact Hiff].
    rewrite sconcat_app. simpl. rewrite sappend_nil_r, Hc. symmetry. apply Hshort, Hlt.
  - exists ws. cbn [connWrite]. split; [reflexivity |].
    split; [intros w Hw; rewrite (Hall _ Hw); lia |].
    split; [| exact Hiff]. symmetry. apply Hfull. lia.
Qed.

(** X11.  What [Send] writes.  On a connection that accepts the writes,
    [Send] with a positive [bufSize] returns [nil] after writing buffers of
    exactly [bufSize] bytes, then a last shorter one when bytes are left
    (an empty one for an empty message), then the marker [END].  The
    buffers before the marker add up to the message, unless the length of
    the message is a positive multiple of [bufSize]: then the last
    [bufSize] bytes are never written. *)
Theorem send_writes_chunks_then_end
    (budget : nat) (werr mess : string) (bufSize : Z) :
  0 < bufSize ->
  slen mess / bufSize + 2 <= Z.of_nat budget ->
  exists ws,
    Send budget werr mess bufSize = Some (ws ++ ["END"%string], None) /\
    (forall w, w ∈ ws -> slen w <= bufSize) /\
    sconcat ws = delivered mess bufSize /\
    (delivered mess bufSize = mess <->
     ~ (0 < slen mess /\ slen mess mod bufSize = 0)).
Proof. apply Send_result. Qed.

Lemma send_writes_chunks_then_end_witness :
  (0 < 10 /\ slen "0123456789abcdefghij" / 10 + 2 <= Z.of_nat 5) /\
  exists ws,
    Send 5 "broken pipe" "0123456789abcdefghij" 10 = Some (ws ++ ["END"%string], None) /\
    sconcat ws = "0123456789"%string.
Proof.
  assert (H1 : 0 < 10) by lia.
  assert (H2 : slen "0123456789abcdefghij" / 10 + 2 <= Z.of_nat 5) by (vm_compute; discriminate).
  split; [auto |].
  destruct (send_writes_chunks_then_end 5 "broken pipe" "0123456789abcdefghij" 10 H1 H2)
    as [ws [Hs [_ [Hc _]]]].
  exists ws. split; [exact Hs |]. rewrite Hc. reflexivity.
Defined.

Lemma delivered_prefix (mess : string) (bufSize : Z) :
  exists tail, mess = (delivered mess bufSize ++ tail)%string.
Proof.
  unfold delivered. destruct (_ && _).
  - destruct (Nat.le_gt_cases (Z.to_nat (slen mess - bufSize)) (String.length mess)).
    + eexists. symmetry. apply substring_split. assumption.
    + exists ""%string. rewrite sappend_nil_r.
      assert (Hgen : forall (s : string) (n : nat),
                 (String.length s <= n)%nat -> String.substring 0 n s = s).
      { induction s as [|c s IH]; intros [|n] Hn; simpl in *; try reflexivity; try lia.
        rewrite IH by lia. reflexivity. }
      symmetry. apply Hgen. lia.
  - exists ""%string. symmetry. apply sappend_nil_r.
Qed.

Lemma receiveLoop_marker (pre post : list string) (rerr : string) :
  "END"%string ∉ pre ->
  forall acc, receiveLoop (pre ++ "END"%string :: post) rerr acc
              = ((acc ++ sconcat pre)%string, None).
Proof.
  induction pre as [|r pre IH]; intros Hno acc; simpl.
  - rewrite sappend_nil_r. reflexivity.
  - apply not_elem_of_cons in Hno as [Hne Hno].
    rewrite (proj2 (String.eqb_neq r "END")) by congruence.
    rewrite IH by exact Hno. rewrite sappend_assoc. reflexivity.
Qed.

Lemma receiveLoop_no_marker (reads : list string) (rerr : string) :
  "END"%string ∉ reads ->
  forall acc, receiveLoop reads rerr acc = (""%string, Some rerr).
Proof.
  induction reads as [|r reads IH]; intros Hno acc; simpl; [reflexivity |].
  apply not_elem_of_cons in Hno as [Hne Hno].
  rewrite (proj2 (String.eqb_neq r "END")) by congruence.
  apply IH, Hno.
Qed.

(** X12.  What [Receive] returns.  With a buffer size that is not
    negative, [Receive] returns the concatenation of what was read before
    the first read that is exactly [END], and nothing after it; when no
    read is exactly [END] it returns the empty string with the error of the
    connection, and the bytes read so far are dropped.  A negative buffer
    size panics. *)
Theorem receive_returns_text_before_marker
    (reads : list string) (rerr : string) (bufSize : Z) :
  (bufSize < 0 -> Receive reads rerr bufSize = None) /\
  (0 <= bufSize ->
   ("END"%string ∉ reads ->
    Receive reads rerr bufSize = Some (""%string, Some rerr)) /\
   (forall pre post, reads = pre ++ "END"%string :: post -> "END"%string ∉ pre ->
    Receive reads rerr bufSize = Some (sconcat pre, None))).
Proof.
  unfold Receive. split.
  - intros H. destruct (Z.ltb_spec bufSize 0); [reflexivity | lia].
  - intros H. destruct (Z.ltb_spec bufSize 0); [lia |]. split.
    + intros Hno. rewrite receiveLoop_no_marker by exact Hno. reflexivity.
    + intros pre post -> Hno. rewrite receiveLoop_marker by exact Hno. reflexivity.
Qed.

(** X13.  [Send] then [Receive].  The buffer holds at least three bytes,
    so that the marker [END] fits one read, and the message does not
    contain [END].  Then every buffer [Send] writes fits the buffer
    [Receive] reads into, and when the connection hands each of them to
    one read, [Receive] returns what was delivered: the message itself,
    except for a message whose length is a positive multiple of [bufSize],
    which arrives without its last [bufSize] bytes. *)
Theorem send_then_receive
    (budget : nat) (werr rerr mess : string) (bufSize : Z) :
  3 <= bufSize ->
  slen mess / bufSize + 2 <= Z.of_nat budget ->
  noEndMarker mess ->
  exists ws,
    Send budget werr mess bufSize = Some (ws, None) /\
    readsFit ws bufSize /\
    Receive ws rerr bufSize = Some (delivered mess bufSize, None) /\
    (~ (0 < slen mess /\ slen mess mod bufSize = 0) ->
     Receive ws rerr bufSize = Some (mess, None)).
Proof.
  intros Hb3 Hbudget Hno.
  assert (Hb : 0 < bufSize) by lia.
  destruct (Send_result budget werr mess bufSize Hb Hbudget)
    as (ws & Hs & Hfit & Hc & Hiff).
  exists (ws ++ ["END"%string]). split; [exact Hs |].
  split.
  { intros r Hr. apply elem_of_app in Hr as [Hr | Hr]; [exact (Hfit r Hr) |].
    apply list_elem_of_singleton in Hr. subst r. exact Hb3. }
  assert (Hclean : "END"%string ∉ ws).
  { intros Hin. destruct (sconcat_elem _ _ Hin) as [a [c Hac]].
    destruct (delivered_prefix mess bufSize) as [tail Htail].
    apply (noEndMarker_chunk mess a (c ++ tail) Hno).
    rewrite Htail at 1. rewrite <- Hc, Hac, !sappend_assoc. reflexivity. }
  assert (Hr : Receive (ws ++ ["END"%string]) rerr bufSize
               = Some (delivered mess bufSize, None)).
  { unfold Receive. destruct (Z.ltb_spec bufSize 0); [lia |].
    rewrite receiveLoop_marker by exact Hclean. rewrite Hc. reflexivity. }
  split; [exact Hr |]. intros Hnm. rewrite Hr.
  rewrite (proj2 Hiff Hnm). reflexivity.
Qed.

Lemma send_then_receive_witness :
  (3 <= 10 /\ slen "service-42abc" / 10 + 2 <= Z.of_nat 4 /\
   noEndMarker "service-42abc") /\
  exists ws,
    Send 4 "broken pipe" "service-42abc" 10 = Some (ws, None) /\
    readsFit ws 10 /\
    Receive ws "EOF" 10 = Some ("service-42abc"%string, None).
Proof.
  assert (H1 : 3 <= 10) by lia.
  assert (H2 : slen "service-42abc" / 10 + 2 <= Z.of_nat 4) by (vm_compute; discriminate).
  assert (H3 : noEndMarker "service-42abc") by reflexivity.
  split; [auto |].
  destruct (send_then_receive 4 "broken pipe" "EOF" "service-42abc" 10 H1 H2 H3)
    as [ws [Hs [Hf [_ Hr]]]].
  exists ws. split; [exact Hs |]. split; [exact Hf |].
  apply Hr. intros [_ Hm]. vm_compute in Hm. discriminate.
Defined.

Lemma sendLoop_zero (werr mess : string) : mess <> ""%string ->
  forall (budget : nat) (written : list string),
  sendLoop budget werr 0 mess written =
  Some (written ++ repeat ""%string budget, inr werr).
Proof.
  intros Hne.
  assert (Hpos : 0 < slen mess).
  { unfold slen. destruct mess; [contradiction | simpl; lia]. }
  induction budget as [|budget IH]; intros written; cbn [sendLoop].
  - destruct (Z.gtb_spec (slen mess) 0); [| lia].
    rewrite (sslice_prefix mess 0) by lia. simpl. rewrite app_nil_r. reflexivity.
  - destruct (Z.gtb_spec (slen mess) 0); [| lia].
    rewrite (sslice_prefix mess 0) by lia. rewrite (sslice_suffix mess 0) by lia.
    cbn [mbind option_bind].
    replace (String.substring (Z.to_nat 0) (String.length mess - Z.to_nat 0) mess)
      with mess.
    + rewrite IH. rewrite <- app_assoc.
      replace (String.substring 0 (Z.to_nat 0) mess) with ""%string
        by (destruct mess; reflexivity).
      reflexivity.
    + replace (Z.to_nat 0) with O by lia. rewrite Nat.sub_0_r.
      symmetry. apply substring_all.
Qed.

(** X14.  [Send] with a buffer size that is not positive.  A negative
    [bufSize] panics at the first slice.  With [bufSize] 0 and a message
    that is not empty the loop never shortens the message: it writes empty
    buffers for as long as the connection accepts writes and ends only with
    the error of the connection, so it never returns [nil]. *)
Theorem send_without_progress (budget : nat) (werr mess : string) (bufSize : Z) :
  (bufSize < 0 -> Send budget werr mess bufSize = None) /\
  (bufSize = 0 -> mess <> ""%string ->
   Send budget werr mess bufSize = Some (repeat ""%string budget, Some werr)).
Proof.
  split.
  - intros Hneg. unfold Send. destruct budget; cbn [sendLoop];
      (destruct (Z.gtb_spec (slen mess) bufSize); [| unfold slen in *; lia]);
      unfold sslice; (destruct (Z.leb_spec 0 0); [| lia]);
      (destruct (Z.leb_spec 0 bufSize); [lia |]); reflexivity.
  - intros -> Hne. unfold Send. rewrite (sendLoop_zero werr mess Hne budget []).
    reflexivity.
Qed.

(** ** Log reconciliation *)

(** Where the search for the insertion point stops: the entries skipped
    have the terms of the local entries at the same positions. *)
Lemma findInsertion_result (log rest : list LogEntry.t) : forall li ni li' ni',
  0 <= li ->
  findInsertion log li rest ni = Some (li', ni') ->
  li' - li = ni' - ni /\ 0 <= ni' - ni <= len rest /\
  (forall k e, 0 <= k < ni' - ni -> index rest k = Some e ->
     exists le, index log (li + k) = Some le /\ LogEntry.Term le = LogEntry.Term e).
Proof.
  induction rest as [|e rest IH]; intros li ni li' ni' Hli H; simpl in H.
  - injection H as <- <-. unfold len. simpl.
    split; [lia |]. split; [lia |]. intros k e Hk. lia.
  - assert (Hlen : len (e :: rest) = len rest + 1) by (unfold len; simpl; lia).
    destruct (Z.geb_spec li (len log)) as [Hge | Hlt].
    + injection H as <- <-. rewrite Hlen. unfold len.
      split; [lia |]. split; [lia |]. intros k e0 Hk; lia.
    + destruct (index_in_range log li) as [le Hle]; [lia |].
      rewrite Hle in H. simpl in H.
      destruct (Z.eqb_spec (LogEntry.Term le) (LogEntry.Term e)) as [Ht | Ht];
        simpl in H.
      * destruct (IH (li + 1) (ni + 1) li' ni' ltac:(lia) H) as (H1 & H2 & H4).
        split; [lia |]. split; [lia |].
        intros k e0 Hk He0. destruct (Z.eq_dec k 0) as [-> | Hne].
        -- replace (li + 0) with li by lia. exists le. split; [exact Hle |].
           apply index_Some in He0 as [_ He0]. simpl in He0.
           injection He0 as <-. exact Ht.
        -- assert (He0' : index rest (k - 1) = Some e0).
           { apply index_Some in He0 as [_ He0]. apply index_Some.
             split; [lia |].
             replace (Z.to_nat k) with (S (Z.to_nat (k - 1))) in He0 by lia.
             exact He0. }
           destruct (H4 (k - 1) e0 ltac:(lia) He0') as [le' [Hle' Ht']].
           exists le'. split; [| exact Ht'].
           replace (li + k) with (li + 1 + (k - 1)) by lia. exact Hle'.
      * injection H as <- <-. rewrite Hlen. unfold len.
        split; [lia |]. split; [lia |]. intros k e0 Hk; lia.
Qed.

(** When every new entry has the term of the local entry at its position,
    the search runs to the end of the new entries. *)
Lemma findInsertion_all_match (log rest : list LogEntry.t) : forall li ni,
  0 <= li ->
  (forall k e, index rest k = Some e ->
     exists le, index log (li + k) = Some le /\ LogEntry.Term le = LogEntry.Term e) ->
  findInsertion log li rest ni = Some (li + len rest, ni + len rest).
Proof.
  induction rest as [|e rest IH]; intros li ni Hli H; simpl.
  - unfold len. simpl. do 2 f_equal; lia.
  - assert (Hlen : len (e :: rest) = len rest + 1) by (unfold len; simpl; lia).
    destruct (H 0 e) as [le [Hle Ht]].
    { apply index_Some. split; [lia | reflexivity]. }
    replace (li + 0) with li in Hle by lia.
    pose proof (index_is_Some_range _ _ _ Hle) as Hr.
    destruct (Z.geb_spec li (len log)); [lia |].
    rewrite Hle. simpl. rewrite Ht, Z.eqb_refl. simpl.
    rewrite IH; [rewrite Hlen; do 2 f_equal; lia | lia |].
    intros k e0 He0.
    pose proof (index_is_Some_range _ _ _ He0) as Hk.
    destruct (H (k + 1) e0) as [le' [Hle' Ht']].
    { apply index_Some in He0 as [_ He0]. apply index_Some. split; [lia |].
      replace (Z.to_nat (k + 1)) with (S (Z.to_nat k)) by lia. exact He0. }
    exists le'. split; [| exact Ht'].
    replace (li + 1 + k) with (li + (k + 1)) by lia. exact Hle'.
Qed.

Lemma index_app_l {A} (l1 l2 : list A) (j : Z) :
  j < len l1 -> index (l1 ++ l2) j = index l1 j.
Proof.
  unfold index, len. intros H. destruct (Z.ltb_spec j 0); [reflexivity |].
  apply lookup_app_l. lia.
Qed.

Lemma index_app_r {A} (l1 l2 : list A) (j : Z) :
  len l1 <= j -> 0 <= len l1 -> index (l1 ++ l2) j = index l2 (j - len l1).
Proof.
  unfold index, len. intros H _.
  destruct (Z.ltb_spec j 0); [lia |].
  destruct (Z.ltb_spec (j - Z.of_nat (length l1)) 0); [lia |].
  rewrite lookup_app_r by lia. f_equal. lia.
Qed.

Lemma len_nonneg {A} (l : list A) : 0 <= len l.
Proof. unfold len. lia. Qed.

(** The log the matched branch leaves: the new entries from the first
    position [ni] whose term differs replace the local log from that
    position on; when no term differs and the local log is long enough the
    log is untouched and nothing is handed to the store. *)
Lemma appendMatched_log cm order args cm' evs :
  -1 <= AppendEntriesArgs.PrevLogIndex args < len (CM.log cm) ->
  appendMatched cm order args = Some (cm', evs) ->
  let p := AppendEntriesArgs.PrevLogIndex args in
  let entries := AppendEntriesArgs.Entries args in
  exists ni, 0 <= ni <= len entries /\ p + 1 + ni <= len (CM.log cm) /\
    findInsertion (CM.log cm) (p + 1) entries 0 = Some (p + 1 + ni, ni) /\
    (forall k e, 0 <= k < ni -> index entries k = Some e ->
       exists le, index (CM.log cm) (p + 1 + k) = Some le /\
                  LogEntry.Term le = LogEntry.Term e) /\
    ((ni = len entries /\ CM.log cm' = CM.log cm /\
      (evs = [] \/ evs = [EvNewCommitReady])) \/
     (ni < len entries /\
      exists prefix suffix,
        slice (CM.log cm) 0 (p + 1 + ni) = Some prefix /\
        slice entries ni (len entries) = Some suffix /\
        CM.log cm' = prefix ++ suffix /\
        exists pevs, persistToStorage (CM.set_log (prefix ++ suffix) cm) order = Some pevs /\
                     (evs = pevs \/ evs = pevs ++ [EvNewCommitReady]))).
Proof.
  intros Hp H p entries. unfold appendMatched in H. fold p entries in H.
  change (-1 <= p < len (CM.log cm)) in Hp. clearbody p entries.
  destruct (findInsertion_spec (CM.log cm) entries (p + 1) 0 ltac:(lia))
    as (li & ni & Hfi & Hli & Hni).
  destruct (findInsertion_result (CM.log cm) entries (p + 1) 0 li ni
              ltac:(lia) Hfi) as (Hd & _ & Hm).
  rewrite Hfi in H. simpl in H.
  assert (Eli : li = p + 1 + ni) by lia. subst li.
  exists ni. split; [lia |]. split; [lia |]. split; [exact Hfi |].
  split. { intros k e Hk. apply Hm. lia. }
  destruct (Z.ltb_spec ni (len entries)) as [Hlt | Hge].
  - right. split; [exact Hlt |].
    destruct (slice (CM.log cm) 0 (p + 1 + ni)) as [prefix|] eqn:Hpre;
      simpl in H; [| discriminate].
    destruct (slice entries ni (len entries)) as [suffix|] eqn:Hsuf;
      simpl in H; [| discriminate].
    destruct (persistToStorage _ order) as [pevs|] eqn:Hper; simpl in H;
      [| discriminate].
    exists prefix, suffix. split; [reflexivity |]. split; [reflexivity |].
    destruct (_ >? _); injection H as <- <-; simpl;
      (split; [reflexivity |]); exists pevs; (split; [exact Hper |]); auto.
  - left. split; [lia |]. simpl in H.
    destruct (_ >? _); injection H as <- <-; simpl; auto.
Qed.

(** ** AppendEntries, case by case *)

Lemma AppendEntries_unfold cm now order args reply0 :
  AppendEntries cm now order args reply0 =
  if CMState_eqb (CM.state cm) Dead then Some (cm, reply0, [])
  else if AppendEntriesArgs.Term args <? CM.currentTerm cm then
    Some (cm, AppendEntriesReply.mk (CM.currentTerm cm) false
                (AppendEntriesReply.ConflictIndex reply0)
                (AppendEntriesReply.ConflictTerm reply0), [])
  else
    let cm3 := aeEnter cm now args in
    ok ← prevMatches cm3 args;
    if ok : bool then
      '(cm', evs) ← appendMatched cm3 order args;
      Some (cm', AppendEntriesReply.mk (CM.currentTerm cm') true
                   (AppendEntriesReply.ConflictIndex reply0)
                   (AppendEntriesReply.ConflictTerm reply0), evs)
    else
      '(conflictIndex, conflictTerm) ← conflictHints cm3 args;
      Some (cm3, AppendEntriesReply.mk (CM.currentTerm cm3) false
                   conflictIndex conflictTerm, []).
Proof.
  unfold AppendEntries, aeEnter.
  destruct (CMState_eqb (CM.state cm) Dead); [reflexivity |].
  destruct (Z.gtb_spec (AppendEntriesArgs.Term args) (CM.currentTerm cm)) as [Hgt | Hle].
  - change (CM.currentTerm (becomeFollower cm (AppendEntriesArgs.Term args)))
      with (AppendEntriesArgs.Term args).
    rewrite Z.eqb_refl.
    destruct (Z.ltb_spec (AppendEntriesArgs.Term args) (CM.currentTerm cm)); [lia |].
    reflexivity.
  - destruct (Z.eqb_spec (AppendEntriesArgs.Term args) (CM.currentTerm cm)) as [He | Hne];
      destruct (Z.ltb_spec (AppendEntriesArgs.Term args) (CM.currentTerm cm));
      try lia; reflexivity.
Qed.

Lemma aeEnter_fields cm now args :
  CM.currentTerm cm <= AppendEntriesArgs.Term args ->
  CM.log (aeEnter cm now args) = CM.log cm /\
  CM.commitIndex (aeEnter cm now args) = CM.commitIndex cm /\
  CM.state (aeEnter cm now args) = Follower /\
  CM.currentTerm (aeEnter cm now args) = AppendEntriesArgs.Term args /\
  CM.electionResetEvent (aeEnter cm now args) = now.
Proof.
  intros Hle. unfold aeEnter.
  destruct (Z.gtb_spec (AppendEntriesArgs.Term args) (CM.currentTerm cm)).
  - simpl. repeat split; reflexivity.
  - destruct (CM.state cm) eqn:Hs; simpl; rewrite ?Hs; repeat split; try reflexivity; lia.
Qed.

(** On a follower of the request's term the preamble only resets the
    timer. *)
Lemma aeEnter_follower cm now args :
  CM.state cm = Follower ->
  CM.currentTerm cm = AppendEntriesArgs.Term args ->
  aeEnter cm now args = CM.set_electionResetEvent now cm.
Proof.
  intros Hs Ht. unfold aeEnter.
  destruct (Z.gtb_spec (AppendEntriesArgs.Term args) (CM.currentTerm cm)); [lia |].
  rewrite Hs. reflexivity.
Qed.

Lemma slice_index {A} (s r : list A) (a b : Z) :
  slice s a b = Some r ->
  len r = b - a /\ forall k, 0 <= k < b - a -> index r k = index s (a + k).
Proof.
  intros H. destruct (slice_Some_len _ _ _ _ H) as (Ha & Hb & Hl).
  destruct (slice_spec s a b Ha Hb) as (r' & Hr' & _ & Hidx).
  rewrite H in Hr'. injection Hr' as <-. split; assumption.
Qed.

Lemma index_neg {A} (s : list A) (j : Z) : j < 0 -> index s j = None.
Proof. intros H. unfold index. destruct (Z.ltb_spec j 0); [reflexivity | lia]. Qed.

(** After the matched branch the log keeps its entries up to
    [PrevLogIndex] and holds, at the position of each entry sent, an entry
    of the same term. *)
Lemma appendMatched_agrees cm order args cm' evs :
  -1 <= AppendEntriesArgs.PrevLogIndex args < len (CM.log cm) ->
  appendMatched cm order args = Some (cm', evs) ->
  let p := AppendEntriesArgs.PrevLogIndex args in
  (forall j, j <= p -> index (CM.log cm') j = index (CM.log cm) j) /\
  (forall k e, index (AppendEntriesArgs.Entries args) k = Some e ->
     exists le, index (CM.log cm') (p + 1 + k) = Some le /\
                LogEntry.Term le = LogEntry.Term e).
Proof.
  intros Hp H p.
  destruct (appendMatched_log _ _ _ _ _ Hp H) as (ni & Hni & Hb & _ & Hm & Hcase).
  fold p in Hb, Hm, Hcase. change (-1 <= p < len (CM.log cm)) in Hp. clearbody p.
  destruct Hcase as [(He & Hlog & _) | (Hlt & prefix & suffix & Hpre & Hsuf & Hlog & _)].
  - rewrite Hlog. split; [reflexivity |].
    intros k e Hk. apply Hm; [| exact Hk].
    pose proof (index_is_Some_range _ _ _ Hk). lia.
  - rewrite Hlog.
    destruct (slice_index _ _ _ _ Hpre) as [Hlp Hip].
    destruct (slice_index _ _ _ _ Hsuf) as [Hls His].
    split.
    + intros j Hj. destruct (Z.lt_ge_cases j 0).
      * rewrite !index_neg by lia. reflexivity.
      * rewrite index_app_l by lia. rewrite Hip by lia. f_equal.
    + intros k e Hk. pose proof (index_is_Some_range _ _ _ Hk) as Hr.
      destruct (Z.lt_ge_cases k ni).
      * rewrite index_app_l by lia. rewrite Hip by lia. simpl.
        apply Hm; [lia | exact Hk].
      * rewrite index_app_r by lia. rewrite His by lia.
        exists e. split; [| reflexivity].
        rewrite <- Hk. f_equal. lia.
Qed.

Lemma prevMatches_true cm args :
  prevMatches cm args = Some true ->
  -1 <= AppendEntriesArgs.PrevLogIndex args < len (CM.log cm) /\
  (AppendEntriesArgs.PrevLogIndex args = -1 \/
   exists e, index (CM.log cm) (AppendEntriesArgs.PrevLogIndex args) = Some e /\
             LogEntry.Term e = AppendEntriesArgs.PrevLogTerm args).
Proof.
  unfold prevMatches. intros H.
  destruct (Z.eqb_spec (AppendEntriesArgs.PrevLogIndex args) (-1)) as [He | Hne].
  - pose proof (len_nonneg (CM.log cm)). split; [lia | left; exact He].
  - destruct (Z.ltb_spec (AppendEntriesArgs.PrevLogIndex args) (len (CM.log cm)));
      [| discriminate].
    destruct (index _ _) as [e|] eqn:Hi; simpl in H; [| discriminate].
    injection H as H. apply Z.eqb_eq in H.
    pose proof (index_is_Some_range _ _ _ Hi).
    split; [lia |]. right. exists e. split; [reflexivity | lia].
Qed.

(** X15.  What a successful AppendEntries leaves in the log.  When the
    call answers [Success] on a reply that came in unset, the receiver's
    log is unchanged up to [PrevLogIndex], the entry at [PrevLogIndex] (if
    any) has the term [PrevLogTerm], and at the position of every entry
    sent the log holds an entry of that entry's term. *)
Theorem append_entries_success_log cm now order args reply0 cm' reply evs :
  AppendEntriesReply.Success reply0 = false ->
  AppendEntries cm now order args reply0 = Some (cm', reply, evs) ->
  AppendEntriesReply.Success reply = true ->
  let p := AppendEntriesArgs.PrevLogIndex args in
  (forall j, j <= p -> index (CM.log cm') j = index (CM.log cm) j) /\
  (p = -1 \/ exists e, index (CM.log cm') p = Some e /\
                       LogEntry.Term e = AppendEntriesArgs.PrevLogTerm args) /\
  (forall k e, index (AppendEntriesArgs.Entries args) k = Some e ->
     exists le, index (CM.log cm') (p + 1 + k) = Some le /\
                LogEntry.Term le = LogEntry.Term e).
Proof.
  intros H0 H Hs p. rewrite AppendEntries_unfold in H.
  destruct (CMState_eqb (CM.state cm) Dead).
  { injection H as _ <- _. congruence. }
  destruct (Z.ltb_spec (AppendEntriesArgs.Term args) (CM.currentTerm cm)) as [Hlt | Hge].
  { injection H as _ <- _. discriminate. }
  cbv zeta in H.
  destruct (aeEnter_fields cm now args Hge) as (Hlog & _).
  destruct (prevMatches _ args) as [[|]|] eqn:Hpm; simpl in H; [| | discriminate].
  - destruct (appendMatched _ order args) as [[cm1 evs1]|] eqn:Ham; simpl in H;
      [| discriminate].
    injection H as <- _ _.
    destruct (prevMatches_true _ _ Hpm) as [Hp Hprev].
    destruct (appendMatched_agrees _ _ _ _ _ Hp Ham) as [Hpre Hent].
    rewrite Hlog in Hpre, Hprev.
    split; [exact Hpre |]. split; [| exact Hent].
    destruct Hprev as [Hm1 | (e & He & Ht)]; [left; exact Hm1 | right].
    exists e. split; [| exact Ht]. fold p in He. rewrite Hpre by lia. exact He.
  - destruct (conflictHints _ args) as [[ci ct]|]; simpl in H; [| discriminate].
    injection H as _ <- _. discriminate.
Qed.

Lemma append_entries_success_log_witness :
  exists cm' reply evs,
    AppendEntries idleFollower 0 anyOrder aeFirst AppendEntriesReply.zero
      = Some (cm', reply, evs) /\
    AppendEntriesReply.Success reply = true /\
    exists le, index (CM.log cm') 0 = Some le /\ LogEntry.Term le = 1.
Proof.
  set (cm1 := CM.set_commitIndex 0
                (CM.set_log [entryAt 1 0] (CM.set_electionResetEvent 0 idleFollower))).
  set (evs := [EvStorageSet (<["checksum" := VStr (hexBytes (SHA512.Sum512
                                 (checksumInput (termDataOf cm1 0 (entryAt 1 0)) anyOrder)))]>
                             (termDataOf cm1 0 (entryAt 1 0)));
               EvNewCommitReady]).
  assert (Ha : AppendEntries idleFollower 0 anyOrder aeFirst AppendEntriesReply.zero
               = Some (cm1, AppendEntriesReply.mk 1 true 0 0, evs)) by reflexivity.
  exists cm1, (AppendEntriesReply.mk 1 true 0 0), evs.
  split; [exact Ha |]. split; [reflexivity |].
  destruct (append_entries_success_log idleFollower 0 anyOrder aeFirst
              AppendEntriesReply.zero cm1 _ evs eq_refl Ha eq_refl) as (_ & _ & H).
  exact (H 0 (entryAt 1 0) eq_refl).
Defined.

(** ** Redelivery *)

Lemma prevMatches_intro cm args :
  (AppendEntriesArgs.PrevLogIndex args = -1 \/
   exists e, index (CM.log cm) (AppendEntriesArgs.PrevLogIndex args) = Some e /\
             LogEntry.Term e = AppendEntriesArgs.PrevLogTerm args) ->
  prevMatches cm args = Some true.
Proof.
  intros H. unfold prevMatches.
  destruct (Z.eqb_spec (AppendEntriesArgs.PrevLogIndex args) (-1)); [reflexivity |].
  destruct H as [H | (e & He & Ht)]; [contradiction |].
  pose proof (index_is_Some_range _ _ _ He).
  destruct (Z.ltb_spec (AppendEntriesArgs.PrevLogIndex args) (len (CM.log cm))); [| lia].
  rewrite He. simpl. rewrite Ht, Z.eqb_refl. reflexivity.
Qed.

(** When the log already holds an entry of the right term at the position
    of every entry sent, the matched branch changes at most the commit
    index and hands nothing to the store. *)
Lemma appendMatched_all_match cm order args :
  -1 <= AppendEntriesArgs.PrevLogIndex args ->
  (forall k e, index (AppendEntriesArgs.Entries args) k = Some e ->
     exists le, index (CM.log cm) (AppendEntriesArgs.PrevLogIndex args + 1 + k) = Some le /\
                LogEntry.Term le = LogEntry.Term e) ->
  appendMatched cm order args =
  Some (if AppendEntriesArgs.LeaderCommit args >? CM.commitIndex cm
        then (CM.set_commitIndex
                (intMin (AppendEntriesArgs.LeaderCommit args) (len (CM.log cm) - 1)) cm,
              [EvNewCommitReady])
        else (cm, [])).
Proof.
  intros Hp H. unfold appendMatched.
  rewrite findInsertion_all_match by (lia || exact H). simpl.
  rewrite Z.ltb_irrefl. simpl.
  destruct (_ >? _); reflexivity.
Qed.

Lemma appendMatched_commit_eq cm order args cm' evs :
  appendMatched cm order args = Some (cm', evs) ->
  CM.commitIndex cm' =
  if AppendEntriesArgs.LeaderCommit args >? CM.commitIndex cm
  then intMin (AppendEntriesArgs.LeaderCommit args) (len (CM.log cm') - 1)
  else CM.commitIndex cm.
Proof.
  unfold appendMatched. intros H.
  destruct (findInsertion _ _ _ _) as [[li ni]|]; simpl in H; [| discriminate].
  match type of H with
  | (?m ≫= _) = _ => destruct m as [[cm1 evs1]|] eqn:Hm; simpl in H; [| discriminate]
  end.
  assert (H1 : CM.commitIndex cm1 = CM.commitIndex cm).
  { destruct (ni <? _).
    - destruct (slice (CM.log cm) _ _); simpl in Hm; [| discriminate].
      destruct (slice (AppendEntriesArgs.Entries args) _ _); simpl in Hm;
        [| discriminate].
      destruct (persistToStorage _ _); simpl in Hm; [| discriminate].
      injection Hm as <- _. reflexivity.
    - injection Hm as <- _. reflexivity. }
  rewrite H1 in H.
  destruct (_ >? _); injection H as <- _; simpl; [reflexivity | exact H1].
Qed.

(** X16.  Redelivery of an AppendEntries request.  When the request that
    was just handled arrives again, the handler gives the same reply and
    leaves the node as it is apart from the election timer: the log, the
    term and the commit index do not change and nothing is handed to the
    store.  The dispatcher may be signalled once more. *)
Theorem append_entries_redelivery
    cm now order args reply0 cm' reply evs (now' : Z) (order' : list string) :
  AppendEntries cm now order args reply0 = Some (cm', reply, evs) ->
  exists cm'' evs',
    AppendEntries cm' now' order' args reply0 = Some (cm'', reply, evs') /\
    (cm'' = cm' \/ cm'' = CM.set_electionResetEvent now' cm') /\
    (evs' = [] \/ evs' = [EvNewCommitReady]).
Proof.
  intros H. rewrite AppendEntries_unfold in H. rewrite AppendEntries_unfold.
  destruct (CMState_eqb (CM.state cm) Dead) eqn:Hd.
  { injection H as <- <- <-. rewrite Hd.
    exists cm, []. split; [reflexivity |]. split; left; reflexivity. }
  destruct (Z.ltb_spec (AppendEntriesArgs.Term args) (CM.currentTerm cm)) as [Hlt | Hge].
  { injection H as <- <- <-. rewrite Hd.
    destruct (Z.ltb_spec (AppendEntriesArgs.Term args) (CM.currentTerm cm)); [| lia].
    exists cm, []. split; [reflexivity |]. split; left; reflexivity. }
  cbv zeta in H.
  destruct (aeEnter_fields cm now args Hge) as (Hlog & Hci & Hst & Hct & _).
  set (cm3 := aeEnter cm now args) in *.
  destruct (prevMatches cm3 args) as [[|]|] eqn:Hpm; simpl in H; [| | discriminate].
  - destruct (appendMatched cm3 order args) as [[cm1 evs1]|] eqn:Ham; simpl in H;
      [| discriminate].
    injection H as <- <- <-.
    pose proof (appendMatched_frame _ _ _ _ _ Ham) as Hfr.
    assert (Hs1 : CM.state cm1 = Follower) by (rewrite Hfr; exact Hst).
    assert (Ht1 : CM.currentTerm cm1 = AppendEntriesArgs.Term args)
      by (rewrite Hfr; exact Hct).
    rewrite Hs1, Ht1, Z.ltb_irrefl. cbv zeta. simpl CMState_eqb. cbv iota.
    rewrite (aeEnter_follower cm1 now' args Hs1 Ht1).
    set (cmB := CM.set_electionResetEvent now' cm1).
    destruct (prevMatches_true _ _ Hpm) as [Hp Hprev].
    destruct (appendMatched_agrees _ _ _ _ _ Hp Ham) as [Hpre Hent].
    assert (HpmB : prevMatches cmB args = Some true).
    { apply prevMatches_intro. change (CM.log cmB) with (CM.log cm1).
      destruct Hprev as [Hm1 | (e & He & Hte)]; [left; exact Hm1 | right].
      exists e. split; [| exact Hte]. rewrite Hpre by lia. exact He. }
    rewrite HpmB. simpl.
    rewrite (appendMatched_all_match cmB order' args) by (lia || exact Hent).
    change (CM.commitIndex cmB) with (CM.commitIndex cm1).
    change (CM.log cmB) with (CM.log cm1).
    pose proof (appendMatched_commit_eq _ _ _ _ _ Ham) as Hc.
    destruct (Z.gtb_spec (AppendEntriesArgs.LeaderCommit args) (CM.commitIndex cm1))
      as [Hgt | Hle]; simpl; rewrite ?Ht1.
    + assert (Hsame : intMin (AppendEntriesArgs.LeaderCommit args) (len (CM.log cm1) - 1)
                      = CM.commitIndex cm1).
      { destruct (Z.gtb_spec (AppendEntriesArgs.LeaderCommit args) (CM.commitIndex cm3));
          [symmetry; exact Hc |].
        rewrite Hc in Hgt. lia. }
      rewrite Hsame. exists cmB, [EvNewCommitReady].
      split; [| split; [right; reflexivity | right; reflexivity]].
      replace (CM.set_commitIndex (CM.commitIndex cm1) cmB) with cmB
        by (unfold cmB; destruct cm1; reflexivity).
      reflexivity.
    + exists cmB, []. split; [reflexivity |]. split; [right; reflexivity | left; reflexivity].
  - destruct (conflictHints cm3 args) as [[ci ct]|] eqn:Hch; simpl in H; [| discriminate].
    injection H as <- <- <-.
    rewrite Hst, Hct, Z.ltb_irrefl. cbv zeta. simpl CMState_eqb. cbv iota.
    rewrite (aeEnter_follower cm3 now' args Hst Hct).
    set (cmB := CM.set_electionResetEvent now' cm3).
    rewrite (prevMatches_log cm3 cmB args eq_refl), Hpm. simpl.
    rewrite (conflictHints_log cm3 cmB args eq_refl), Hch. simpl. rewrite ?Hct.
    exists cmB, []. split; [reflexivity |]. split; [right; reflexivity | left; reflexivity].
Qed.

Lemma append_entries_redelivery_witness :
  exists cm' reply evs,
    AppendEntries idleFollower 0 anyOrder aeFirst AppendEntriesReply.zero
      = Some (cm', reply, evs) /\
    exists cm'' evs',
      AppendEntries cm' 7 anyOrder aeFirst AppendEntriesReply.zero
        = Some (cm'', reply, evs') /\
      CM.log cm'' = CM.log cm' /\
      (evs' = [] \/ evs' = [EvNewCommitReady]).
Proof.
  set (cm1 := CM.set_commitIndex 0
                (CM.set_log [entryAt 1 0] (CM.set_electionResetEvent 0 idleFollower))).
  set (evs := [EvStorageSet (<["checksum" := VStr (hexBytes (SHA512.Sum512
                                 (checksumInput (termDataOf cm1 0 (entryAt 1 0)) anyOrder)))]>
                             (termDataOf cm1 0 (entryAt 1 0)));
               EvNewCommitReady]).
  assert (Ha : AppendEntries idleFollower 0 anyOrder aeFirst AppendEntriesReply.zero
               = Some (cm1, AppendEntriesReply.mk 1 true 0 0, evs)) by reflexivity.
  exists cm1, (AppendEntriesReply.mk 1 true 0 0), evs.
  split; [exact Ha |].
  destruct (append_entries_redelivery idleFollower 0 anyOrder aeFirst
              AppendEntriesReply.zero cm1 _ evs 7 anyOrder Ha)
    as (cm2 & evs2 & H2 & Hcm & Hev).
  exists cm2, evs2. split; [exact H2 |]. split; [| exact Hev].
  destruct Hcm as [-> | ->]; reflexivity.
Defined.

(** ** One round of replication *)

Lemma index_take {A} (l : list A) (n : nat) (j : Z) :
  j < Z.of_nat n -> index (take n l) j = index l j.
Proof.
  intros H. unfold index. destruct (Z.ltb_spec j 0); [reflexivity |].
  apply lookup_take_lt. lia.
Qed.

Lemma index_drop {A} (l : list A) (n : nat) (j : Z) :
  0 <= j -> index (drop n l) j = index l (Z.of_nat n + j).
Proof.
  intros H. unfold index.
  destruct (Z.ltb_spec j 0); [lia |].
  destruct (Z.ltb_spec (Z.of_nat n + j) 0); [lia |].
  rewrite lookup_drop. f_equal. lia.
Qed.

Lemma len_take {A} (l : list A) (n : nat) :
  Z.of_nat n <= len l -> len (take n l) = Z.of_nat n.
Proof. unfold len. intros H. rewrite length_take. lia. Qed.

Lemma len_drop {A} (l : list A) (n : nat) :
  Z.of_nat n <= len l -> len (drop n l) = len l - Z.of_nat n.
Proof. unfold len. intros H. rewrite length_drop. lia. Qed.

(** The request the leader builds for a peer whose [nextIndex] is within
    the log. *)
Lemma leaderPrepareAE_Some cm savedCurrentTerm peerId :
  let ni := goGet (CM.nextIndex cm) peerId in
  len (CM.log cm) <= maxInt ->
  0 <= ni <= len (CM.log cm) ->
  exists plt,
    leaderPrepareAE cm savedCurrentTerm peerId =
    Some (ni, AppendEntriesArgs.mk savedCurrentTerm (CM.id cm) (ni - 1) plt
                (drop (Z.to_nat ni) (CM.log cm)) (CM.commitIndex cm)
                (match drop (Z.to_nat ni) (CM.log cm) with
                 | e :: _ => LogEntry.ChosenId e
                 | [] => -1
                 end)) /\
    (ni = 0 -> plt = -1) /\
    (0 < ni -> exists e, index (CM.log cm) (ni - 1) = Some e /\ plt = LogEntry.Term e).
Proof.
  intros ni Hmax Hni. unfold leaderPrepareAE. fold ni.
  assert (Hw : wrapInt (ni - 1) = ni - 1).
  { apply wrapInt_id. unfold minInt, maxInt in *. lia. }
  rewrite Hw.
  assert (Hs : slice (CM.log cm) ni (len (CM.log cm))
               = Some (drop (Z.to_nat ni) (CM.log cm))).
  { rewrite slice_take_drop by lia. f_equal. apply take_ge.
    rewrite length_drop. unfold len. lia. }
  destruct (Z.geb_spec (ni - 1) 0) as [Hge | Hlt].
  - destruct (index_in_range (CM.log cm) (ni - 1)) as [e He]; [lia |].
    rewrite He. simpl. rewrite Hs. simpl.
    exists (LogEntry.Term e). split; [reflexivity |]. split; [lia |].
    intros _. exists e. split; reflexivity.
  - simpl. rewrite Hs. simpl. exists (-1). split; [reflexivity |].
    split; [reflexivity | lia].
Qed.

(** X17.  The request of the leader for one peer.  With [ni] the peer's
    [nextIndex], the first critical section of [leaderSendAEs] builds a
    request exactly when [0 <= ni <= len(log)] and panics otherwise (in
    [cm.log[ni-1]] or [cm.log[ni:]]).  The request carries the saved term,
    the leader's id and commit index, [PrevLogIndex = ni - 1] and the log
    from [ni] on, and its previous entry matches the leader's own log. *)
Theorem leader_request_shape (cm : CM.t) (savedCurrentTerm peerId : Z) :
  len (CM.log cm) <= maxInt ->
  let ni := goGet (CM.nextIndex cm) peerId in
  (0 <= ni <= len (CM.log cm) ->
   exists args,
     leaderPrepareAE cm savedCurrentTerm peerId = Some (ni, args) /\
     AppendEntriesArgs.Term args = savedCurrentTerm /\
     AppendEntriesArgs.LeaderId args = CM.id cm /\
     AppendEntriesArgs.PrevLogIndex args = ni - 1 /\
     AppendEntriesArgs.Entries args = drop (Z.to_nat ni) (CM.log cm) /\
     AppendEntriesArgs.LeaderCommit args = CM.commitIndex cm /\
     prevMatches cm args = Some true) /\
  (~ 0 <= ni <= len (CM.log cm) ->
   leaderPrepareAE cm savedCurrentTerm peerId = None).
Proof.
  intros Hmax ni. split.
  - intros Hni.
    destruct (leaderPrepareAE_Some cm savedCurrentTerm peerId Hmax Hni)
      as (plt & Heq & H0 & Hpos).
    fold ni in Heq, H0, Hpos.
    eexists. split; [exact Heq |]. simpl.
    repeat (split; [reflexivity |]).
    apply prevMatches_intro. simpl.
    destruct (Z.eq_dec ni 0) as [Hz | Hnz]; [left; lia | right].
    destruct Hpos as (e & He & Hplt); [lia |].
    exists e. split; [exact He | symmetry; exact Hplt].
  - intros Hout. unfold leaderPrepareAE. fold ni.
    assert (Hs : slice (CM.log cm) ni (len (CM.log cm)) = None).
    { unfold slice.
      destruct (Z.leb_spec 0 ni); simpl; [| reflexivity].
      destruct (Z.leb_spec ni (len (CM.log cm))); simpl; [lia | reflexivity]. }
    rewrite Hs.
    destruct (if wrapInt (ni - 1) >=? 0 then _ else _); reflexivity.
Qed.

Lemma leader_request_shape_witness :
  exists args,
    leaderPrepareAE leaderOneEntry 2 2 = Some (0, args) /\
    AppendEntriesArgs.PrevLogIndex args = -1 /\
    AppendEntriesArgs.Entries args = [entryAt 2 0].
Proof.
  assert (Hmax : len (CM.log leaderOneEntry) <= maxInt) by (vm_compute; discriminate).
  assert (Hni : 0 <= goGet (CM.nextIndex leaderOneEntry) 2 <= len (CM.log leaderOneEntry))
    by (vm_compute; split; discriminate).
  destruct (proj1 (leader_request_shape leaderOneEntry 2 2 Hmax) Hni)
    as (args & H1 & _ & _ & H4 & H5 & _).
  exists args. split; [exact H1 |]. split; [exact H4 | exact H5].
Defined.

(** The search for the insertion point on a follower whose log is the
    first [m] entries of the leader's, for a request that sends the
    leader's log from [li] on: it stops at the end of the follower's log. *)
Lemma findInsertion_prefix (L : list LogEntry.t) (m : nat) :
  forall (rest : list LogEntry.t) (li ni0 : Z),
  0 <= li <= Z.of_nat m -> Z.of_nat m <= len L ->
  rest = drop (Z.to_nat li) L ->
  findInsertion (take m L) li rest ni0 = Some (Z.of_nat m, ni0 + (Z.of_nat m - li)).
Proof.
  induction rest as [|e rest IH]; intros li ni0 Hli Hm Hrest; simpl.
  - assert (Hlen : len (drop (Z.to_nat li) L) = 0) by (rewrite <- Hrest; reflexivity).
    rewrite len_drop in Hlen by lia.
    do 2 f_equal; lia.
  - assert (Hlen : len (drop (Z.to_nat li) L) = len rest + 1).
    { rewrite <- Hrest. unfold len. simpl. lia. }
    rewrite len_drop in Hlen by lia.
    pose proof (len_nonneg rest) as Hr.
    rewrite len_take by lia.
    destruct (Z.geb_spec li (Z.of_nat m)) as [Hge | Hlt].
    + do 2 f_equal; lia.
    + assert (He : index L li = Some e).
      { replace li with (Z.of_nat (Z.to_nat li) + 0) by lia.
        rewrite <- index_drop by lia. rewrite <- Hrest.
        apply index_Some. split; [lia | reflexivity]. }
      rewrite index_take by lia. rewrite He. simpl.
      rewrite Z.eqb_refl. simpl.
      rewrite IH; [do 2 f_equal; lia | lia | lia |].
      replace (Z.to_nat (li + 1)) with (Z.to_nat li + 1)%nat by lia.
      rewrite <- drop_drop, <- Hrest. reflexivity.
Qed.

Lemma slice_prefix_all {A} (l : list A) : slice l 0 (len l) = Some l.
Proof.
  pose proof (len_nonneg l).
  rewrite slice_take_drop by lia. f_equal. simpl.
  apply take_ge. unfold len. lia.
Qed.

Lemma slice_to_end {A} (l : list A) (a : Z) :
  0 <= a <= len l -> slice l a (len l) = Some (drop (Z.to_nat a) l).
Proof.
  intros H. rewrite slice_take_drop by lia. f_equal.
  apply take_ge. rewrite length_drop. unfold len. lia.
Qed.

Lemma goGet_insert (m : gmap Z Z) (k v : Z) : goGet (<[k := v]> m) k = v.
Proof. unfold goGet. rewrite lookup_insert_eq. reflexivity. Qed.

(** The leader's handling of a successful reply of its own term. *)
Lemma leaderOnAEReply_success cm T peerId ni entries reply :
  CM.currentTerm cm = T ->
  CM.state cm = Leader ->
  AppendEntriesReply.Term reply = T ->
  AppendEntriesReply.Success reply = true ->
  leaderOnAEReply cm T peerId ni entries reply =
  (let cm1 := CM.set_nextIndex
                (<[peerId := wrapInt (ni + len entries)]> (CM.nextIndex cm)) cm in
   let cm2 := CM.set_matchIndex
                (<[peerId := wrapInt (goGet (CM.nextIndex cm1) peerId - 1)]>
                   (CM.matchIndex cm1)) cm1 in
   cm3 ← advanceCommitIndex cm2;
   if negb (CM.commitIndex cm3 =? CM.commitIndex cm2)
   then Some (cm3, [EvNewCommitReady; EvTriggerAE])
   else Some (cm3, [])).
Proof.
  intros Ht Hs Hr Hok. unfold leaderOnAEReply.
  rewrite Hr, Ht, Hs, Hok.
  destruct (Z.gtb_spec T T); [lia |].
  rewrite Z.eqb_refl. reflexivity.
Qed.

(** X18.  One round of replication brings a lagging follower up to date.
    The leader holds [nextIndex = ni] for a peer whose log is the first
    [m >= ni] entries of the leader's own and whose term is not ahead.
    Then the request the leader builds is accepted, the follower's log
    becomes the leader's log, and on the reply the leader records
    [nextIndex = len(log)] and [matchIndex = len(log) - 1] for the peer. *)
Theorem replication_round
    (L F : CM.t) (peerId now : Z) (order : list string) (m : nat) :
  CM.state L = Leader ->
  -1 <= CM.commitIndex L ->
  len (CM.log L) <= maxInt ->
  0 <= goGet (CM.nextIndex L) peerId <= Z.of_nat m ->
  Z.of_nat m <= len (CM.log L) ->
  CM.state F <> Dead ->
  CM.currentTerm F <= CM.currentTerm L ->
  CM.log F = take m (CM.log L) ->
  exists args F' reply evs L' evs',
    leaderPrepareAE L (CM.currentTerm L) peerId
      = Some (goGet (CM.nextIndex L) peerId, args) /\
    AppendEntries F now order args AppendEntriesReply.zero = Some (F', reply, evs) /\
    AppendEntriesReply.Success reply = true /\
    CM.log F' = CM.log L /\
    CM.currentTerm F' = CM.currentTerm L /\
    leaderOnAEReply L (CM.currentTerm L) peerId (goGet (CM.nextIndex L) peerId)
                    (AppendEntriesArgs.Entries args) reply = Some (L', evs') /\
    CM.log L' = CM.log L /\
    goGet (CM.nextIndex L') peerId = len (CM.log L) /\
    goGet (CM.matchIndex L') peerId = len (CM.log L) - 1.
Proof.
  intros HsL HcL Hmax Hni Hm HsF HtF HlF.
  set (ni := goGet (CM.nextIndex L) peerId) in *.
  set (T := CM.currentTerm L) in *.
  destruct (leaderPrepareAE_Some L T peerId Hmax ltac:(fold ni; lia))
    as (plt & Hprep & Hplt0 & Hplt).
  fold ni in Hprep, Hplt0, Hplt.
  set (entries := drop (Z.to_nat ni) (CM.log L)) in *.
  set (args := AppendEntriesArgs.mk T (CM.id L) (ni - 1) plt entries (CM.commitIndex L)
                 (match entries with e :: _ => LogEntry.ChosenId e | [] => -1 end)) in *.
  assert (Hle : len entries = len (CM.log L) - ni).
  { unfold entries. rewrite len_drop by lia. lia. }
  (* the follower *)
  destruct (aeEnter_fields F now args HtF) as (Hlog3 & _ & Hst3 & Hct3 & _).
  set (cm3 := aeEnter F now args) in *.
  assert (Hpm : prevMatches cm3 args = Some true).
  { apply prevMatches_intro.
    change (AppendEntriesArgs.PrevLogIndex args) with (ni - 1).
    change (AppendEntriesArgs.PrevLogTerm args) with plt.
    destruct (Z.eq_dec ni 0) as [Hz | Hnz]; [left; lia | right].
    destruct Hplt as (e & He & Hpe); [lia |].
    exists e. split; [| symmetry; exact Hpe].
    rewrite Hlog3, HlF. rewrite index_take by lia. exact He. }
  assert (Hp : -1 <= AppendEntriesArgs.PrevLogIndex args < len (CM.log cm3)).
  { change (-1 <= ni - 1 < len (CM.log cm3)).
    rewrite Hlog3, HlF, len_take by lia. lia. }
  destruct (appendMatched_returns cm3 order args Hp) as (F' & evs & Ham).
  assert (HlogF' : CM.log F' = CM.log L).
  { destruct (appendMatched_log _ _ _ _ _ Hp Ham)
      as (ni' & _ & _ & Hfi & _ & Hcase).
    change (AppendEntriesArgs.PrevLogIndex args) with (ni - 1) in Hfi, Hcase.
    change (AppendEntriesArgs.Entries args) with entries in Hfi, Hcase.
    rewrite Hlog3, HlF in Hfi.
    replace (ni - 1 + 1) with ni in Hfi by lia.
    rewrite (findInsertion_prefix (CM.log L) m entries ni 0) in Hfi
      by (lia || reflexivity).
    injection Hfi as Hfi1 Hfi2.
    destruct Hcase as [(He & Hl & _) | (Hlt & prefix & suffix & Hpre & Hsuf & Hl & _)].
    - rewrite Hl, Hlog3, HlF. apply take_ge. unfold len in *. lia.
    - replace (ni - 1 + 1 + ni') with (len (CM.log cm3)) in Hpre
        by (rewrite Hlog3, HlF, len_take by lia; lia).
      rewrite slice_prefix_all in Hpre.
      assert (Ep : prefix = CM.log cm3) by congruence.
      rewrite slice_to_end in Hsuf by lia.
      assert (Es : suffix = drop (Z.to_nat ni') entries) by congruence.
      rewrite Hl, Ep, Es, Hlog3, HlF. unfold entries. rewrite drop_drop.
      replace (Z.to_nat ni + Z.to_nat ni')%nat with m by lia.
      apply take_drop. }
  assert (HtF' : CM.currentTerm F' = T).
  { rewrite (appendMatched_frame _ _ _ _ _ Ham). exact Hct3. }
  assert (HAE : AppendEntries F now order args AppendEntriesReply.zero
                = Some (F', AppendEntriesReply.mk T true 0 0, evs)).
  { rewrite AppendEntries_unfold.
    apply CMState_eqb_neq in HsF. rewrite HsF.
    destruct (Z.ltb_spec (AppendEntriesArgs.Term args) (CM.currentTerm F));
      [simpl in *; lia |].
    cbv zeta. fold cm3. rewrite Hpm. simpl. rewrite Ham. simpl.
    rewrite HtF'. reflexivity. }
  (* the leader, on the reply *)
  assert (HRe : exists L' evs',
             leaderOnAEReply L T peerId ni entries (AppendEntriesReply.mk T true 0 0)
             = Some (L', evs') /\
             CM.log L' = CM.log L /\
             goGet (CM.nextIndex L') peerId = len (CM.log L) /\
             goGet (CM.matchIndex L') peerId = len (CM.log L) - 1).
  { rewrite (leaderOnAEReply_success L T peerId ni entries
               (AppendEntriesReply.mk T true 0 0) eq_refl HsL eq_refl eq_refl).
    cbv zeta.
    match goal with
    | |- context [advanceCommitIndex ?c] =>
        destruct (advanceCommitIndex_spec c HcL) as (ci & Hadv & _); rewrite Hadv
    end.
    cbn [mbind option_bind].
    pose proof (len_nonneg (CM.log L)) as Hnn.
    assert (Hw1 : wrapInt (ni + len entries) = len (CM.log L)).
    { rewrite Hle. replace (ni + (len (CM.log L) - ni)) with (len (CM.log L)) by lia.
      apply wrapInt_id. unfold minInt, maxInt in *. lia. }
    assert (Hw2 : wrapInt (len (CM.log L) - 1) = len (CM.log L) - 1).
    { apply wrapInt_id. unfold minInt, maxInt in *. lia. }
    destruct (negb _); eexists _, _; (split; [reflexivity |]);
      cbn [CM.log CM.nextIndex CM.matchIndex CM.set_commitIndex CM.set_matchIndex
           CM.set_nextIndex];
      rewrite !goGet_insert, Hw1, Hw2; auto. }
  destruct HRe as (L' & evs' & HRe & HlL' & Hn & Hmi).
  exists args, F', (AppendEntriesReply.mk T true 0 0), evs, L', evs'.
  split; [exact Hprep |]. split; [exact HAE |]. split; [reflexivity |].
  split; [exact HlogF' |]. split; [exact HtF' |]. split; [exact HRe |].
  split; [exact HlL' |]. split; [exact Hn | exact Hmi].
Qed.

Lemma replication_round_witness :
  exists args F' reply evs L' evs',
    leaderPrepareAE leaderOneEntry 2 3 = Some (0, args) /\
    AppendEntries idleFollower 0 anyOrder args AppendEntriesReply.zero
      = Some (F', reply, evs) /\
    CM.log F' = [entryAt 2 0] /\
    leaderOnAEReply leaderOneEntry 2 3 0 (AppendEntriesArgs.Entries args) reply
      = Some (L', evs') /\
    goGet (CM.matchIndex L') 3 = 0.
Proof.
  assert (H1 : CM.state leaderOneEntry = Leader) by reflexivity.
  assert (H2 : -1 <= CM.commitIndex leaderOneEntry) by (vm_compute; discriminate).
  assert (H3 : len (CM.log leaderOneEntry) <= maxInt) by (vm_compute; discriminate).
  assert (H4 : 0 <= goGet (CM.nextIndex leaderOneEntry) 3 <= Z.of_nat 0)
    by (vm_compute; split; discriminate).
  assert (H5 : Z.of_nat 0 <= len (CM.log leaderOneEntry)) by (vm_compute; discriminate).
  assert (H6 : CM.state idleFollower <> Dead) by discriminate.
  assert (H7 : CM.currentTerm idleFollower <= CM.currentTerm leaderOneEntry)
    by (vm_compute; discriminate).
  assert (H8 : CM.log idleFollower = take 0 (CM.log leaderOneEntry)) by reflexivity.
  destruct (replication_round leaderOneEntry idleFollower 3 0 anyOrder 0
              H1 H2 H3 H4 H5 H6 H7 H8)
    as (args & F' & reply & evs & L' & evs' & Ha & Hb & _ & Hc & _ & Hd & _ & _ & He).
  exists args, F', reply, evs, L', evs'.
  split; [exact Ha |]. split; [exact Hb |]. split; [exact Hc |].
  split; [exact Hd | exact He].
Defined.

(** ** A stopped node *)

(** X19.  What a stopped node still reacts to.  After [Stop], the two RPC
    handlers return at once, with the reply untouched and the node as it
    is.  The handler of an AppendEntries reply, however, does not look at
    the state before it compares terms: a reply with a larger term turns
    the stopped node into a Follower of that term with no vote; any other
    reply leaves it Dead. *)
Theorem stopped_node_reactions (cm : CM.t) :
  (forall now args reply0,
     RequestVote (Stop cm) now args reply0 = Some (Stop cm, reply0, [])) /\
  (forall now order args reply0,
     AppendEntries (Stop cm) now order args reply0 = Some (Stop cm, reply0, [])) /\
  (forall savedCurrentTerm peerId ni entries reply,
     exists cm',
       leaderOnAEReply (Stop cm) savedCurrentTerm peerId ni entries reply
         = Some (cm', []) /\
       if AppendEntriesReply.Term reply >? CM.currentTerm cm
       then CM.state cm' = Follower /\
            CM.currentTerm cm' = AppendEntriesReply.Term reply /\
            CM.votedFor cm' = -1
       else cm' = Stop cm).
Proof.
  split; [reflexivity |]. split; [reflexivity |].
  intros savedCurrentTerm peerId ni entries reply. unfold leaderOnAEReply.
  change (CM.currentTerm (Stop cm)) with (CM.currentTerm cm).
  destruct (_ >? _).
  - eexists. split; [reflexivity |]. repeat split.
  - eexists. split; [reflexivity | reflexivity].
Qed.

(** ** What reaches the store *)

Lemma storeWrites_app (a b : list Event) :
  storeWrites (a ++ b) = storeWrites a ++ storeWrites b.
Proof. unfold storeWrites. apply flat_map_app. Qed.

(** [persistToStorage] hands exactly one record to the store: that of the
    last entry. *)
Lemma persistToStorage_writes (cm : CM.t) (order : list string) (pevs : list Event) :
  persistToStorage cm order = Some pevs ->
  exists e, index (CM.log cm) (lastIndex cm) = Some e /\
    storeWrites pevs =
    [<["checksum" := VStr (hexBytes (SHA512.Sum512
                       (checksumInput (termDataOf cm (lastIndex cm) e) order)))]>
       (termDataOf cm (lastIndex cm) e)].
Proof.
  intros H.
  destruct (index (CM.log cm) (lastIndex cm)) as [e|] eqn:He.
  - exists e. split; [reflexivity |].
    rewrite (persistToStorage_Some cm order e He) in H. injection H as <-.
    cbv zeta. destruct (checkIfChosen _ _), (CMState_eqb _ _); reflexivity.
  - unfold persistToStorage in H. fold (lastIndex cm) in H.
    rewrite He in H. discriminate.
Qed.

Lemma termDataOf_fields (cm : CM.t) (last : Z) (e : LogEntry.t) (sum : Value) :
  let r := <["checksum" := sum]> (termDataOf cm last e) in
  r !! "Id" = Some (VStr (hexInt last)) /\
  r !! "Term" = Some (VStr (Itoa (CM.currentTerm cm))) /\
  r !! "Command" = Some (VService (LogEntry.Command e)) /\
  r !! "Leader" = Some (VStr (Itoa (LogEntry.LeaderId e))) /\
  r !! "Chosen" = Some (VStr (Itoa (LogEntry.ChosenId e))) /\
  r !! "VotedFor" = Some (VStr (Itoa (CM.votedFor cm))).
Proof.
  unfold termDataOf. cbv zeta.
  repeat split;
    repeat (rewrite lookup_insert_ne by discriminate);
    apply lookup_insert_eq.
Qed.

(** X20.  What comes back of a persisted entry.  [persistToStorage]
    stores one record, whose [Term] is the current term of the node and
    not the term of the entry.  A record with these [Term], [Leader] and
    [Chosen] and the entry's command as an object is read back by the loop
    of [restoreFromStorage] as an entry with the same command, leader and
    chosen id, but with the node's term at the time of the write. *)
Theorem persisted_entry_restores_with_current_term
    (cm : CM.t) (order : list string) (e : LogEntry.t) (n i : Z) :
  index (CM.log cm) (len (CM.log cm) - 1) = Some e ->
  minInt <= CM.currentTerm cm <= maxInt ->
  minInt <= LogEntry.LeaderId e <= maxInt ->
  minInt <= LogEntry.ChosenId e <= maxInt ->
  exists r evs,
    persistToStorage cm order = Some evs /\
    storeWrites evs = [r] /\
    r !! "Term" = Some (VStr (Itoa (CM.currentTerm cm))) /\
    forall r' : gmap string Value,
      r' !! "Term" = r !! "Term" ->
      r' !! "Leader" = r !! "Leader" ->
      r' !! "Chosen" = r !! "Chosen" ->
      r' !! "Command" = Some (commandObject (LogEntry.Command e)) ->
      restoreEntry n i r' =
      Some (LogEntry.mk (LogEntry.Command e) (CM.currentTerm cm) (LogEntry.LeaderId e)
                        (n - i - 1) (LogEntry.ChosenId e)).
Proof.
  intros He Ht Hl Hc.
  pose proof (index_is_Some_range _ _ _ He) as Hr.
  destruct (lastIndex_nonempty cm ltac:(lia)) as [Hlast _].
  rewrite <- Hlast in He.
  destruct (persistToStorage_returns cm order ltac:(lia)) as [evs Hp].
  destruct (persistToStorage_writes cm order evs Hp) as (e' & He' & Hw).
  rewrite He in He'. injection He' as <-.
  eexists _, evs. split; [exact Hp |]. split; [exact Hw |].
  destruct (termDataOf_fields cm (lastIndex cm) e
              (VStr (hexBytes (SHA512.Sum512
                 (checksumInput (termDataOf cm (lastIndex cm) e) order)))))
    as (_ & Hrt & _ & Hrl & Hrc & _).
  cbv zeta in Hrt, Hrl, Hrc.
  split; [exact Hrt |].
  intros r' H1 H2 H3 H4. rewrite Hrt in H1. rewrite Hrl in H2. rewrite Hrc in H3.
  apply (restoreEntry_persisted n i r'
           (LogEntry.mk (LogEntry.Command e) (CM.currentTerm cm) (LogEntry.LeaderId e)
                        0 (LogEntry.ChosenId e))); assumption.
Qed.

Lemma persisted_entry_restores_with_current_term_witness :
  exists r evs,
    persistToStorage committedOldTerm anyOrder = Some evs /\
    storeWrites evs = [r] /\
    LogEntry.Term (entryAt 1 0) = 1 /\
    restoreEntry 1 0 (<["Command" := commandObject svc]> r)
      = Some (LogEntry.mk svc 2 1 0 2).
Proof.
  assert (H1 : index (CM.log committedOldTerm) (len (CM.log committedOldTerm) - 1)
               = Some (entryAt 1 0)) by reflexivity.
  assert (H2 : minInt <= CM.currentTerm committedOldTerm <= maxInt)
    by (vm_compute; split; discriminate).
  assert (H3 : minInt <= LogEntry.LeaderId (entryAt 1 0) <= maxInt)
    by (vm_compute; split; discriminate).
  assert (H4 : minInt <= LogEntry.ChosenId (entryAt 1 0) <= maxInt)
    by (vm_compute; split; discriminate).
  destruct (persisted_entry_restores_with_current_term committedOldTerm anyOrder
              (entryAt 1 0) 1 0 H1 H2 H3 H4) as (r & evs & Hp & Hw & _ & Hr).
  exists r, evs. split; [exact Hp |]. split; [exact Hw |]. split; [reflexivity |].
  apply Hr.
  - apply lookup_insert_ne. discriminate.
  - apply lookup_insert_ne. discriminate.
  - apply lookup_insert_ne. discriminate.
  - apply lookup_insert_eq.
Defined.

(** X21.  One record per AppendEntries.  Whatever the number of entries a
    request carries, the handler hands at most one record to the store.
    When none is handed over the log is unchanged; otherwise the record is
    that of the last entry of the new log: it carries the position of that
    entry and its leader, chosen id and command. *)
Theorem append_entries_stores_last_entry_only
    cm now order args reply0 cm' reply evs :
  AppendEntries cm now order args reply0 = Some (cm', reply, evs) ->
  (storeWrites evs = [] /\ CM.log cm' = CM.log cm) \/
  (exists r e,
     storeWrites evs = [r] /\
     0 < len (AppendEntriesArgs.Entries args) /\
     index (CM.log cm') (len (CM.log cm') - 1) = Some e /\
     last (AppendEntriesArgs.Entries args) = Some e /\
     r !! "Id" = Some (VStr (hexInt (len (CM.log cm') - 1))) /\
     r !! "Leader" = Some (VStr (Itoa (LogEntry.LeaderId e))) /\
     r !! "Chosen" = Some (VStr (Itoa (LogEntry.ChosenId e))) /\
     r !! "Command" = Some (VService (LogEntry.Command e))).
Proof.
  intros H. rewrite AppendEntries_unfold in H.
  destruct (CMState_eqb (CM.state cm) Dead).
  { injection H as <- _ <-. left. split; reflexivity. }
  destruct (Z.ltb_spec (AppendEntriesArgs.Term args) (CM.currentTerm cm)) as [Hlt | Hge].
  { injection H as <- _ <-. left. split; reflexivity. }
  cbv zeta in H.
  destruct (aeEnter_fields cm now args Hge) as (Hlog & _).
  set (cm3 := aeEnter cm now args) in *.
  destruct (prevMatches cm3 args) as [[|]|] eqn:Hpm; simpl in H; [| | discriminate].
  - destruct (appendMatched cm3 order args) as [[cm1 evs1]|] eqn:Ham; simpl in H;
      [| discriminate].
    injection H as <- _ <-.
    destruct (prevMatches_true _ _ Hpm) as [Hp _].
    destruct (appendMatched_log _ _ _ _ _ Hp Ham)
      as (ni & Hni & _ & _ & _ & Hcase).
    destruct Hcase as [(_ & Hl & Hev) |
                       (Hlt & prefix & suffix & Hpre & Hsuf & Hl & pevs & Hper & Hev)].
    + left. split; [| rewrite Hl; exact Hlog].
      destruct Hev as [-> | ->]; reflexivity.
    + right.
      destruct (persistToStorage_writes _ _ _ Hper) as (e & He & Hw).
      destruct (slice_index _ _ _ _ Hsuf) as [Hls His].
      destruct (slice_index _ _ _ _ Hpre) as [Hlp _].
      pose proof (len_nonneg prefix) as Hpn.
      assert (Hlen : len (CM.log cm1) = len prefix + len suffix)
        by (rewrite Hl; apply len_app).
      destruct (lastIndex_nonempty (CM.set_log (prefix ++ suffix) cm3)) as [Hlast _].
      { change (0 < len (prefix ++ suffix)). rewrite len_app. lia. }
      change (CM.log (CM.set_log (prefix ++ suffix) cm3)) with (prefix ++ suffix)
        in Hlast, He.
      rewrite Hlast in He, Hw. rewrite <- Hl in He, Hw.
      destruct (termDataOf_fields (CM.set_log (prefix ++ suffix) cm3)
                  (len (CM.log cm1) - 1) e
                  (VStr (hexBytes (SHA512.Sum512
                     (checksumInput (termDataOf (CM.set_log (prefix ++ suffix) cm3)
                                       (len (CM.log cm1) - 1) e) order)))))
        as (Hid & _ & Hcmd & Hld & Hch & _).
      cbv zeta in Hid, Hcmd, Hld, Hch.
      eexists _, e. split.
      { destruct Hev as [-> | ->]; [exact Hw |].
        rewrite storeWrites_app, Hw. reflexivity. }
      split; [lia |]. split; [exact He |].
      split; [| split; [exact Hid |]; split; [exact Hld |]; split; [exact Hch | exact Hcmd]].
      (* the last entry of the request *)
      rewrite Hl in He. rewrite index_app_r in He by (rewrite ?len_app; lia).
      rewrite len_app in He.
      replace (len prefix + len suffix - 1 - len prefix) with (len suffix - 1) in He by lia.
      rewrite His in He by lia.
      replace (ni + (len suffix - 1)) with (len (AppendEntriesArgs.Entries args) - 1)
        in He by lia.
      apply index_Some in He as [_ He].
      rewrite last_lookup. rewrite <- He. f_equal. unfold len. lia.
  - destruct (conflictHints cm3 args) as [[ci ct]|]; simpl in H; [| discriminate].
    injection H as <- _ <-. left. split; [reflexivity | exact Hlog].
Qed.

Lemma append_entries_stores_last_entry_only_witness :
  exists cm' reply evs r,
    AppendEntries idleFollower 0 anyOrder aeTwoEntries AppendEntriesReply.zero
      = Some (cm', reply, evs) /\
    len (CM.log cm') = 2 /\
    storeWrites evs = [r] /\
    r !! "Id" = Some (VStr "1").
Proof.
  set (cm1 := CM.set_commitIndex 0
                (CM.set_log [entryAt 1 0; entryAt 1 1]
                   (CM.set_electionResetEvent 0 idleFollower))).
  set (evs := [EvStorageSet (<["checksum" := VStr (hexBytes (SHA512.Sum512
                                 (checksumInput (termDataOf cm1 1 (entryAt 1 1)) anyOrder)))]>
                             (termDataOf cm1 1 (entryAt 1 1)));
               EvNewCommitReady]).
  assert (Ha : AppendEntries idleFollower 0 anyOrder aeTwoEntries AppendEntriesReply.zero
               = Some (cm1, AppendEntriesReply.mk 1 true 0 0, evs)) by reflexivity.
  destruct (append_entries_stores_last_entry_only idleFollower 0 anyOrder aeTwoEntries
              AppendEntriesReply.zero cm1 _ evs Ha)
    as [[_ Hl] | (r & e & Hw & _ & _ & _ & Hid & _)].
  - discriminate Hl.
  - exists cm1, (AppendEntriesReply.mk 1 true 0 0), evs, r.
    split; [exact Ha |]. split; [reflexivity |]. split; [exact Hw | exact Hid].
Defined.

(** ** One round of an election *)

(** A node that is behind in term and not ahead in log grants its vote. *)
Lemma RequestVote_grants cm now args reply0 (last : Z * Z) :
  CM.state cm <> Dead ->
  CM.currentTerm cm < RequestVoteArgs.Term args ->
  RequestVoteArgs.LoadLevel args <> 0 ->
  lastLogIndexAndTerm cm = Some last ->
  upToDate (RequestVoteArgs.LastLogIndex args, RequestVoteArgs.LastLogTerm args) last ->
  RequestVote cm now args reply0 =
  Some (CM.set_electionResetEvent now
          (CM.set_votedFor (RequestVoteArgs.CandidateId args)
             (becomeFollower cm (RequestVoteArgs.Term args))),
        RequestVoteReply.mk (RequestVoteArgs.Term args) true (CM.loadLevel cm),
        [EvSleep (100 ÷ RequestVoteArgs.LoadLevel args)]).
Proof.
  intros Hst Ht Hll Hlast Hup. destruct last as [li lt].
  unfold RequestVote, RequestVote_enter, RequestVote_decide, runVoteDelay.
  rewrite (proj2 (CMState_eqb_neq _ _) Hst), Hlast.
  cbn [mbind option_bind].
  destruct (Z.gtb_spec (RequestVoteArgs.Term args) (CM.currentTerm cm)); [| lia].
  cbn [CM.state becomeFollower CM.set_votedFor CM.set_currentTerm CM.set_state
       CMState_eqb negb CM.currentTerm CM.votedFor].
  destruct (Z.eqb_spec (RequestVoteArgs.LoadLevel args) 0); [contradiction |].
  cbn [mbind option_bind].
  rewrite Z.eqb_refl. cbn [andb orb Z.eqb].
  assert (Hlog : (RequestVoteArgs.LastLogTerm args >? lt)
                 || ((RequestVoteArgs.LastLogTerm args =? lt)
                     && (RequestVoteArgs.LastLogIndex args >=? li)) = true).
  { unfold upToDate in Hup. simpl in Hup.
    destruct (Z.gtb_spec (RequestVoteArgs.LastLogTerm args) lt); [reflexivity |].
    destruct (Z.eqb_spec (RequestVoteArgs.LastLogTerm args) lt); [| lia].
    destruct (Z.geb_spec (RequestVoteArgs.LastLogIndex args) li); [reflexivity | lia]. }
  rewrite Hlog. reflexivity.
Qed.

Lemma startLeader_loadLevelMap (cm : CM.t) :
  CM.loadLevelMap (startLeader cm).1 = CM.loadLevelMap cm.
Proof.
  unfold startLeader, initLeaderIndexes. simpl.
  destruct (initLeaderIndexes_spec (CM.peerIds cm) (CM.set_state Leader cm))
    as [Hshape _]. cbn zeta in Hshape. simpl in Hshape.
  rewrite Hshape. reflexivity.
Qed.

(** X22.  One round of an election.  A node starts an election; a peer
    that is not Dead, whose term is not ahead and whose log is not more up
    to date receives the request the candidate builds.  The peer grants
    its vote, adopts the new term and answers with its own load level; on
    that reply the candidate records the load level of the peer and counts
    two votes, which makes it Leader exactly when it has fewer than four
    peers. *)
Theorem election_round (C0 F : CM.t) (now now' peerId : Z) (lc lf : Z * Z) :
  minInt <= CM.currentTerm C0 < maxInt ->
  CM.loadLevel C0 <> 0 ->
  CM.state F <> Dead ->
  CM.currentTerm F <= CM.currentTerm C0 ->
  lastLogIndexAndTerm C0 = Some lc ->
  lastLogIndexAndTerm F = Some lf ->
  upToDate lc lf ->
  exists C args F' reply evs C' evs',
    StartElection C0 now = (C, CM.currentTerm C0 + 1, 1) /\
    voteRequestArgs C (CM.currentTerm C0 + 1) = Some args /\
    RequestVote F now' args RequestVoteReply.zero = Some (F', reply, evs) /\
    RequestVoteReply.VoteGranted reply = true /\
    RequestVoteReply.LoadLevel reply = CM.loadLevel F /\
    CM.state F' = Follower /\
    CM.currentTerm F' = CM.currentTerm C0 + 1 /\
    CM.votedFor F' = CM.id C0 /\
    onVoteReply C (CM.currentTerm C0 + 1) 1 peerId reply = (C', 2, evs') /\
    CM.loadLevelMap C' !! peerId = Some (CM.loadLevel F) /\
    CM.currentTerm C' = CM.currentTerm C0 + 1 /\
    CM.state C' = (if len (CM.peerIds C0) <? 4 then Leader else Candidate).
Proof.
  intros Hterm Hll HsF HtF Hlc Hlf Hup.
  set (T := CM.currentTerm C0 + 1).
  assert (Hw : wrapInt (CM.currentTerm C0 + 1) = T).
  { apply wrapInt_id. unfold minInt, maxInt in *. lia. }
  set (C := (StartElection C0 now).1.1).
  assert (HSE : StartElection C0 now = (C, T, 1)).
  { unfold C, StartElection. cbn [fst snd]. cbv zeta.
    cbn [CM.currentTerm CM.set_currentTerm CM.set_state CM.set_electionResetEvent
         CM.set_votedFor CM.set_loadLevelMap].
    rewrite Hw. reflexivity. }
  assert (HC : CM.log C = CM.log C0 /\ CM.id C = CM.id C0 /\
               CM.loadLevel C = CM.loadLevel C0 /\ CM.state C = Candidate /\
               CM.peerIds C = CM.peerIds C0 /\ CM.currentTerm C = T).
  { unfold C, StartElection. cbn. rewrite Hw. repeat split; reflexivity. }
  destruct HC as (HClog & HCid & HCll & HCst & HCpeers & HCt).
  destruct lc as [ci ct].
  set (args := RequestVoteArgs.mk T (CM.id C0) ci ct (CM.loadLevel C0)).
  assert (Hargs : voteRequestArgs C T = Some args).
  { unfold voteRequestArgs.
    replace (lastLogIndexAndTerm C) with (lastLogIndexAndTerm C0)
      by (unfold lastLogIndexAndTerm; rewrite HClog; reflexivity).
    rewrite Hlc. cbn [mbind option_bind]. rewrite HCid, HCll. reflexivity. }
  assert (HRV := RequestVote_grants F now' args RequestVoteReply.zero lf HsF
                   ltac:(simpl; lia) Hll Hlf Hup).
  set (reply := RequestVoteReply.mk T true (CM.loadLevel F)) in *.
  set (CA := CM.set_loadLevelMap (<[peerId := CM.loadLevel F]> (CM.loadLevelMap C)) C).
  assert (HOV : onVoteReply C T 1 peerId reply =
                if 4 >? len (CM.peerIds C0) then
                  ((startLeader CA).1, 2, (startLeader CA).2)
                else (CA, 2, [])).
  { unfold onVoteReply.
    cbn [RequestVoteReply.LoadLevel RequestVoteReply.Term RequestVoteReply.VoteGranted reply].
    fold CA. change (CM.state CA) with (CM.state C). rewrite HCst.
    cbn [CMState_eqb negb].
    destruct (Z.gtb_spec T T); [lia |]. rewrite Z.eqb_refl.
    change (CM.peerIds CA) with (CM.peerIds C). rewrite HCpeers.
    change ((1 + 1) * 2) with 4. change (1 + 1) with 2.
    destruct (_ >? _); reflexivity. }
  eexists C, args, _, reply, _.
  destruct (Z.gtb_spec 4 (len (CM.peerIds C0))) as [Hlt | Hge].
  - exists (startLeader CA).1, (startLeader CA).2.
    split; [exact HSE |]. split; [exact Hargs |]. split; [exact HRV |].
    split; [reflexivity |]. split; [reflexivity |]. split; [reflexivity |].
    split; [reflexivity |]. split; [reflexivity |]. split; [exact HOV |].
    destruct (startLeader_keeps CA) as (Hs & Ht & _).
    split.
    { rewrite startLeader_loadLevelMap. unfold CA. simpl. apply lookup_insert_eq. }
    split; [rewrite Ht; exact HCt |].
    rewrite Hs. destruct (Z.ltb_spec (len (CM.peerIds C0)) 4); [reflexivity | lia].
  - exists CA, [].
    split; [exact HSE |]. split; [exact Hargs |]. split; [exact HRV |].
    split; [reflexivity |]. split; [reflexivity |]. split; [reflexivity |].
    split; [reflexivity |]. split; [reflexivity |]. split; [exact HOV |].
    split; [unfold CA; simpl; apply lookup_insert_eq |].
    split; [exact HCt |].
    change (CM.state CA) with (CM.state C). rewrite HCst.
    destruct (Z.ltb_spec (len (CM.peerIds C0)) 4); [lia | reflexivity].
Qed.

Lemma election_round_witness :
  exists C args F' reply evs C' evs',
    StartElection idleFollower 0 = (C, 2, 1) /\
    voteRequestArgs C 2 = Some args /\
    RequestVote peerOne 5 args RequestVoteReply.zero = Some (F', reply, evs) /\
    RequestVoteReply.VoteGranted reply = true /\
    onVoteReply C 2 1 1 reply = (C', 2, evs') /\
    CM.loadLevelMap C' !! 1 = Some 7 /\
    CM.state C' = Leader.
Proof.
  assert (H1 : minInt <= CM.currentTerm idleFollower < maxInt)
    by (vm_compute; split; [discriminate | reflexivity]).
  assert (H2 : CM.loadLevel idleFollower <> 0) by discriminate.
  assert (H3 : CM.state peerOne <> Dead) by discriminate.
  assert (H4 : CM.currentTerm peerOne <= CM.currentTerm idleFollower)
    by (vm_compute; discriminate).
  assert (H5 : lastLogIndexAndTerm idleFollower = Some (-1, -1)) by reflexivity.
  assert (H6 : lastLogIndexAndTerm peerOne = Some (-1, -1)) by reflexivity.
  assert (H7 : upToDate (-1, -1) (-1, -1)) by (right; simpl; lia).
  destruct (election_round idleFollower peerOne 0 5 1 (-1, -1) (-1, -1)
              H1 H2 H3 H4 H5 H6 H7)
    as (C & args & F' & reply & evs & C' & evs' &
        Ha & Hb & Hc & Hd & _ & _ & _ & _ & He & Hf & _ & Hg).
  exists C, args, F', reply, evs, C', evs'.
  split; [exact Ha |]. split; [exact Hb |]. split; [exact Hc |]. split; [exact Hd |].
  split; [exact He |]. split; [exact Hf | exact Hg].
Defined.

(** ** The leader's [nextIndex] stays inside its log *)

Lemma lastIndexOfTerm_spec (l : list LogEntry.t) (t : Z) : forall n : nat,
  (n <= length l)%nat ->
  exists r, lastIndexOfTerm l n t = Some r /\ -1 <= r < Z.of_nat n /\
    (0 <= r -> exists e, index l r = Some e /\ LogEntry.Term e = t) /\
    (forall k e, r < k < Z.of_nat n -> index l k = Some e -> LogEntry.Term e <> t).
Proof.
  induction n as [|n IH]; intros Hn; simpl.
  - exists (-1). split; [reflexivity |]. split; [lia |].
    split; [lia |]. intros k e Hk. lia.
  - destruct (index_in_range l (Z.of_nat n)) as [e He]; [unfold len; lia |].
    rewrite He. simpl.
    destruct (Z.eqb_spec (LogEntry.Term e) t) as [Ht | Ht].
    + exists (Z.of_nat n). split; [reflexivity |]. split; [lia |].
      split; [intros _; exists e; split; assumption |].
      intros k e' Hk. lia.
    + destruct (IH ltac:(lia)) as (r & Hr & Hb & Hfound & Hafter).
      exists r. split; [exact Hr |]. split; [lia |]. split; [exact Hfound |].
      intros k e' Hk He'. destruct (Z.eq_dec k (Z.of_nat n)) as [-> | Hne].
      * rewrite He in He'. injection He' as <-. exact Ht.
      * apply (Hafter k e'); [lia | exact He'].
Qed.

(** The hint a refusing handler sends back never points beyond the
    previous index of the request. *)
Lemma AppendEntries_conflict_index cm now order args cm' reply evs :
  AppendEntries cm now order args AppendEntriesReply.zero = Some (cm', reply, evs) ->
  AppendEntriesReply.Success reply = false ->
  0 <= AppendEntriesReply.ConflictIndex reply /\
  (AppendEntriesReply.ConflictIndex reply = 0 \/
   AppendEntriesReply.ConflictIndex reply <= AppendEntriesArgs.PrevLogIndex args).
Proof.
  intros H Hs. rewrite AppendEntries_unfold in H.
  destruct (CMState_eqb (CM.state cm) Dead).
  { injection H as _ <- _. simpl. split; [lia | left; reflexivity]. }
  destruct (Z.ltb_spec (AppendEntriesArgs.Term args) (CM.currentTerm cm)) as [Hlt | Hge].
  { injection H as _ <- _. simpl. split; [lia | left; reflexivity]. }
  cbv zeta in H.
  set (cm3 := aeEnter cm now args) in *.
  destruct (prevMatches cm3 args) as [[|]|] eqn:Hpm; simpl in H; [| | discriminate].
  - destruct (appendMatched cm3 order args) as [[cm1 evs1]|]; simpl in H;
      [| discriminate].
    injection H as _ <- _. discriminate.
  - destruct (conflictHints cm3 args) as [[ci ct]|] eqn:Hch; simpl in H; [| discriminate].
    injection H as _ <- _. simpl.
    pose proof (len_nonneg (CM.log cm3)) as Hnn.
    destruct (conflictHints_spec cm3 args) as [Hout Hin]. cbv zeta in Hout, Hin.
    destruct (prevMatches_false _ _ Hpm) as [Hlen | [Hr _]].
    + rewrite (Hout Hlen) in Hch.
      assert (Hci : ci = len (CM.log cm3)) by congruence.
      split; [lia | right; lia].
    + destruct (Hin Hr) as (e & j & _ & Hj & (Hjr & _)).
      rewrite Hj in Hch.
      assert (Hci : ci = j) by congruence.
      split; [lia | right; lia].
Qed.

(** A round with nothing in between: the reply to the request the leader
    has just built is handled on the state that built it. *)
Lemma leaderOnAEReply_round
    (L F : CM.t) (savedCurrentTerm peerId now : Z) (order : list string)
    (args : AppendEntriesArgs.t) (F' : CM.t) (reply : AppendEntriesReply.t)
    (evs : list Event) :
  len (CM.log L) <= maxInt ->
  -1 <= CM.commitIndex L ->
  0 <= goGet (CM.nextIndex L) peerId <= len (CM.log L) ->
  leaderPrepareAE L savedCurrentTerm peerId
    = Some (goGet (CM.nextIndex L) peerId, args) ->
  AppendEntries F now order args AppendEntriesReply.zero = Some (F', reply, evs) ->
  exists L' evs',
    leaderOnAEReply L savedCurrentTerm peerId (goGet (CM.nextIndex L) peerId)
                    (AppendEntriesArgs.Entries args) reply = Some (L', evs') /\
    CM.log L' = CM.log L /\
    0 <= goGet (CM.nextIndex L') peerId <= len (CM.log L') /\
    exists args',
      leaderPrepareAE L' savedCurrentTerm peerId
        = Some (goGet (CM.nextIndex L') peerId, args').
Proof.
  intros Hmax Hci Hni Hprep HAE.
  set (ni := goGet (CM.nextIndex L) peerId) in *.
  assert (Hgoal : exists L' evs',
             leaderOnAEReply L savedCurrentTerm peerId ni
                             (AppendEntriesArgs.Entries args) reply = Some (L', evs') /\
             CM.log L' = CM.log L /\
             0 <= goGet (CM.nextIndex L') peerId <= len (CM.log L')).
  { destruct (leaderPrepareAE_Some L savedCurrentTerm peerId Hmax Hni)
      as (plt & Heq & _).
    fold ni in Heq. rewrite Heq in Hprep. injection Hprep as <-.
    cbn [AppendEntriesArgs.Entries].
    set (entries := drop (Z.to_nat ni) (CM.log L)).
    assert (Hle : len entries = len (CM.log L) - ni).
    { unfold entries. rewrite len_drop by lia. lia. }
    pose proof (len_nonneg (CM.log L)) as Hnn.
    unfold leaderOnAEReply.
    destruct (_ >? _).
    { eexists _, _. split; [reflexivity |]. split; [reflexivity |]. exact Hni. }
    destruct (_ && _); [| eexists _, _; split; [reflexivity |]; split;
                           [reflexivity | exact Hni]].
    destruct (AppendEntriesReply.Success reply) eqn:Hs.
    - cbv zeta.
      match goal with
      | |- context [advanceCommitIndex ?c] =>
          destruct (advanceCommitIndex_spec c Hci) as (c' & Hadv & _); rewrite Hadv
      end.
      cbn [mbind option_bind].
      assert (Hw1 : wrapInt (ni + len entries) = len (CM.log L)).
      { rewrite Hle. replace (ni + (len (CM.log L) - ni)) with (len (CM.log L)) by lia.
        apply wrapInt_id. unfold minInt, maxInt in *. lia. }
      destruct (negb _); eexists _, _; (split; [reflexivity |]);
        cbn [CM.log CM.nextIndex CM.matchIndex CM.set_commitIndex CM.set_matchIndex
             CM.set_nextIndex];
        rewrite !goGet_insert, Hw1; (split; [reflexivity | lia]).
    - destruct (AppendEntries_conflict_index _ _ _ _ _ _ _ HAE Hs) as [Hc0 Hc1].
      cbn [AppendEntriesArgs.PrevLogIndex] in Hc1.
      assert (Hc : 0 <= AppendEntriesReply.ConflictIndex reply <= len (CM.log L)) by lia.
      destruct (_ >=? 0).
      + destruct (lastIndexOfTerm_spec (CM.log L) (AppendEntriesReply.ConflictTerm reply)
                    (length (CM.log L)) ltac:(lia)) as (r & Hr & Hb & _).
        rewrite Hr. cbn [mbind option_bind].
        destruct (Z.geb_spec r 0); eexists _, _; (split; [reflexivity |]);
          cbn [CM.log CM.nextIndex CM.set_nextIndex];
          rewrite goGet_insert; (split; [reflexivity |]); unfold len in *; lia.
      + eexists _, _. split; [reflexivity |].
        cbn [CM.log CM.nextIndex CM.set_nextIndex].
        rewrite goGet_insert. split; [reflexivity | exact Hc]. }
  destruct Hgoal as (L' & evs' & HRe & Hlog & Hin).
  exists L', evs'. split; [exact HRe |]. split; [exact Hlog |]. split; [exact Hin |].
  destruct (leaderPrepareAE_Some L' savedCurrentTerm peerId
              ltac:(rewrite Hlog; exact Hmax) Hin) as (plt' & Heq' & _).
  eexists. exact Heq'.
Qed.

(** ** Restart *)

Lemma asString_Some (v : option Value) (s : string) :
  asString v = Some s <-> v = Some (VStr s).
Proof.
  destruct v as [[s'| |]|]; simpl; split; intros H; try discriminate;
    injection H as ->; reflexivity.
Qed.

Lemma asObject_Some (v : option Value) (m : list (string * Value)) :
  asObject v = Some m <-> v = Some (VObj m).
Proof.
  destruct v as [[| |m']|]; simpl; split; intros H; try discriminate;
    injection H as ->; reflexivity.
Qed.

Lemma restoreEntry_is_Some (n i : Z) (r : gmap string Value) :
  is_Some (restoreEntry n i r) <-> wellFormedRecord r.
Proof.
  unfold restoreEntry, wellFormedRecord. split.
  - intros [e H].
    destruct (asString (r !! "Term")) as [t|] eqn:Ht; simpl in H; [| discriminate].
    destruct (asString (r !! "Leader")) as [l|] eqn:Hl; simpl in H; [| discriminate].
    destruct (asString (r !! "Chosen")) as [c|] eqn:Hc; simpl in H; [| discriminate].
    destruct (asObject (r !! "Command")) as [cmd|] eqn:Hcmd; simpl in H; [| discriminate].
    destruct (asString (objGet cmd "ServiceID")) as [sid|] eqn:Hsid; simpl in H;
      [| discriminate].
    destruct (asString (objGet cmd "Type")) as [ty|] eqn:Hty; simpl in H;
      [| discriminate].
    exists t, l, c, cmd, sid, ty.
    apply asString_Some in Ht, Hl, Hc, Hsid, Hty. apply asObject_Some in Hcmd.
    repeat split; assumption.
  - intros (t & l & c & cmd & sid & ty & Ht & Hl & Hc & Hcmd & Hsid & Hty).
    rewrite Ht, Hl, Hc, Hcmd. simpl. rewrite Hsid, Hty. simpl. eauto.
Qed.

Lemma restoreEntries_is_Some (n : Z) (logs : list (gmap string Value)) : forall i,
  is_Some (restoreEntries n i logs) <-> Forall wellFormedRecord logs.
Proof.
  induction logs as [|r rest IH]; intros i; simpl.
  - split; [intros _; constructor | intros _; eauto].
  - split.
    + intros [es H].
      destruct (restoreEntry n i r) as [e|] eqn:He; simpl in H; [| discriminate].
      destruct (restoreEntries n (i + 1) rest) as [es'|] eqn:Hes; simpl in H;
        [| discriminate].
      constructor.
      * apply (restoreEntry_is_Some n i). rewrite He. eauto.
      * apply (IH (i + 1)). rewrite Hes. eauto.
    + intros H. apply Forall_cons in H as [Hr Hrest].
      apply (restoreEntry_is_Some n i) in Hr as [e He].
      apply (IH (i + 1)) in Hrest as [es Hes].
      rewrite He, Hes. simpl. eauto.
Qed.

(** X24.  Restart.  [NewConsensusModule] returns exactly when the store
    reports no data or can be read: the scalars [Term] and [VotedFor] are
    there as strings and every record holds its three numbers as strings
    and its command as an object with [ServiceID] and [Type]; otherwise it
    panics.  The content of the number strings is never a reason to fail.
    The module it returns is a Follower with nothing committed or applied,
    no peers, and one log entry per record of the store. *)
Theorem restart_outcome {S : Type} `{!Storage S} (id : Z) (st : S) :
  (is_Some (NewConsensusModule id st) <-> HasData st = false \/ wellFormedStore st) /\
  (forall cm, NewConsensusModule id st = Some cm ->
     CM.id cm = id /\ CM.state cm = Follower /\ CM.peerIds cm = [] /\
     CM.commitIndex cm = -1 /\ CM.lastApplied cm = -1 /\
     len (CM.log cm) = if HasData st then len (GetLog st) else 0).
Proof.
  unfold NewConsensusModule, restoreFromStorage, wellFormedStore.
  destruct (HasData st).
  - split.
    + split.
      * intros [cm H]. right.
        destruct (Get st "Term") as [t|]; simpl in H; [| discriminate].
        destruct t as [ts| |]; simpl in H; try discriminate.
        destruct (Get st "VotedFor") as [v|]; simpl in H; [| discriminate].
        destruct v as [vs| |]; simpl in H; try discriminate.
        destruct (restoreEntries _ 0 (GetLog st)) as [es|] eqn:Hes; simpl in H;
          [| discriminate].
        split; [eauto |]. split; [eauto |].
        apply (restoreEntries_is_Some (len (GetLog st)) (GetLog st) 0).
        rewrite Hes. eauto.
      * intros [Hf | ([t Ht] & [v Hv] & Hlogs)]; [discriminate |].
        rewrite Ht, Hv. simpl.
        apply (restoreEntries_is_Some (len (GetLog st)) (GetLog st) 0) in Hlogs
          as [es Hes].
        rewrite Hes. simpl. eauto.
    + intros cm H.
      destruct (Get st "Term") as [t|]; simpl in H; [| discriminate].
      destruct t as [ts| |]; simpl in H; try discriminate.
      destruct (Get st "VotedFor") as [v|]; simpl in H; [| discriminate].
      destruct v as [vs| |]; simpl in H; try discriminate.
      destruct (restoreEntries _ 0 (GetLog st)) as [es|] eqn:Hes; simpl in H;
        [| discriminate].
      injection H as <-. simpl.
      destruct (restoreEntries_Index _ _ _ _ Hes) as [Hlen _].
      repeat split. unfold len. rewrite Hlen. reflexivity.
  - split.
    + split; [intros _; left; reflexivity | intros _; eauto].
    + intros cm H. injection H as <-. repeat split.
Qed.

(** ** Panics of the request handlers *)

(** X25.  [Submit] panics exactly on a Leader whose placement selector
    panics; the append and the write that follow a selection never do. *)
Theorem submit_panics_iff_selector_panics
    (cm : CM.t) (command : Service.t)
    (loadOrder : list (Z * Z)) (intn : Z -> Z) (dataOrder : list string) :
  Submit cm command loadOrder intn dataOrder = None <->
  CM.state cm = Leader /\ minLoadLevelMap cm loadOrder intn = None.
Proof.
  unfold Submit.
  destruct (CM.state cm) eqn:Hs; simpl;
    try (split; [discriminate | intros [H _]; discriminate]).
  destruct (minLoadLevelMap cm loadOrder intn) as [chosenId|]; simpl.
  - match goal with
    | |- context [persistToStorage ?c dataOrder] =>
        destruct (persistToStorage_returns c dataOrder) as [evs Hp]
    end.
    { simpl. rewrite len_app. pose proof (len_nonneg (CM.log cm)).
      unfold len at 2. simpl. lia. }
    rewrite Hp. simpl. split; [discriminate | intros [_ H]; discriminate].
  - split; [intros _; split; reflexivity | reflexivity].
Qed.

Lemma grant_test_spec (cm : CM.t) (args : RequestVoteArgs.t) (li lt : Z) :
  (CM.currentTerm cm =? RequestVoteArgs.Term args)
  && ((CM.votedFor cm =? -1) || (CM.votedFor cm =? RequestVoteArgs.CandidateId args))
  && ((RequestVoteArgs.LastLogTerm args >? lt)
      || ((RequestVoteArgs.LastLogTerm args =? lt)
          && (RequestVoteArgs.LastLogIndex args >=? li))) = true
  <-> grantCondition cm args (li, lt).
Proof.
  unfold grantCondition. simpl.
  rewrite !andb_true_iff, !orb_true_iff, andb_true_iff, !Z.eqb_eq.
  rewrite Z.gtb_ltb, Z.geb_leb, Z.ltb_lt, Z.leb_le. intuition lia.
Qed.

(** X26.  When [RequestVote] panics.  The handler divides by the load
    level of the request twice: in the delay it takes unless the node is a
    Candidate, and in the granting branch.  It panics exactly when the
    node is not Dead, the request carries load level 0, and one of the two
    divisions is reached. *)
Theorem request_vote_panics_iff
    (cm : CM.t) (now : Z) (args : RequestVoteArgs.t) (reply0 : RequestVoteReply.t) :
  RequestVote cm now args reply0 = None <->
  CM.state cm <> Dead /\ RequestVoteArgs.LoadLevel args = 0 /\
  (CM.state (if RequestVoteArgs.Term args >? CM.currentTerm cm
             then becomeFollower cm (RequestVoteArgs.Term args) else cm) <> Candidate \/
   exists last, lastLogIndexAndTerm cm = Some last /\
     grantCondition (if RequestVoteArgs.Term args >? CM.currentTerm cm
                     then becomeFollower cm (RequestVoteArgs.Term args) else cm)
                    args last).
Proof.
  unfold RequestVote, RequestVote_enter, RequestVote_decide, runVoteDelay.
  destruct (CMState_eqb (CM.state cm) Dead) eqn:Hd.
  { split; [discriminate |]. intros [H _]. apply CMState_eqb_neq in H. congruence. }
  apply CMState_eqb_neq in Hd.
  destruct (lastLogIndexAndTerm_spec cm) as [[li lt] [Hlast _]].
  rewrite Hlast. cbn [mbind option_bind].
  set (cm1 := if _ >? _ then _ else cm).
  pose proof (grant_test_spec cm1 args li lt) as Hg.
  destruct (CMState_eqb (CM.state cm1) Candidate) eqn:Hc; cbn [negb].
  - assert (Hc' : CM.state cm1 = Candidate) by (destruct (CM.state cm1); simpl in Hc; congruence).
    cbn [mbind option_bind].
    destruct (_ && _ && _).
    + destruct (Z.eqb_spec (RequestVoteArgs.LoadLevel args) 0) as [Hz | Hnz].
      * cbn [mbind option_bind]. split; [| reflexivity]. intros _.
        split; [exact Hd |]. split; [exact Hz |]. right.
        exists (li, lt). split; [reflexivity | apply Hg; reflexivity].
      * cbn [mbind option_bind]. split; [discriminate |].
        intros (_ & Hz & _). contradiction.
    + cbn [mbind option_bind]. split; [discriminate |].
      intros (_ & _ & [Hn | (last & Hl & Hgc)]); [congruence |].
      injection Hl as <-. apply Hg in Hgc. discriminate.
  - apply CMState_eqb_neq in Hc.
    destruct (Z.eqb_spec (RequestVoteArgs.LoadLevel args) 0) as [Hz | Hnz].
    + cbn [mbind option_bind]. split; [| reflexivity]. intros _.
      split; [exact Hd |]. split; [exact Hz |]. left. exact Hc.
    + cbn [mbind option_bind].
      destruct (_ && _ && _); cbn [mbind option_bind];
        (split; [discriminate | intros (_ & Hz & _); contradiction]).
Qed.

(** With the channel left aside, the handler panics only in the read
    [cm.log[PrevLogIndex]]. *)
Lemma AppendEntries_None_iff
    (cm : CM.t) (now : Z) (order : list string)
    (args : AppendEntriesArgs.t) (reply0 : AppendEntriesReply.t) :
  AppendEntries cm now order args reply0 = None <->
  CM.state cm <> Dead /\
  CM.currentTerm cm <= AppendEntriesArgs.Term args /\
  AppendEntriesArgs.PrevLogIndex args < -1.
Proof.
  split.
  - intros H.
    destruct (Z.le_gt_cases (-1) (AppendEntriesArgs.PrevLogIndex args)) as [Hp | Hp].
    { destruct (AppendEntries_returns cm now order args reply0 Hp)
        as (cm' & reply & evs & Hr).
      congruence. }
    rewrite AppendEntries_unfold in H.
    destruct (CMState_eqb (CM.state cm) Dead) eqn:Hd; [discriminate |].
    apply CMState_eqb_neq in Hd.
    destruct (Z.ltb_spec (AppendEntriesArgs.Term args) (CM.currentTerm cm));
      [discriminate |].
    split; [exact Hd |]. split; [assumption | lia].
  - intros (Hd & Ht & Hp). rewrite AppendEntries_unfold.
    rewrite (proj2 (CMState_eqb_neq _ _) Hd).
    destruct (Z.ltb_spec (AppendEntriesArgs.Term args) (CM.currentTerm cm)); [lia |].
    cbv zeta. unfold prevMatches.
    destruct (Z.eqb_spec (AppendEntriesArgs.PrevLogIndex args) (-1)); [lia |].
    pose proof (len_nonneg (CM.log (aeEnter cm now args))).
    destruct (Z.ltb_spec (AppendEntriesArgs.PrevLogIndex args)
                         (len (CM.log (aeEnter cm now args)))); [| lia].
    rewrite index_neg by lia. reflexivity.
Qed.

Lemma persistToStorage_no_commit_ready (cm : CM.t) (order : list string)
    (pevs : list Event) :
  persistToStorage cm order = Some pevs -> sendsCommitReady pevs = false.
Proof.
  intros H.
  destruct (index (CM.log cm) (lastIndex cm)) as [e|] eqn:He.
  - rewrite (persistToStorage_Some cm order e He) in H.
    assert (Hp : pevs = _) by (symmetry; injection H as H; exact H).
    rewrite Hp. cbv zeta.
    destruct (checkIfChosen _ _), (CMState_eqb _ _); reflexivity.
  - unfold persistToStorage in H. fold (lastIndex cm) in H.
    rewrite He in H. discriminate.
Qed.

Lemma sendsCommitReady_app (a b : list Event) :
  sendsCommitReady (a ++ b) = sendsCommitReady a || sendsCommitReady b.
Proof. unfold sendsCommitReady. apply existsb_app. Qed.

(** The matched branch sends on [newCommitReadyChan] exactly when the
    leader's commit index is beyond the local one. *)
Lemma appendMatched_sends cm order args cm' evs :
  appendMatched cm order args = Some (cm', evs) ->
  sendsCommitReady evs = (AppendEntriesArgs.LeaderCommit args >? CM.commitIndex cm).
Proof.
  unfold appendMatched. intros H.
  destruct (findInsertion _ _ _ _) as [[li ni]|]; simpl in H; [| discriminate].
  match type of H with
  | (?m ≫= _) = _ => destruct m as [[cm1 evs1]|] eqn:Hm; simpl in H; [| discriminate]
  end.
  assert (H1 : CM.commitIndex cm1 = CM.commitIndex cm /\ sendsCommitReady evs1 = false).
  { destruct (ni <? _).
    - destruct (slice (CM.log cm) _ _); simpl in Hm; [| discriminate].
      destruct (slice (AppendEntriesArgs.Entries args) _ _); simpl in Hm;
        [| discriminate].
      destruct (persistToStorage _ _) as [pevs|] eqn:Hp; simpl in Hm; [| discriminate].
      apply persistToStorage_no_commit_ready in Hp.
      assert (E1 : cm1 = _) by (symmetry; injection Hm as Hm _; exact Hm).
      assert (E2 : evs1 = pevs) by congruence.
      rewrite E1, E2. split; [reflexivity | exact Hp].
    - assert (E1 : cm1 = cm) by congruence.
      assert (E2 : evs1 = []) by congruence.
      rewrite E1, E2. split; reflexivity. }
  destruct H1 as [Hci Hno]. rewrite Hci in H.
  destruct (_ >? _).
  - assert (E : evs = evs1 ++ [EvNewCommitReady]) by congruence.
    rewrite E, sendsCommitReady_app, Hno. reflexivity.
  - assert (E : evs = evs1) by congruence.
    rewrite E. exact Hno.
Qed.

(** When [AppendEntries] sends on [newCommitReadyChan]. *)
Lemma AppendEntries_sends cm now order args reply0 cm' reply evs :
  AppendEntries cm now order args reply0 = Some (cm', reply, evs) ->
  (sendsCommitReady evs = true <->
   CM.state cm <> Dead /\
   CM.currentTerm cm <= AppendEntriesArgs.Term args /\
   prevMatches cm args = Some true /\
   AppendEntriesArgs.LeaderCommit args > CM.commitIndex cm).
Proof.
  intros H. rewrite AppendEntries_unfold in H.
  destruct (CMState_eqb (CM.state cm) Dead) eqn:Hd.
  { assert (E : evs = []) by congruence. rewrite E.
    split; [discriminate |]. intros [Hn _]. apply CMState_eqb_neq in Hn. congruence. }
  apply CMState_eqb_neq in Hd.
  destruct (Z.ltb_spec (AppendEntriesArgs.Term args) (CM.currentTerm cm)) as [Hlt | Hge].
  { assert (E : evs = []) by congruence. rewrite E.
    split; [discriminate |]. intros (_ & Hle & _). lia. }
  cbv zeta in H.
  destruct (aeEnter_fields cm now args Hge) as (Hlog & Hci & _).
  pose proof (prevMatches_log cm (aeEnter cm now args) args Hlog) as Hpl.
  set (cm3 := aeEnter cm now args) in *.
  rewrite Hpl in H.
  destruct (prevMatches cm args) as [[|]|]; simpl in H; [| | discriminate].
  - destruct (appendMatched cm3 order args) as [[cm1 evs1]|] eqn:Ham; simpl in H;
      [| discriminate].
    assert (E : evs = evs1) by congruence. rewrite E.
    rewrite (appendMatched_sends _ _ _ _ _ Ham), Hci.
    rewrite Z.gtb_ltb, Z.ltb_lt.
    split; [intros Hs; repeat split; [exact Hd | exact Hge | lia] |].
    intros (_ & _ & _ & Hs). lia.
  - destruct (conflictHints cm3 args) as [[ci ct]|]; simpl in H; [| discriminate].
    assert (E : evs = []) by congruence. rewrite E.
    split; [discriminate |]. intros (_ & _ & Hf & _). discriminate.
Qed.

(** X27.  When [AppendEntries] panics.  The handler reads
    [cm.log[PrevLogIndex]] for every [PrevLogIndex] other than -1 that is
    below the length of the log, and after it has raised [commitIndex] it
    sends on [newCommitReadyChan], which [Stop] closes.  On a node that is
    not Dead and whose term is not ahead of the request it panics exactly
    when [PrevLogIndex < -1], or when the channel is closed (the node was
    stopped and has been revived), the previous entry matches and the
    leader's commit index is beyond the local one.  In every other case
    it returns what the handler computes. *)
Theorem append_entries_panics_iff
    (closed : bool) (cm : CM.t) (now : Z) (order : list string)
    (args : AppendEntriesArgs.t) (reply0 : AppendEntriesReply.t) :
  (AppendEntriesChan closed cm now order args reply0 = None <->
   CM.state cm <> Dead /\
   CM.currentTerm cm <= AppendEntriesArgs.Term args /\
   (AppendEntriesArgs.PrevLogIndex args < -1 \/
    (closed = true /\ prevMatches cm args = Some true /\
     AppendEntriesArgs.LeaderCommit args > CM.commitIndex cm))) /\
  (forall r, AppendEntriesChan closed cm now order args reply0 = Some r ->
             AppendEntries cm now order args reply0 = Some r).
Proof.
  unfold AppendEntriesChan. split.
  - destruct (AppendEntries cm now order args reply0) as [[[cm' reply] evs]|] eqn:HAE;
      cbn [mbind option_bind].
    + pose proof (AppendEntries_sends _ _ _ _ _ _ _ _ HAE) as Hs.
      assert (Hsome : ~ (CM.state cm <> Dead /\
                         CM.currentTerm cm <= AppendEntriesArgs.Term args /\
                         AppendEntriesArgs.PrevLogIndex args < -1)).
      { intros Hn. apply AppendEntries_None_iff with (now := now) (order := order)
                     (reply0 := reply0) in Hn. congruence. }
      destruct closed; simpl.
      * destruct (sendsCommitReady evs).
        -- split; [| reflexivity]. intros _.
           destruct (proj1 Hs eq_refl) as (H1 & H2 & H3 & H4).
           split; [exact H1 |]. split; [exact H2 |]. right. auto.
        -- split; [discriminate |].
           intros (H1 & H2 & [H3 | (_ & H4 & H5)]).
           ++ exfalso. apply Hsome. auto.
           ++ assert (Hc : false = true) by (apply Hs; auto). discriminate.
      * split; [discriminate |].
        intros (H1 & H2 & [H3 | (H4 & _)]); [| discriminate].
        exfalso. apply Hsome. auto.
    + split; [| reflexivity]. intros _.
      apply AppendEntries_None_iff in HAE as (H1 & H2 & H3).
      split; [exact H1 |]. split; [exact H2 |]. left. exact H3.
  - intros r H.
    destruct (AppendEntries cm now order args reply0) as [[[cm' reply] evs]|];
      cbn [mbind option_bind] in H; [| discriminate].
    destruct (closed && sendsCommitReady evs); [discriminate | exact H].
Qed.

(** ** How long a vote lasts *)

(** A node of the term of the request that has no vote, or has voted for
    this candidate, and whose log is not more up to date, grants. *)
Lemma RequestVote_grants_same_term cm now args reply0 (last : Z * Z) :
  CM.state cm <> Dead ->
  CM.currentTerm cm = RequestVoteArgs.Term args ->
  CM.votedFor cm = -1 \/ CM.votedFor cm = RequestVoteArgs.CandidateId args ->
  RequestVoteArgs.LoadLevel args <> 0 ->
  lastLogIndexAndTerm cm = Some last ->
  upToDate (RequestVoteArgs.LastLogIndex args, RequestVoteArgs.LastLogTerm args) last ->
  exists evs,
    RequestVote cm now args reply0 =
    Some (CM.set_electionResetEvent now
            (CM.set_votedFor (RequestVoteArgs.CandidateId args) cm),
          RequestVoteReply.mk (RequestVoteArgs.Term args) true (CM.loadLevel cm),
          evs).
Proof.
  intros Hst Ht Hv Hll Hlast Hup. destruct last as [li lt].
  unfold RequestVote, RequestVote_enter, RequestVote_decide, runVoteDelay.
  rewrite (proj2 (CMState_eqb_neq _ _) Hst), Hlast.
  cbn [mbind option_bind].
  destruct (Z.gtb_spec (RequestVoteArgs.Term args) (CM.currentTerm cm)); [lia |].
  destruct (Z.eqb_spec (RequestVoteArgs.LoadLevel args) 0); [contradiction |].
  pose proof (proj2 (grant_test_spec cm args li lt)) as Hg.
  rewrite Hg.
  2:{ unfold grantCondition. simpl. unfold upToDate in Hup. simpl in Hup.
      split; [symmetry; exact Ht |]. split; [exact Hv | exact Hup]. }
  destruct (negb _); simpl; rewrite ?Ht; eexists; reflexivity.
Qed.

(** What a same-term [AppendEntries] does to the vote: a Follower keeps
    it, any other node that is not Dead becomes Follower through
    [becomeFollower], which clears it. *)
Lemma AppendEntries_vote cm now order args reply0 cm' reply evs :
  CM.state cm <> Dead ->
  AppendEntriesArgs.Term args = CM.currentTerm cm ->
  AppendEntries cm now order args reply0 = Some (cm', reply, evs) ->
  CM.state cm' = Follower /\
  CM.currentTerm cm' = CM.currentTerm cm /\
  CM.votedFor cm' = (if CMState_eqb (CM.state cm) Follower then CM.votedFor cm else -1).
Proof.
  intros Hst Ht H. rewrite AppendEntries_unfold in H.
  rewrite (proj2 (CMState_eqb_neq _ _) Hst) in H.
  destruct (Z.ltb_spec (AppendEntriesArgs.Term args) (CM.currentTerm cm)); [lia |].
  cbv zeta in H.
  assert (H3 : CM.state (aeEnter cm now args) = Follower /\
               CM.currentTerm (aeEnter cm now args) = CM.currentTerm cm /\
               CM.votedFor (aeEnter cm now args) =
                 (if CMState_eqb (CM.state cm) Follower then CM.votedFor cm else -1)).
  { unfold aeEnter.
    destruct (Z.gtb_spec (AppendEntriesArgs.Term args) (CM.currentTerm cm)); [lia |].
    destruct (CM.state cm) eqn:Hs; simpl; rewrite ?Hs; repeat split; congruence. }
  set (cm3 := aeEnter cm now args) in *.
  destruct (prevMatches cm3 args) as [[|]|]; simpl in H; [| | discriminate].
  - destruct (appendMatched cm3 order args) as [[cm1 evs1]|] eqn:Ham; simpl in H;
      [| discriminate].
    assert (Hcm : cm' = cm1) by congruence. subst cm'.
    rewrite (appendMatched_frame _ _ _ _ _ Ham). exact H3.
  - destruct (conflictHints cm3 args) as [[ci ct]|]; simpl in H; [| discriminate].
    assert (Hcm : cm' = cm3) by congruence. subst cm'. exact H3.
Qed.

(** The handler returns with the channel taken into account as soon as
    the channel is open or the request does not raise [commitIndex]. *)
Lemma AppendEntriesChan_returns closed cm now order args reply0 cm' reply evs :
  AppendEntries cm now order args reply0 = Some (cm', reply, evs) ->
  closed = false \/ AppendEntriesArgs.LeaderCommit args <= CM.commitIndex cm ->
  AppendEntriesChan closed cm now order args reply0 = Some (cm', reply, evs).
Proof.
  intros H Hc. unfold AppendEntriesChan. rewrite H. cbn [mbind option_bind].
  destruct closed; [| reflexivity]. simpl.
  destruct (sendsCommitReady evs) eqn:Hs; [| reflexivity].
  apply (AppendEntries_sends _ _ _ _ _ _ _ _ H) in Hs as (_ & _ & _ & Hgt).
  destruct Hc as [Hc | Hc]; [discriminate | lia].
Qed.

(** X8.  How long a vote lasts.  A node that has granted its vote to a
    candidate (whose id is not -1, the value that stands for "no vote")
    refuses a request of the same term from another candidate when it
    handles that request next, on the state the grant left, and keeps its
    vote.  The vote is not bound to the term, though.  An [AppendEntries]
    of the current term (with [PrevLogIndex >= -1], and with
    [newCommitReadyChan] open or no rise of [commitIndex], so that the
    handler returns) leaves the vote of a Follower as it is, but makes any
    other node that is not Dead a Follower with its vote cleared, and the
    node then grants a request of the same term from any candidate whose
    log is not behind.  So a Candidate, which has voted for itself, can
    vote for another candidate in the same term. *)
Theorem vote_kept_until_role_reset :
  (forall (cm cm1 : CM.t) (now now2 : Z) (a1 a2 : RequestVoteArgs.t)
          (r0 r2 rep1 : RequestVoteReply.t) (evs1 : list Event),
     CM.state cm <> Dead ->
     RequestVote cm now a1 r0 = Some (cm1, rep1, evs1) ->
     RequestVoteReply.VoteGranted rep1 = true ->
     RequestVoteArgs.CandidateId a1 <> -1 ->
     RequestVoteArgs.Term a2 = RequestVoteArgs.Term a1 ->
     RequestVoteArgs.CandidateId a2 <> RequestVoteArgs.CandidateId a1 ->
     RequestVoteArgs.LoadLevel a2 <> 0 ->
     exists rep2 evs2,
       RequestVote cm1 now2 a2 r2 = Some (cm1, rep2, evs2) /\
       RequestVoteReply.VoteGranted rep2 = false /\
       CM.votedFor cm1 = RequestVoteArgs.CandidateId a1) /\
  (forall (closed : bool) (cm : CM.t) (now : Z) (order : list string)
          (ae : AppendEntriesArgs.t) (reply0 : AppendEntriesReply.t),
     CM.state cm <> Dead ->
     AppendEntriesArgs.Term ae = CM.currentTerm cm ->
     -1 <= AppendEntriesArgs.PrevLogIndex ae ->
     closed = false \/ AppendEntriesArgs.LeaderCommit ae <= CM.commitIndex cm ->
     exists cm1 reply evs,
       AppendEntriesChan closed cm now order ae reply0 = Some (cm1, reply, evs) /\
       CM.state cm1 = Follower /\
       CM.currentTerm cm1 = CM.currentTerm cm /\
       CM.votedFor cm1 =
         (if CMState_eqb (CM.state cm) Follower then CM.votedFor cm else -1) /\
       (CM.state cm <> Follower ->
        forall (now2 : Z) (a2 : RequestVoteArgs.t) (r2 : RequestVoteReply.t)
               (last : Z * Z),
          RequestVoteArgs.Term a2 = CM.currentTerm cm ->
          RequestVoteArgs.LoadLevel a2 <> 0 ->
          lastLogIndexAndTerm cm1 = Some last ->
          upToDate (RequestVoteArgs.LastLogIndex a2, RequestVoteArgs.LastLogTerm a2) last ->
          exists cm2 rep2 evs2,
            RequestVote cm1 now2 a2 r2 = Some (cm2, rep2, evs2) /\
            RequestVoteReply.VoteGranted rep2 = true /\
            CM.currentTerm cm2 = CM.currentTerm cm /\
            CM.votedFor cm2 = RequestVoteArgs.CandidateId a2)).
Proof.
  split.
  - intros cm cm1 now now2 a1 a2 r0 r2 rep1 evs1.
    apply RequestVote_second_refused.
  - intros closed cm now order ae reply0 Hst Ht Hp Hopen.
    destruct (AppendEntries_returns cm now order ae reply0 Hp)
      as (cm1 & reply & evs & HAE).
    destruct (AppendEntries_vote _ _ _ _ _ _ _ _ Hst Ht HAE) as (Hs1 & Ht1 & Hv1).
    exists cm1, reply, evs.
    split; [exact (AppendEntriesChan_returns closed _ _ _ _ _ _ _ _ HAE Hopen) |].
    split; [exact Hs1 |]. split; [exact Ht1 |]. split; [exact Hv1 |].
    intros Hnf now2 a2 r2 last Ha2 Hll Hlast Hup.
    assert (Hv : CM.votedFor cm1 = -1).
    { rewrite Hv1. rewrite (proj2 (CMState_eqb_neq _ _) Hnf). reflexivity. }
    destruct (RequestVote_grants_same_term cm1 now2 a2 r2 last) as [evs2 H2];
      [rewrite Hs1; discriminate | congruence | left; exact Hv | exact Hll
      | exact Hlast | exact Hup |].
    eexists _, _, evs2. split; [exact H2 |]. split; [reflexivity |].
    split; [exact Ht1 | reflexivity].
Qed.

Lemma vote_kept_until_role_reset_witness :
  (exists cm1 rep1 evs1 rep2 evs2,
     RequestVote idleFollower 7 voteRequest RequestVoteReply.zero
       = Some (cm1, rep1, evs1) /\
     RequestVoteReply.VoteGranted rep1 = true /\
     RequestVote cm1 8 voteRequestOther RequestVoteReply.zero = Some (cm1, rep2, evs2) /\
     RequestVoteReply.VoteGranted rep2 = false) /\
  (StartElection idleFollower 0).1.1 = selfVoted /\
  CM.votedFor selfVoted = CM.id selfVoted /\
  exists cm1 reply evs cm2 rep2 evs2,
    AppendEntriesChan false selfVoted 1 anyOrder heartbeatTermTwo AppendEntriesReply.zero
      = Some (cm1, reply, evs) /\
    RequestVote cm1 2 voteRequestTermTwo RequestVoteReply.zero = Some (cm2, rep2, evs2) /\
    RequestVoteReply.VoteGranted rep2 = true /\
    CM.currentTerm cm2 = CM.currentTerm selfVoted /\
    CM.votedFor cm2 = 2.
Proof.
  split.
  { set (cm1 := CM.set_electionResetEvent 7 (CM.set_votedFor 2 idleFollower)).
    assert (H1 : RequestVote idleFollower 7 voteRequest RequestVoteReply.zero
                 = Some (cm1, RequestVoteReply.mk 1 true 10, [EvSleep 20]))
      by reflexivity.
    destruct (proj1 vote_kept_until_role_reset idleFollower cm1 7 8 voteRequest
                voteRequestOther RequestVoteReply.zero RequestVoteReply.zero _ _
                ltac:(discriminate) H1 eq_refl ltac:(discriminate) eq_refl
                ltac:(discriminate) ltac:(discriminate))
      as [rep2 [evs2 [H2 [Hg2 _]]]].
    exists cm1, (RequestVoteReply.mk 1 true 10), [EvSleep 20], rep2, evs2.
    repeat split; assumption. }
  split; [reflexivity |]. split; [reflexivity |].
  assert (H1 : CM.state selfVoted <> Dead) by discriminate.
  assert (H2 : AppendEntriesArgs.Term heartbeatTermTwo = CM.currentTerm selfVoted)
    by reflexivity.
  assert (H3 : -1 <= AppendEntriesArgs.PrevLogIndex heartbeatTermTwo)
    by (vm_compute; discriminate).
  assert (H4 : false = false \/
               AppendEntriesArgs.LeaderCommit heartbeatTermTwo
                 <= CM.commitIndex selfVoted) by (left; reflexivity).
  destruct (proj2 vote_kept_until_role_reset false selfVoted 1 anyOrder heartbeatTermTwo
              AppendEntriesReply.zero H1 H2 H3 H4)
    as (cm1 & reply & evs & HAE & _ & _ & _ & Hgrant).
  assert (Hlog : CM.log cm1 = []).
  { assert (Hx : AppendEntriesChan false selfVoted 1 anyOrder heartbeatTermTwo
                   AppendEntriesReply.zero
                 = Some (CM.set_electionResetEvent 1 (becomeFollower selfVoted 2),
                         AppendEntriesReply.mk 2 true 0 0, [])) by reflexivity.
    rewrite Hx in HAE. injection HAE as <- _ _. reflexivity. }
  assert (Hlast : lastLogIndexAndTerm cm1 = Some (-1, -1)).
  { unfold lastLogIndexAndTerm. rewrite Hlog. reflexivity. }
  destruct (Hgrant ltac:(discriminate) 2 voteRequestTermTwo RequestVoteReply.zero
              (-1, -1) eq_refl ltac:(discriminate) Hlast
              ltac:(right; simpl; lia))
    as (cm2 & rep2 & evs2 & HRV & Hg & Ht & Hv).
  exists cm1, reply, evs, cm2, rep2, evs2.
  split; [exact HAE |]. split; [exact HRV |]. split; [exact Hg |].
  split; [exact Ht | exact Hv].
Defined.

(** ** The leader's [nextIndex] and its log *)

(** The leader sends on [newCommitReadyChan] exactly when the handling of
    the reply has changed [commitIndex]. *)
Lemma leaderOnAEReply_sends cm savedCurrentTerm peerId ni entries reply cm' evs :
  leaderOnAEReply cm savedCurrentTerm peerId ni entries reply = Some (cm', evs) ->
  sendsCommitReady evs = negb (CM.commitIndex cm' =? CM.commitIndex cm).
Proof.
  unfold leaderOnAEReply. intros H.
  assert (Hsame : forall c e, Some (c, e) = Some (cm', evs) ->
                    CM.commitIndex c = CM.commitIndex cm -> e = [] ->
                    sendsCommitReady evs = negb (CM.commitIndex cm' =? CM.commitIndex cm)).
  { intros c e Heq Hc He. assert (E1 : cm' = c) by congruence.
    assert (E2 : evs = e) by congruence. rewrite E1, E2, Hc, He, Z.eqb_refl.
    reflexivity. }
  destruct (_ >? _); [apply (Hsame _ _ H); reflexivity |].
  destruct (_ && _); [| apply (Hsame _ _ H); reflexivity].
  destruct (AppendEntriesReply.Success reply).
  - cbv zeta in H.
    match type of H with
    | context [advanceCommitIndex ?c] =>
        destruct (advanceCommitIndex c) as [cm3|]; cbn [mbind option_bind] in H;
          [| discriminate]
    end.
    cbn [CM.commitIndex CM.set_matchIndex CM.set_nextIndex] in H.
    destruct (negb (CM.commitIndex cm3 =? CM.commitIndex cm)) eqn:Hn.
    + assert (E1 : cm' = cm3) by congruence.
      assert (E2 : evs = [EvNewCommitReady; EvTriggerAE]) by congruence.
      rewrite E1, E2, Hn. reflexivity.
    + assert (E1 : cm' = cm3) by congruence.
      assert (E2 : evs = []) by congruence.
      rewrite E1, E2, Hn. reflexivity.
  - destruct (_ >=? 0).
    + destruct (lastIndexOfTerm _ _ _) as [li|]; cbn [mbind option_bind] in H;
        [| discriminate].
      destruct (li >=? 0); apply (Hsame _ _ H); reflexivity.
    + apply (Hsame _ _ H); reflexivity.
Qed.

Lemma leaderPrepareAE_out_of_range (cm : CM.t) (savedCurrentTerm peerId : Z) :
  ~ 0 <= goGet (CM.nextIndex cm) peerId <= len (CM.log cm) ->
  leaderPrepareAE cm savedCurrentTerm peerId = None.
Proof.
  intros Hout. unfold leaderPrepareAE.
  set (ni := goGet (CM.nextIndex cm) peerId) in *.
  assert (Hs : slice (CM.log cm) ni (len (CM.log cm)) = None).
  { unfold slice.
    destruct (Z.leb_spec 0 ni); simpl; [| reflexivity].
    destruct (Z.leb_spec ni (len (CM.log cm))); simpl; [lia | reflexivity]. }
  rewrite Hs.
  destruct (if wrapInt (ni - 1) >=? 0 then _ else _); reflexivity.
Qed.

(** X23.  The leader's [nextIndex] within one round, and beyond.  In a
    round with nothing in between (the leader builds a request for a peer
    whose [nextIndex] lies in [0..len(log)], the peer's handler answers it,
    and the leader handles the reply on the state that built the request)
    the log is kept and the peer's [nextIndex] again lies in
    [0..len(log)], so that the next request can be built; the handling
    returns unless it raises [commitIndex] while [newCommitReadyChan] is
    closed, where the send panics.  This is no invariant of the module:
    the handler stores the hint of a refusal unchecked, so a reply with a
    negative [ConflictTerm] that is handled by a Leader whose log does not
    reach [ConflictIndex] (it was cut in between) leaves [nextIndex]
    outside the log, and building the next request panics. *)
Theorem round_keeps_next_index_in_log :
  (forall (closed closedF : bool) (L F : CM.t) (savedCurrentTerm peerId now : Z)
          (order : list string) (args : AppendEntriesArgs.t) (F' : CM.t)
          (reply : AppendEntriesReply.t) (evs : list Event),
     len (CM.log L) <= maxInt ->
     -1 <= CM.commitIndex L ->
     0 <= goGet (CM.nextIndex L) peerId <= len (CM.log L) ->
     leaderPrepareAE L savedCurrentTerm peerId
       = Some (goGet (CM.nextIndex L) peerId, args) ->
     AppendEntriesChan closedF F now order args AppendEntriesReply.zero
       = Some (F', reply, evs) ->
     exists L' evs',
       leaderOnAEReply L savedCurrentTerm peerId (goGet (CM.nextIndex L) peerId)
                       (AppendEntriesArgs.Entries args) reply = Some (L', evs') /\
       leaderOnAEReplyChan closed L savedCurrentTerm peerId
                           (goGet (CM.nextIndex L) peerId)
                           (AppendEntriesArgs.Entries args) reply
         = (if closed && negb (CM.commitIndex L' =? CM.commitIndex L)
            then None else Some (L', evs')) /\
       CM.log L' = CM.log L /\
       0 <= goGet (CM.nextIndex L') peerId <= len (CM.log L') /\
       exists args',
         leaderPrepareAE L' savedCurrentTerm peerId
           = Some (goGet (CM.nextIndex L') peerId, args')) /\
  (forall (L : CM.t) (savedCurrentTerm peerId ni : Z) (entries : list LogEntry.t)
          (reply : AppendEntriesReply.t),
     CM.state L = Leader ->
     AppendEntriesReply.Term reply <= CM.currentTerm L ->
     savedCurrentTerm = AppendEntriesReply.Term reply ->
     AppendEntriesReply.Success reply = false ->
     AppendEntriesReply.ConflictTerm reply < 0 ->
     exists L',
       leaderOnAEReply L savedCurrentTerm peerId ni entries reply = Some (L', []) /\
       CM.log L' = CM.log L /\
       goGet (CM.nextIndex L') peerId = AppendEntriesReply.ConflictIndex reply /\
       (~ 0 <= AppendEntriesReply.ConflictIndex reply <= len (CM.log L) ->
        leaderPrepareAE L' savedCurrentTerm peerId = None)).
Proof.
  split.
  - intros closed closedF L F savedCurrentTerm peerId now order args F' reply evs
           Hmax Hci Hni Hprep HAE.
    assert (HAE' : AppendEntries F now order args AppendEntriesReply.zero
                   = Some (F', reply, evs)).
    { unfold AppendEntriesChan in HAE.
      destruct (AppendEntries F now order args AppendEntriesReply.zero)
        as [[[c r] e]|]; cbn [mbind option_bind] in HAE; [| discriminate].
      destruct (closedF && sendsCommitReady e); [discriminate | exact HAE]. }
    destruct (leaderOnAEReply_round L F savedCurrentTerm peerId now order args F'
                reply evs Hmax Hci Hni Hprep HAE')
      as (L' & evs' & HRe & Hlog & Hin & Hnext).
    exists L', evs'. split; [exact HRe |]. split.
    { unfold leaderOnAEReplyChan. rewrite HRe. cbn [mbind option_bind].
      rewrite (leaderOnAEReply_sends _ _ _ _ _ _ _ _ HRe). reflexivity. }
    split; [exact Hlog |]. split; [exact Hin | exact Hnext].
  - intros L savedCurrentTerm peerId ni entries reply Hs Ht Hsaved Hfail Hct.
    eexists. split.
    { unfold leaderOnAEReply.
      destruct (Z.gtb_spec (AppendEntriesReply.Term reply) (CM.currentTerm L)); [lia |].
      rewrite Hs, Hsaved, Z.eqb_refl, Hfail. cbn [CMState_eqb andb].
      destruct (Z.geb_spec (AppendEntriesReply.ConflictTerm reply) 0); [lia |].
      reflexivity. }
    split; [reflexivity |].
    cbn [CM.nextIndex CM.set_nextIndex CM.log].
    split; [apply goGet_insert |].
    intros Hout. apply leaderPrepareAE_out_of_range.
    cbn [CM.nextIndex CM.set_nextIndex CM.log]. rewrite goGet_insert. exact Hout.
Qed.

Lemma round_keeps_next_index_in_log_witness :
  (exists args F' reply evs L' evs',
     leaderPrepareAE leaderAhead 2 3 = Some (2, args) /\
     AppendEntriesChan false idleFollower 0 anyOrder args AppendEntriesReply.zero
       = Some (F', reply, evs) /\
     AppendEntriesReply.Success reply = false /\
     leaderOnAEReplyChan false leaderAhead 2 3 2 (AppendEntriesArgs.Entries args) reply
       = Some (L', evs') /\
     0 <= goGet (CM.nextIndex L') 3 <= len (CM.log L')) /\
  (exists L',
     leaderOnAEReply leaderOneEntry 2 3 4 [] staleRefusal = Some (L', []) /\
     goGet (CM.nextIndex L') 3 = 3 /\
     len (CM.log L') = 1 /\
     leaderPrepareAE L' 2 3 = None).
Proof.
  split.
  - assert (H1 : len (CM.log leaderAhead) <= maxInt) by (vm_compute; discriminate).
    assert (H2 : -1 <= CM.commitIndex leaderAhead) by (vm_compute; discriminate).
    assert (H3 : 0 <= goGet (CM.nextIndex leaderAhead) 3 <= len (CM.log leaderAhead))
      by (vm_compute; split; discriminate).
    set (args := AppendEntriesArgs.mk 2 1 1 2 [] (-1) (-1)).
    assert (H4 : leaderPrepareAE leaderAhead 2 3
                 = Some (goGet (CM.nextIndex leaderAhead) 3, args)) by reflexivity.
    set (F' := CM.set_electionResetEvent 0 (becomeFollower idleFollower 2)).
    set (reply := AppendEntriesReply.mk 2 false 0 (-1)).
    assert (H5 : AppendEntriesChan false idleFollower 0 anyOrder args
                   AppendEntriesReply.zero = Some (F', reply, [])) by reflexivity.
    destruct (proj1 round_keeps_next_index_in_log false false leaderAhead idleFollower
                2 3 0 anyOrder args F' reply [] H1 H2 H3 H4 H5)
      as (L' & evs' & _ & Hre & _ & Hin & _).
    exists args, F', reply, [], L', evs'.
    split; [exact H4 |]. split; [exact H5 |]. split; [reflexivity |].
    split; [exact Hre | exact Hin].
  - destruct (proj2 round_keeps_next_index_in_log leaderOneEntry 2 3 4 [] staleRefusal
                eq_refl ltac:(vm_compute; discriminate) eq_refl eq_refl
                ltac:(vm_compute; reflexivity))
      as (L' & Hre & Hlog & Hn & Hnone).
    exists L'. split; [exact Hre |]. split; [exact Hn |].
    split; [rewrite Hlog; reflexivity |].
    apply Hnone. intros [_ Hle]. vm_compute in Hle. apply Hle. reflexivity.
Defined.


Lemma append_entries_panics_iff_witness :
  exists cm1 cm2,
    StopChan false idleFollower = Some (cm1, true) /\
    CM.state cm1 = Dead /\
    leaderOnAEReplyChan true cm1 1 1 0 [] successReply = Some (cm2, []) /\
    CM.state cm2 = Follower /\
    AppendEntriesArgs.PrevLogIndex aeRaisesCommit = -1 /\
    AppendEntries cm2 0 anyOrder aeRaisesCommit AppendEntriesReply.zero <> None /\
    AppendEntriesChan true cm2 0 anyOrder aeRaisesCommit AppendEntriesReply.zero = None.
Proof.
  exists (Stop idleFollower), (becomeFollower (Stop idleFollower) 2).
  split; [reflexivity |]. split; [reflexivity |]. split; [reflexivity |].
  split; [reflexivity |]. split; [reflexivity |].
  split.
  - intros H. apply AppendEntries_None_iff in H as (_ & _ & H).
    vm_compute in H. discriminate.
  - apply (proj1 (append_entries_panics_iff true (becomeFollower (Stop idleFollower) 2)
                    0 anyOrder aeRaisesCommit AppendEntriesReply.zero)).
    split; [discriminate |]. split; [vm_compute; discriminate |].
    right. split; [reflexivity |]. split; [reflexivity | reflexivity].
Defined.
